(** * The level-bounded N-Queens enumerator and its master/worker driver

    A shallow embedding of [nqueens.cpp] and [mpi_nqueens.cpp].

    [nqueens_by_level] is an iterative backtracking search written with
    one [while] loop, two identical inner [while] loops and a handful of
    [int] locals.  It is embedded as a small-step machine over a record
    of those locals; a step is one evaluation of a loop test together
    with the straight-line code that follows it. *)

From Stdlib Require Import ZArith Lia Bool.
From stdpp Require Import base list sorting.

Local Open Scope Z_scope.

(** ** 32-bit conversions

    The locals of [nqueens_by_level] are [int]; its parameters and the
    entries of [pos] are [unsigned int].  Values are kept in [Z] and the
    conversions the compiler inserts are written out. *)

Module Int32.

Definition modulus : Z := 2 ^ 32.
Definition half : Z := 2 ^ 31.

(** conversion to [unsigned int] *)
Definition to_uint (z : Z) : Z := z mod modulus.

(** conversion to [int] *)
Definition to_int (z : Z) : Z := (z + half) mod modulus - half.

End Int32.

Import Int32.

Arguments to_uint : simpl never.
Arguments to_int : simpl never.

(** ** Memory blocks

    [index] is a [new int[max_level]] block that is never initialised as
    a whole, and the search reads it one cell below its first element
    when it finishes (line 87 and line 110 re-test [index[k]] after [k]
    has been decremented past the first row).  A read of a cell outside
    the block, or of a cell inside it that was never written, yields
    whatever the memory holds there: the function [amb] below.  A write
    outside a block, and a read outside [pos], end the run as [Crashed]:
    the machine follows the code up to the first such access and says
    nothing of what a compiled program does after it.  A read of
    [index] outside its block does not end the run of the machine; on
    a real machine it may end the process. *)

Definition peek (l : list Z) (a : Z) : Z := default 0 (l !! Z.to_nat a).

Definition in_block (l : list Z) (a : Z) : bool :=
  (0 <=? a) && (a <? Z.of_nat (length l)).

Definition load (amb : Z -> Z) (l : list Z) (a : Z) : Z :=
  if in_block l a then peek l a else amb a.

Definition load_strict (l : list Z) (a : Z) : option Z :=
  if in_block l a then l !! Z.to_nat a else None.

Definition store (l : list Z) (a v : Z) : option (list Z) :=
  if in_block l a then Some (<[Z.to_nat a := v]> l) else None.

(** ** The machine *)

Inductive label : Type :=
| AtInit   (* the test of the [for] loop of line 78 *)
| AtLoop   (* the test of [while(flag==0)], line 85 *)
| AtScan.  (* the test of the inner [while], line 87 or line 110 *)

Record frame (W : Type) : Type := Frame {
  st_pos : list Z;
  st_vec_out : list Z;
  st_index : list Z;
  st_size : Z;
  st_k : Z;
  st_i : Z;
  st_j : Z;
  st_flag : Z;
  st_stop_sign : Z;
  st_pc : label;
  st_world : W
}.

Arguments Frame {W}.
Arguments st_pos {W}.
Arguments st_vec_out {W}.
Arguments st_index {W}.
Arguments st_size {W}.
Arguments st_k {W}.
Arguments st_i {W}.
Arguments st_j {W}.
Arguments st_flag {W}.
Arguments st_stop_sign {W}.
Arguments st_pc {W}.
Arguments st_world {W}.

Inductive outcome (W : Type) : Type :=
| Running (s : frame W)
| Returned (w : W)
| Crashed (w : W)
| Hung (w : W).

Arguments Running {W}.
Arguments Returned {W}.
Arguments Crashed {W}.
Arguments Hung {W}.

Definition world_of {W} (o : outcome W) : W :=
  match o with
  | Running s => st_world s
  | Returned w | Crashed w | Hung w => w
  end.

(** The test of line 86: row [i], holding column [j], against the
    candidate column [c] of row [k]. *)
Definition attack (i j k c : Z) : bool :=
  ((i =? k) || (j =? c) || (Z.abs (i - k) =? Z.abs (j - c))) && (i <=? k - 1).

Section Enumerator.

Context {W : Type}.

(** [success_func] acts on the caller's state [W]; [None] is a call that
    never returns (the master's callback blocks in a receive). *)
Variable success_func : list Z -> W -> option W.
Variable amb : Z -> Z.
Variables start_level max_level : Z.

(** Lines 66 to 77: the locals before the [for] loop. *)
Definition enter (pos : list Z) (w : W) : frame W :=
  Frame pos
        (replicate (Z.to_nat max_level) 0)
        (amb <$> seqZ 0 max_level)
        (to_int (Z.of_nat (length pos)))
        (to_int start_level) 0 0 0 0 AtInit w.

(** Lines 94 to 98 and 116 to 120: the code after an inner [while]. *)
Definition after_scan (s : frame W) (c : Z) : outcome W :=
  let '(Frame p vo ix sz k i j fl ss _ w) := s in
  let bump :=
    if negb (fl =? 1) then store ix k (c + 1) else Some ix in
  match bump, load_strict p 0 with
  | Some ix', Some p0 => Running (Frame p vo ix' sz k 0 (to_int p0) fl ss AtLoop w)
  | _, _ => Crashed w
  end.

(** One step. In [AtLoop], [c] is [index[k]]; line 104 stores it in
    [pos[k]], lines 106 to 108 copy [pos[0..max_level)] into [vec_out]
    (a store to [pos[k]] with [k = max_level-1] has succeeded, so [pos]
    has that many cells) and line 109 calls the callback. *)
Definition step (s : frame W) : outcome W :=
  let '(Frame p vo ix sz k i j fl ss l w) := s in
  match l with
  | AtInit =>
      (* line 78: [k] is converted to [unsigned] for the comparison *)
      if to_uint k <=? to_uint (max_level - 1) then
        match store ix k 0 with                                   (* line 79 *)
        | Some ix' => Running (Frame p vo ix' sz (k + 1) i j fl ss AtInit w)
        | None => Crashed w
        end
      else
        match load_strict p 0 with                          (* lines 81 to 84 *)
        | Some p0 =>
            Running (Frame p vo ix sz (to_int start_level) 0 (to_int p0) fl
                           (to_int (to_uint (start_level - 1))) AtLoop w)
        | None => Crashed w
        end
  | AtLoop =>
      if negb (fl =? 0) then Returned w                    (* lines 85, 135 *)
      else
        let c := load amb ix k in
        if attack i j k c                                         (* line 86 *)
        then Running (Frame p vo ix sz k i j fl ss AtScan w)
        else if i >=? k - 1 then                                 (* line 103 *)
          match store p k (to_uint c) with                       (* line 104 *)
          | None => Crashed w
          | Some p' =>
              if to_uint k =? to_uint (max_level - 1) then       (* line 105 *)
                let vo' := take (Z.to_nat max_level) p' in
                match success_func vo' w with                    (* line 109 *)
                | Some w' => Running (Frame p' vo' ix sz k i j fl ss AtScan w')
                | None => Hung w
                end
              else                                      (* lines 123 to 126 *)
                match store ix (k + 1) 0, load_strict p' 0 with
                | Some ix', Some p0 =>
                    Running (Frame p' vo ix' sz (k + 1) 0 (to_int p0) fl ss AtLoop w)
                | _, _ => Crashed w
                end
          end
        else                                            (* lines 130 and 131 *)
          match load_strict p (i + 1) with
          | Some v => Running (Frame p vo ix sz k (i + 1) (to_int v) fl ss AtLoop w)
          | None => Crashed w
          end
  | AtScan =>
      let c := load amb ix k in
      if c >=? sz - 1 then                              (* lines 87 and 110 *)
        let k' := k - 1 in                              (* lines 88 to 91 *)
        Running (Frame p vo ix sz k' i j (if k' <=? ss then 1 else fl) ss AtScan w)
      else after_scan s c
  end.

Fixpoint run (fuel : nat) (s : frame W) : outcome W :=
  match fuel with
  | O => Running s
  | S fuel' =>
      match step s with
      | Running s' => run fuel' s'
      | o => o
      end
  end.

Definition nqueens_by_level (fuel : nat) (pos : list Z) (w : W) : outcome W :=
  run fuel (enter pos w).

End Enumerator.

(** ** The sequential solver, lines 147 to 175

    [SolutionStore::solutions()] is one process-wide vector; it is the
    state the callback acts on. *)

Definition add_solution (sol : list Z) (sols : list Z) : list Z := sols ++ sol.

Definition add_solution_callback (solution : list Z) (sols : list Z) : option (list Z) :=
  Some (add_solution solution sols).

(** [nqueens n]: the returned vector and the store it leaves, when the
    search returns within [fuel] steps. *)
Definition nqueens (amb : Z -> Z) (fuel : nat) (n : Z) (sols : list Z)
  : option (list Z * list Z) :=
  let zero := replicate (Z.to_nat n) 0 in
  match nqueens_by_level add_solution_callback amb 0 n fuel zero sols with
  | Returned sols' => Some (sols', [])
  | _ => None
  end.

(** ** The master and its workers, [mpi_nqueens.cpp]

    One master (rank 0) and [workers] worker processes (ranks 1 to
    [workers]) exchange messages.  The master is sequential; all it
    sees of a worker is what that worker has sent and the master has
    not received yet.  A worker's answer to a work unit is computed
    when the unit is sent, by running the worker's search; which of the
    waiting messages a receive from [MPI_ANY_SOURCE] takes is decided
    by [choose]. *)

Definition initial_ready : Z := 1.
Definition solution_ready : Z := 2.
Definition no_solution_ready : Z := 3.

(** What a worker has in flight towards the master. *)
Inductive mail : Type :=
| Idle                                  (* nothing: it waits for work *)
| Lost                                  (* nothing, ever: its search did not return *)
| Ready (status : Z) (batch : list Z).  (* a readiness message, and the batch after it *)

(** The MPI calls of the master. *)
Inductive event : Type :=
| Bcast (v : Z)
| RecvReady (rank : nat) (status : Z)
| RecvBatch (rank : nat) (batch : list Z)
| SendWork (rank : nat) (partial : list Z)
| SendTerm (rank : nat).

Record master : Type := Master {
  m_solutions : list Z;        (* SolutionStore::solutions() *)
  m_active_workers : Z;        (* ActiveWorkers::active_workers() *)
  m_mailbox : list mail;       (* entry r is the worker of rank r+1 *)
  m_pos : list (list Z);       (* the [pos] buffer of each worker *)
  m_clock : nat;               (* receives made so far *)
  m_log : list event
}.

Inductive ending : Type :=
| Done (allsolutions : list Z)
| Stuck     (* a crash, or a receive that no message will ever match *)
| Busy.     (* still running when the steps allowed were used up *)

(** Lines 76 to 86: the counter is an [unsigned int]. *)
Definition initialize_workers : Z := 0.
Definition add_worker (active : Z) : Z := to_uint (active + 1).
Definition remove_worker (active : Z) : Z := to_uint (active - 1).

(** Lines 116 to 120, on the master's side: two broadcasts. *)
Definition distribute_parameters (n k : Z) : list event := [Bcast n; Bcast k].

Definition has_mail (mb : list mail) (r : nat) : bool :=
  match mb !! r with
  | Some (Ready _ _) => true
  | _ => false
  end.

Section Protocol.

Variables n k : Z.
Variable workers : nat.
Variable choose : nat -> nat.
Variable wamb : nat -> Z -> Z.
Variable wfuel : nat.

(** Lines 199 to 201. *)
Definition worker_solution_func (solution : list Z) (sols : list Z) : option (list Z) :=
  Some (add_solution solution sols).

(** Lines 242 to 257 of [worker_main]: one work unit, from the board
    received to the messages sent back. *)
Definition worker_cycle (r : nat) (pos : list Z) : mail :=
  match nqueens_by_level worker_solution_func (wamb r) k n wfuel pos [] with
  | Returned allsolutions =>
      match allsolutions with
      | [] => Ready no_solution_ready []
      | _ :: _ => Ready solution_ready allsolutions
      end
  | _ => Lost
  end.

(** Lines 91 to 114. [None]: the receive of line 95 blocks for ever. *)
Definition recieve_solution (m : master) : option (nat * master) :=
  let '(Master sols active mb bufs clk log) := m in
  let ready := List.filter (has_mail mb) (seq 0 (length mb)) in
  match ready with
  | [] => None
  | r0 :: _ =>
      let r := nth (choose clk mod length ready) ready r0 in
      match mb !! r with
      | Some (Ready worker_ready batch) =>
          let got := worker_ready =? solution_ready in
          let sols' := if got then add_solution batch sols else sols in
          let active1 := if got then remove_worker active else active in
          let active2 :=
            if worker_ready =? no_solution_ready then remove_worker active1
            else active1 in
          Some (r, Master sols' active2 (<[r := Idle]> mb) bufs (S clk)
                          (log ++ RecvReady (S r) worker_ready
                               :: (if got then [RecvBatch (S r) batch] else [])))
      | _ => None
      end
  end.

(** Lines 137 to 143. The worker of rank [r+1] receives the board into
    the first cells of its [pos] (line 234 or 260) and answers. *)
Definition master_solution_func (solution : list Z) (m : master) : option master :=
  match recieve_solution m with
  | None => None
  | Some (r, Master sols active mb bufs clk log) =>
      let pos := solution ++ drop (length solution) (default [] (bufs !! r)) in
      Some (Master sols (add_worker active)
                   (<[r := worker_cycle r pos]> mb) (<[r := pos]> bufs) clk
                   (log ++ [SendWork (S r) solution]))
  end.

(** Line 173. *)
Fixpoint drain (dfuel : nat) (m : master) : ending * master :=
  match dfuel with
  | O => (Busy, m)
  | S dfuel' =>
      if 0 <? m_active_workers m then
        match recieve_solution m with
        | Some (_, m') => drain dfuel' m'
        | None => (Stuck, m)
        end
      else (Done [], m)
  end.

(** Lines 160 to 163, and lines 215 to 224 of each worker. *)
Definition boot : master :=
  Master [] initialize_workers
         (replicate workers (Ready initial_ready []))
         (replicate workers (replicate (Z.to_nat n) 0))
         0 (distribute_parameters n k).

(** Lines 176 to 185. *)
Definition finish (m : master) : ending * master :=
  let '(Master sols active mb bufs clk log) := m in
  (Done sols, Master [] active mb bufs clk (log ++ (SendTerm <$> seq 1 workers))).

Definition master_main (mamb : Z -> Z) (fuel dfuel : nat) : ending * master :=
  let pos := replicate (Z.to_nat n) 0 in
  match nqueens_by_level master_solution_func mamb 0 k fuel pos boot with
  | Returned m =>
      match drain dfuel m with
      | (Done _, m') => finish m'
      | stopped => stopped
      end
  | Running s => (Busy, st_world s)
  | Crashed m | Hung m => (Stuck, m)
  end.

End Protocol.

(** The change of the count of busy workers that the calls of a log
    stand for: a work unit sent raises it, a report other than the
    first readiness of a worker lowers it. *)
Definition weight (e : event) : Z :=
  match e with
  | SendWork _ _ => 1
  | RecvReady _ status =>
      if (status =? solution_ready) || (status =? no_solution_ready) then -1 else 0
  | _ => 0
  end.

Definition balance (log : list event) : Z := foldr (fun e acc => weight e + acc) 0 log.

Definition is_term (e : event) : option nat :=
  match e with SendTerm r => Some r | _ => None end.

(** A worker that holds a work unit it has not been seen to report. *)
Definition is_busy (x : mail) : bool :=
  match x with
  | Idle => false
  | Lost => true
  | Ready status _ => (status =? solution_ready) || (status =? no_solution_ready)
  end.

Definition busy (mb : list mail) : Z :=
  foldr (fun x acc => (if is_busy x then 1 else 0) + acc) 0 mb.

(** The count of busy workers never went below zero along a log. *)
Definition never_negative (log : list event) : Prop :=
  forall l1 l2, log = l1 ++ l2 -> 0 <= balance l1.

(** The count kept by the master agrees with its mailbox and its log. *)
Definition counted (workers : nat) (m : master) : Prop :=
  m_active_workers m = busy (m_mailbox m)
  /\ m_active_workers m = balance (m_log m)
  /\ length (m_mailbox m) = workers
  /\ never_negative (m_log m)
  /\ omap is_term (m_log m) = [].

(** Memory that holds zero everywhere. *)
Definition calm : Z -> Z := fun _ => 0.

(** ** Reachability between frames *)

Section Reach.

Context {W : Type}.
Variable success_func : list Z -> W -> option W.
Variable amb : Z -> Z.
Variables start_level max_level : Z.

Inductive star : frame W -> frame W -> Prop :=
| star_refl s : star s s
| star_step s s' s'' :
    step success_func amb start_level max_level s = Running s' ->
    star s' s'' -> star s s''.

End Reach.

(** An outcome other than [Running]. *)
Definition final {W} (o : outcome W) : Prop :=
  match o with Running _ => False | _ => True end.

(** ** What the search is expected to report *)

(** Row [i] holding column [j] shares a column or a diagonal with the
    square of row [k] and column [c]. *)
Definition hits (i j k c : Z) : bool :=
  (j =? c) || (Z.abs (i - k) =? Z.abs (j - c)).

(** Column [c] of row [k] is attacked by none of the rows below [k]. *)
Definition safe (p : list Z) (k c : Z) : bool :=
  forallb (fun i => negb (hits i (to_int (peek p i)) k c)) (seqZ 0 k).

(** The test of line 86 without its first clause. *)
Definition attack_without_eq (i j k c : Z) : bool :=
  ((j =? c) || (Z.abs (i - k) =? Z.abs (j - c))) && (i <=? k - 1).

(** Boards of [max_level] rows that extend rows [[0,k)] of [p], with
    [d] rows left to fill and columns [[0,n)], in the order of the
    columns tried. *)
Fixpoint ext (n max_level : Z) (d : nat) (p : list Z) (k : Z) : list (list Z) :=
  match d with
  | O => [take (Z.to_nat max_level) p]
  | S d' =>
      flat_map (fun c => if safe p k c
                         then ext n max_level d' (<[Z.to_nat k := c]> p) (k + 1)
                         else [])
               (seqZ 0 n)
  end.

(** The boards reached through column [c] of row [k]. *)
Definition through (n max_level : Z) (d : nat) (p : list Z) (k c : Z) : list (list Z) :=
  if safe p k c then ext n max_level d (<[Z.to_nat k := c]> p) (k + 1) else [].

(** The callback applied to a list of boards in turn. *)
Fixpoint fold_cb {W} (f : list Z -> W -> option W) (sols : list (list Z)) (w : W) : option W :=
  match sols with
  | [] => Some w
  | sol :: rest => match f sol w with
                   | Some w' => fold_cb f rest w'
                   | None => None
                   end
  end.

(** The boards [nqueens n] is expected to return, one after the other. *)
Definition solutions (n : Z) : list (list Z) :=
  ext n n (Z.to_nat n) (replicate (Z.to_nat n) 0) 0.

(** A solution of the [n]-queens problem: one column per row, all of
    them on the board, no two queens on a column or a diagonal. *)
Definition is_solution (n : Z) (s : list Z) : Prop :=
  Z.of_nat (length s) = n
  /\ (forall r, 0 <= r < n -> 0 <= peek s r < n)
  /\ (forall i r, 0 <= i < r -> r < n ->
        peek s i <> peek s r /\ Z.abs (i - r) <> Z.abs (peek s i - peek s r)).

(** Lexicographic order on column sequences. *)
Fixpoint lex_lt (a b : list Z) : Prop :=
  match a, b with
  | x :: a', y :: b' => x < y \/ (x = y /\ lex_lt a' b')
  | [], _ :: _ => True
  | _, [] => False
  end.

(** The order of two boards by their rows from [start_level] on. *)
Definition rows_lt (start_level : Z) (a b : list Z) : Prop :=
  lex_lt (drop (Z.to_nat start_level) a) (drop (Z.to_nat start_level) b).

(** A callback that keeps every board it is given, in order. *)
Definition record_solution (sol : list Z) (seen : list (list Z)) : option (list (list Z)) :=
  Some (seen ++ [sol]).

(** The cell of [index] that the step taken from a frame reads: the
    tests of lines 87 and 110 read [index[k]], and so does line 86 or,
    when [i==k] cuts the test short, line 104. *)
Definition cursor_read {W} (s : frame W) : option Z :=
  match st_pc s with
  | AtInit => None
  | AtLoop => if st_flag s =? 0 then Some (st_k s) else None
  | AtScan => Some (st_k s)
  end.

(** The step taken from a frame reads [index] outside its block. *)
Definition reads_outside {W} (max_level : Z) (s : frame W) : Prop :=
  exists a, cursor_read s = Some a /\ ~ (0 <= a < max_level).

(** Some cell below row [start_level] holds less than [size-1]: the
    inner [while] that has left the first row stops there. *)
Definition settles (amb : Z -> Z) (start_level size : Z) : Prop :=
  exists b, b < start_level /\ amb b < size - 1.

(** The step taken from a frame runs line 104, [pos[k]=index[k]]. *)
Definition places {W} (amb : Z -> Z) (s : frame W) : Prop :=
  st_pc s = AtLoop /\ st_flag s = 0
  /\ attack (st_i s) (st_j s) (st_k s) (load amb (st_index s) (st_k s)) = false
  /\ st_k s - 1 <= st_i s.

(** The boards of [k] rows that the master's search hands out, and the
    boards a worker finds from one of them. *)
Definition partials (n k : Z) : list (list Z) :=
  ext n k (Z.to_nat k) (replicate (Z.to_nat n) 0) 0.

Definition worker_boards (n k : Z) (q : list Z) : list (list Z) :=
  ext n n (Z.to_nat (n - k)) (q ++ replicate (Z.to_nat (n - k)) 0) k.

(** The messages a worker sends for the flat sequence it has found. *)
Definition reply_of (allsolutions : list Z) : mail :=
  match allsolutions with
  | [] => Ready no_solution_ready []
  | _ :: _ => Ready solution_ready allsolutions
  end.

(** What the proofs remember of a worker: it has not been given work
    yet, it holds the work unit [q], or its last report was received
    and nothing was sent to it since. *)
Inductive slot : Type :=
| Fresh
| Pending (q : list Z)
| Spent.

Definition mail_of (n k : Z) (s : slot) : mail :=
  match s with
  | Fresh => Ready initial_ready []
  | Pending q => reply_of (concat (worker_boards n k q))
  | Spent => Idle
  end.

Definition unit_of (s : slot) : option (list Z) :=
  match s with Pending q => Some q | _ => None end.

Definition live (s : slot) : bool :=
  match s with Spent => false | _ => true end.

(** The work units held by the workers. *)
Definition units (slots : list slot) : list (list Z) := omap unit_of slots.

(** The master's state, as the proofs follow it: [slots] tells what
    each worker holds and [recv] lists the work units whose reports
    have been received. *)
Definition tracked (n k : Z) (workers : nat) (m : master)
    (slots : list slot) (recv : list (list Z)) : Prop :=
  m_mailbox m = mail_of n k <$> slots
  /\ m_solutions m = concat (flat_map (worker_boards n k) recv)
  /\ length (m_pos m) = workers
  /\ Forall (fun b => drop (Z.to_nat k) b = replicate (Z.to_nat (n - k)) 0) (m_pos m)
  /\ counted workers m.

(** ** A callback that may block, followed through its calls

    [lift_cb f] acts on [option W]: it applies [f] as long as every
    call so far has returned and does nothing afterwards, so that it
    never blocks.  A run with [f] that does not block is, step by step,
    the run with [lift_cb f]. *)

Definition lift_cb {W} (f : list Z -> W -> option W)
    (sol : list Z) (ow : option W) : option (option W) :=
  Some (match ow with Some w => f sol w | None => None end).

Definition lift_frame {W} (s : frame W) : frame (option W) :=
  Frame (st_pos s) (st_vec_out s) (st_index s) (st_size s) (st_k s) (st_i s)
        (st_j s) (st_flag s) (st_stop_sign s) (st_pc s) (Some (st_world s)).

Definition lift_outcome {W} (o : outcome W) : outcome (option W) :=
  match o with
  | Running s => Running (lift_frame s)
  | Returned w => Returned (Some w)
  | Crashed w => Crashed (Some w)
  | Hung w => Hung (Some w)
  end.

(** A frame with the state of another caller in place of its own. *)
Definition with_world {W W'} (s : frame W) (w : W') : frame W' :=
  Frame (st_pos s) (st_vec_out s) (st_index s) (st_size s) (st_k s) (st_i s)
        (st_j s) (st_flag s) (st_stop_sign s) (st_pc s) w.

(** The messages in flight towards the master. *)
Definition in_flight (mb : list mail) : nat :=
  length (List.filter (fun x => match x with Ready _ _ => true | _ => false end) mb).

(** The rank a readiness message was received from. *)
Definition recv_rank (e : event) : option nat :=
  match e with RecvReady r _ => Some r | _ => None end.

(** ** The log of the master, read call by call *)

(** The board of a work unit sent. *)
Definition work_of (e : event) : option (list Z) :=
  match e with SendWork _ q => Some q | _ => None end.

(** The call [e] may come right after the call [prev]: a work unit goes
    to the rank whose report was received last, a batch is received
    from the rank that has just announced it, and a readiness message
    that announces a batch is followed by nothing else. *)
Definition may_follow (prev e : event) : bool :=
  match e with
  | SendWork r _ =>
      match prev with
      | RecvReady r' status => (r' =? r)%nat && negb (status =? solution_ready)
      | RecvBatch r' _ => (r' =? r)%nat
      | _ => false
      end
  | RecvBatch r _ =>
      match prev with
      | RecvReady r' status => (r' =? r)%nat && (status =? solution_ready)
      | _ => false
      end
  | _ =>
      match prev with
      | RecvReady _ status => negb (status =? solution_ready)
      | _ => true
      end
  end.

Fixpoint chained (log : list event) : bool :=
  match log with
  | [] => true
  | prev :: rest =>
      match rest with
      | [] => true
      | e :: _ => may_follow prev e
      end && chained rest
  end.

(** What the proofs remember of a worker whose search may not return:
    the mail of a worker that holds a work unit is its answer, or
    nothing at all. *)
Definition slot_mail (n k : Z) (x : mail) (s : slot) : Prop :=
  x = mail_of n k s \/ (x = Lost /\ exists q, s = Pending q).

Definition followed (n k : Z) (workers : nat) (m : master)
    (slots : list slot) (recv : list (list Z)) : Prop :=
  Forall2 (slot_mail n k) (m_mailbox m) slots
  /\ m_solutions m = concat (flat_map (worker_boards n k) recv)
  /\ length (m_pos m) = workers
  /\ Forall (fun b => drop (Z.to_nat k) b = replicate (Z.to_nat (n - k)) 0) (m_pos m)
  /\ counted workers m.

(** ** [worker_main], lines 214 to 264

    A worker polls: each turn of its loop tests [keep_working], which
    the receive posted in line 229 overwrites at some time, and asks
    [MPI_Test] whether a work unit has arrived.  What the [t]-th test of
    the loop condition reads is [keep t], and what the [t]-th call of
    [MPI_Test] finds is [arrive t]: the board received, if any. *)

Definition terminate : Z := 0.
Definition working : Z := 1.

(** The MPI calls of a worker. *)
Inductive wcall : Type :=
| WBcast (v : Z)                  (* lines 118 and 119, on the worker's side *)
| WSendReady (status : Z)         (* lines 224, 250 and 256 *)
| WSendBatch (batch : list Z)     (* line 251 *)
| WIrecvTerm                      (* line 229 *)
| WIrecvWork                      (* lines 234 and 260 *)
| WTest (recieved : bool)         (* line 238 *)
| WRequestFree.                   (* line 263 *)

Record worker : Type := Worker {
  w_pos : list Z;
  w_solutions : list Z;           (* SolutionStore::solutions() of the worker *)
  w_log : list wcall
}.

Inductive wending : Type :=
| WDone     (* the loop was left and [worker_main] returned *)
| WStuck    (* a search that did not return, or a board too long for [pos] *)
| WBusy.    (* still polling when the turns allowed were used up *)

Section WorkerMain.

Variables n k : Z.
Variable amb : Z -> Z.
Variable wfuel : nat.
Variable keep : nat -> Z.
Variable arrive : nat -> option (list Z).

(** Lines 242 to 260, after a board has been received into the first
    cells of [pos]. *)
Definition worker_serve (w : worker) (board : list Z) : option worker :=
  if (length board <=? length (w_pos w))%nat then
    let pos := board ++ drop (length board) (w_pos w) in
    match nqueens_by_level worker_solution_func amb k n wfuel pos (w_solutions w) with
    | Returned allsolutions =>
        let sends :=
          match allsolutions with
          | [] => [WSendReady no_solution_ready]
          | _ :: _ => [WSendReady solution_ready; WSendBatch allsolutions]
          end in
        Some (Worker pos [] (w_log w ++ WTest true :: sends ++ [WIrecvWork]))
    | _ => None
    end
  else None.

(** Lines 235 to 263. *)
Fixpoint worker_loop (turns t : nat) (w : worker) : wending * worker :=
  match turns with
  | O => (WBusy, w)
  | S turns' =>
      if keep t =? working then
        match arrive t with
        | None =>
            worker_loop turns' (S t)
              (Worker (w_pos w) (w_solutions w) (w_log w ++ [WTest false]))
        | Some board =>
            match worker_serve w board with
            | Some w' => worker_loop turns' (S t) w'
            | None =>
                (WStuck, Worker (w_pos w) (w_solutions w) (w_log w ++ [WTest true]))
            end
        end
      else
        (WDone, Worker (w_pos w) (w_solutions w) (w_log w ++ [WRequestFree]))
  end.

(** Lines 215 to 234. *)
Definition worker_boot : worker :=
  Worker (replicate (Z.to_nat n) 0) []
         [WBcast n; WBcast k; WSendReady initial_ready; WIrecvTerm; WIrecvWork].

Definition worker_main (turns : nat) : wending * worker :=
  worker_loop turns 0 worker_boot.

(** The answers that [worker_cycle] gives to the boards that arrive,
    turn by turn. *)
Fixpoint served (turns t : nat) (pos : list Z) : list mail :=
  match turns with
  | O => []
  | S turns' =>
      if keep t =? working then
        match arrive t with
        | None => served turns' (S t) pos
        | Some board =>
            if (length board <=? length pos)%nat then
              let pos' := board ++ drop (length board) pos in
              match worker_cycle n k (fun _ => amb) wfuel 0 pos' with
              | Ready status batch => Ready status batch :: served turns' (S t) pos'
              | _ => []
              end
            else []
        end
      else []
  end.

End WorkerMain.

(** The messages a worker has sent, as the master receives them: a
    readiness message, together with the batch that follows it. *)
Definition report_of (c : wcall) : list mail :=
  match c with
  | WSendReady status =>
      if status =? solution_ready then [] else [Ready status []]
  | WSendBatch batch => [Ready solution_ready batch]
  | _ => []
  end.

Definition reports (log : list wcall) : list mail := flat_map report_of log.

(** The call [c] may come right after the call [prev] in a worker. *)
Definition wmay_follow (prev c : wcall) : bool :=
  match c with
  | WSendBatch batch =>
      match prev, batch with
      | WSendReady status, _ :: _ => status =? solution_ready
      | _, _ => false
      end
  | WSendReady status =>
      match prev with
      | WTest true => (status =? solution_ready) || (status =? no_solution_ready)
      | WBcast _ => status =? initial_ready
      | _ => false
      end
  | WIrecvWork =>
      match prev with
      | WSendBatch _ | WIrecvTerm => true
      | WSendReady status => status =? no_solution_ready
      | _ => false
      end
  | WTest _ | WRequestFree =>
      match prev with
      | WIrecvWork | WTest false => true
      | _ => false
      end
  | WIrecvTerm =>
      match prev with
      | WSendReady status => status =? initial_ready
      | _ => false
      end
  | WBcast _ =>
      match prev with
      | WBcast _ => true
      | _ => false
      end
  end.

Fixpoint wchained (log : list wcall) : bool :=
  match log with
  | [] => true
  | prev :: rest =>
      match rest with
      | [] => true
      | c :: _ => wmay_follow prev c
      end && wchained rest
  end.

(** The receives of work posted, and those that have completed. *)
Definition posted (log : list wcall) : nat :=
  length (List.filter (fun c => match c with WIrecvWork => true | _ => false end) log).

Definition completed (log : list wcall) : nat :=
  length (List.filter (fun c => match c with WTest true => true | _ => false end) log).

(** * Properties *)

Section Int32Facts.

Lemma to_uint_small z : 0 <= z < modulus -> to_uint z = z.
Proof. intros H. unfold to_uint. apply Z.mod_small. exact H. Qed.

Lemma to_int_small z : - half <= z < half -> to_int z = z.
Proof.
  intros H. unfold to_int.
  rewrite Z.mod_small; unfold modulus, half in *; lia.
Qed.


End Int32Facts.

(** ** Memory blocks *)

Section BlockFacts.

Implicit Types (l : list Z) (a v : Z).

Lemma in_block_true l a :
  0 <= a < Z.of_nat (length l) -> in_block l a = true.
Proof. intros H. unfold in_block. apply andb_true_intro. split; lia. Qed.

Lemma in_block_false l a :
  a < 0 \/ Z.of_nat (length l) <= a -> in_block l a = false.
Proof. intros H. unfold in_block. apply andb_false_iff. lia. Qed.

Lemma load_inside amb l a :
  0 <= a < Z.of_nat (length l) -> load amb l a = peek l a.
Proof. intros H. unfold load. now rewrite in_block_true. Qed.

Lemma load_outside amb l a :
  a < 0 \/ Z.of_nat (length l) <= a -> load amb l a = amb a.
Proof. intros H. unfold load. now rewrite in_block_false. Qed.

Lemma load_strict_inside l a :
  0 <= a < Z.of_nat (length l) -> load_strict l a = Some (peek l a).
Proof.
  intros H. unfold load_strict, peek. rewrite in_block_true by exact H.
  destruct (lookup_lt_is_Some_2 l (Z.to_nat a)) as [x Hx]; [lia|].
  now rewrite Hx.
Qed.

Lemma store_inside l a v :
  0 <= a < Z.of_nat (length l) -> store l a v = Some (<[Z.to_nat a := v]> l).
Proof. intros H. unfold store. now rewrite in_block_true. Qed.

Lemma store_outside l a v :
  a < 0 \/ Z.of_nat (length l) <= a -> store l a v = None.
Proof. intros H. unfold store. now rewrite in_block_false. Qed.

Lemma peek_insert_eq l a v :
  0 <= a < Z.of_nat (length l) -> peek (<[Z.to_nat a := v]> l) a = v.
Proof.
  intros H. unfold peek. rewrite list_lookup_insert_eq; [reflexivity | lia].
Qed.

Lemma peek_insert_ne l a b v :
  0 <= a -> 0 <= b -> a <> b -> peek (<[Z.to_nat a := v]> l) b = peek l b.
Proof.
  intros Ha Hb Hab. unfold peek. rewrite list_lookup_insert_ne; [reflexivity | lia].
Qed.

Lemma peek_take l a b :
  0 <= a < b -> peek (take (Z.to_nat b) l) a = peek l a.
Proof.
  intros H. unfold peek. rewrite lookup_take_lt; [reflexivity | lia].
Qed.

Lemma peek_agree l l' a b :
  take (Z.to_nat b) l' = take (Z.to_nat b) l -> 0 <= a < b -> peek l' a = peek l a.
Proof.
  intros Ht H. rewrite <- (peek_take l' a b), <- (peek_take l a b) by exact H.
  now rewrite Ht.
Qed.

Lemma take_insert_above l a b v :
  0 <= b <= a -> take (Z.to_nat b) (<[Z.to_nat a := v]> l) = take (Z.to_nat b) l.
Proof. intros H. apply take_insert_ge. lia. Qed.

End BlockFacts.

(** ** Runs *)

Section RunFacts.

Context {W : Type}.
Variable success_func : list Z -> W -> option W.
Variable amb : Z -> Z.
Variables start_level max_level : Z.

Local Abbreviation step := (step success_func amb start_level max_level).
Local Abbreviation run := (run success_func amb start_level max_level).
Local Abbreviation star := (star success_func amb start_level max_level).

Lemma star_one s s' : step s = Running s' -> star s s'.
Proof. intros H. eapply star_step; [exact H | apply star_refl]. Qed.

Lemma star_trans s1 s2 s3 : star s1 s2 -> star s2 s3 -> star s1 s3.
Proof.
  induction 1 as [|s s' s'' Hs _ IH]; intros H3; [exact H3|].
  eapply star_step; [exact Hs | exact (IH H3)].
Qed.

Lemma star_run s s' :
  star s s' -> exists a, forall fuel, run (a + fuel) s = run fuel s'.
Proof.
  induction 1 as [s|s s' s'' Hs _ [a IH]].
  - exists 0%nat. reflexivity.
  - exists (S a). intros fuel. simpl. rewrite Hs. apply IH.
Qed.

Lemma run_final_stable a s o :
  run a s = o -> final o -> forall fuel, (a <= fuel)%nat -> run fuel s = o.
Proof.
  revert s. induction a as [|a IH]; intros s Hr Hf fuel Hle.
  - simpl in Hr. subst o. destruct Hf.
  - destruct fuel as [|fuel]; [lia|].
    simpl in *. destruct (step s) as [s'| | |]; try exact Hr.
    apply IH; [exact Hr | exact Hf | lia].
Qed.

Lemma star_final s s' o :
  star s s' -> step s' = o -> final o ->
  exists fuel0, forall fuel, (fuel0 <= fuel)%nat -> run fuel s = o.
Proof.
  intros Hs Ho Hf. destruct (star_run _ _ Hs) as [a Ha].
  exists (a + 1)%nat. apply run_final_stable; [|exact Hf].
  rewrite Ha. simpl. rewrite Ho. destruct o; reflexivity.
Qed.

(** The world changes through the callback only, and the callback is
    given at most [max_level] cells. *)
Lemma step_world_invariant_len (P : W -> Prop) :
  (forall sol w w',
      (length sol <= Z.to_nat max_level)%nat ->
      P w -> success_func sol w = Some w' -> P w') ->
  forall s, P (st_world s) -> P (world_of (step s)).
Proof.
  intros HP [p vo ix sz k i j fl ss l w] Hw. simpl in Hw.
  unfold step.
  repeat (match goal with
          | |- context [match ?x with _ => _ end] => destruct x eqn:?
          end; simpl; eauto).
  eapply HP; [|exact Hw|eassumption]. rewrite length_take. lia.
Qed.

Lemma run_world_invariant_len (P : W -> Prop) :
  (forall sol w w',
      (length sol <= Z.to_nat max_level)%nat ->
      P w -> success_func sol w = Some w' -> P w') ->
  forall fuel s, P (st_world s) -> P (world_of (run fuel s)).
Proof.
  intros HP fuel. induction fuel as [|fuel IH]; intros s Hw; [exact Hw|].
  simpl. pose proof (step_world_invariant_len P HP s Hw) as Hs.
  destruct (step s) as [s'| | |]; simpl in *; auto.
Qed.

Lemma run_world_invariant (P : W -> Prop) :
  (forall sol w w', P w -> success_func sol w = Some w' -> P w') ->
  forall fuel s, P (st_world s) -> P (world_of (run fuel s)).
Proof.
  intros HP. apply run_world_invariant_len. intros sol w w' _. apply HP.
Qed.

End RunFacts.

(** ** The attack test *)

Section AttackFacts.

Lemma attack_hits i j k c : i <= k - 1 -> attack i j k c = hits i j k c.
Proof.
  intros H. unfold attack, hits.
  replace (i =? k) with false by (symmetry; apply Z.eqb_neq; lia).
  replace (i <=? k - 1) with true by (symmetry; apply Z.leb_le; lia).
  simpl. apply andb_true_r.
Qed.

Lemma attack_beyond i j k c : k - 1 < i -> attack i j k c = false.
Proof.
  intros H. unfold attack.
  replace (i <=? k - 1) with false by (symmetry; apply Z.leb_gt; lia).
  apply andb_false_r.
Qed.

Lemma attack_drop_eq i j k c : attack i j k c = attack_without_eq i j k c.
Proof.
  unfold attack, attack_without_eq.
  destruct (Z.leb_spec i (k - 1)) as [Hle|Hgt].
  - replace (i =? k) with false by (symmetry; apply Z.eqb_neq; lia). reflexivity.
  - now rewrite !andb_false_r.
Qed.

End AttackFacts.

(** ** One step of the search, case by case *)

Section StepFacts.

Context {W : Type}.
Variable success_func : list Z -> W -> option W.
Variable amb : Z -> Z.
Variables start_level max_level : Z.

Hypothesis Hmax : 1 <= max_level < half.

Local Abbreviation step := (step success_func amb start_level max_level).

Implicit Types (p vo ix : list Z) (w : W).

Lemma last_row_test k :
  0 <= k < half -> (to_uint k =? to_uint (max_level - 1)) = (k =? max_level - 1).
Proof.
  intros Hk. unfold half in *.
  rewrite !to_uint_small by (unfold modulus; lia). reflexivity.
Qed.

Lemma step_reject p vo ix sz k i j ss w :
  attack i j k (load amb ix k) = true ->
  step (Frame p vo ix sz k i j 0 ss AtLoop w)
  = Running (Frame p vo ix sz k i j 0 ss AtScan w).
Proof. intros H. unfold step. simpl. now rewrite H. Qed.

Lemma step_next p vo ix sz k i j ss w :
  attack i j k (load amb ix k) = false ->
  i < k - 1 -> 0 <= i + 1 < Z.of_nat (length p) ->
  step (Frame p vo ix sz k i j 0 ss AtLoop w)
  = Running (Frame p vo ix sz k (i + 1) (to_int (peek p (i + 1))) 0 ss AtLoop w).
Proof.
  intros H Hi Hp. unfold step. simpl. rewrite H.
  replace (i >=? k - 1) with false by (symmetry; rewrite Z.geb_leb; apply Z.leb_gt; lia).
  now rewrite load_strict_inside.
Qed.

Lemma step_place_last p vo ix sz k i j ss w c w' :
  load amb ix k = c -> attack i j k c = false ->
  k - 1 <= i -> k = max_level - 1 -> 0 <= k < Z.of_nat (length p) ->
  0 <= c < half ->
  success_func (take (Z.to_nat max_level) (<[Z.to_nat k := c]> p)) w = Some w' ->
  step (Frame p vo ix sz k i j 0 ss AtLoop w)
  = Running (Frame (<[Z.to_nat k := c]> p)
                   (take (Z.to_nat max_level) (<[Z.to_nat k := c]> p))
                   ix sz k i j 0 ss AtScan w').
Proof.
  intros Hc H Hi Hk Hp Hcr Hf. unfold step. simpl. rewrite Hc, H.
  replace (i >=? k - 1) with true by (symmetry; rewrite Z.geb_leb; apply Z.leb_le; lia).
  rewrite (to_uint_small c) by (unfold modulus, half in *; lia).
  rewrite store_inside by exact Hp.
  rewrite last_row_test by lia.
  replace (k =? max_level - 1) with true by (symmetry; apply Z.eqb_eq; lia).
  now rewrite Hf.
Qed.

Lemma step_place_descend p vo ix sz k i j ss w c :
  load amb ix k = c -> attack i j k c = false ->
  k - 1 <= i -> 0 <= k < max_level - 1 -> k < Z.of_nat (length p) ->
  k + 1 < Z.of_nat (length ix) -> 0 <= c < half ->
  step (Frame p vo ix sz k i j 0 ss AtLoop w)
  = Running (Frame (<[Z.to_nat k := c]> p) vo (<[Z.to_nat (k + 1) := 0]> ix)
                   sz (k + 1) 0 (to_int (peek (<[Z.to_nat k := c]> p) 0)) 0 ss
                   AtLoop w).
Proof.
  intros Hc H Hi Hk Hp Hix Hcr. unfold step. simpl. rewrite Hc, H.
  replace (i >=? k - 1) with true by (symmetry; rewrite Z.geb_leb; apply Z.leb_le; lia).
  rewrite (to_uint_small c) by (unfold modulus, half in *; lia).
  rewrite store_inside by lia.
  rewrite last_row_test by lia.
  replace (k =? max_level - 1) with false by (symmetry; apply Z.eqb_neq; lia).
  rewrite store_inside by lia.
  rewrite load_strict_inside by (rewrite length_insert; lia).
  reflexivity.
Qed.

Lemma step_scan_up p vo ix sz k i j fl ss w :
  sz - 1 <= load amb ix k ->
  step (Frame p vo ix sz k i j fl ss AtScan w)
  = Running (Frame p vo ix sz (k - 1) i j
                   (if k - 1 <=? ss then 1 else fl) ss AtScan w).
Proof.
  intros H. unfold step. simpl.
  replace (load amb ix k >=? sz - 1) with true
    by (symmetry; rewrite Z.geb_leb; apply Z.leb_le; lia).
  reflexivity.
Qed.

Lemma step_scan_next p vo ix sz k i j ss w c :
  load amb ix k = c -> c < sz - 1 ->
  0 <= k < Z.of_nat (length ix) -> 0 < Z.of_nat (length p) ->
  step (Frame p vo ix sz k i j 0 ss AtScan w)
  = Running (Frame p vo (<[Z.to_nat k := c + 1]> ix) sz k 0
                   (to_int (peek p 0)) 0 ss AtLoop w).
Proof.
  intros Hc H Hk Hp. unfold step. simpl. rewrite Hc.
  replace (c >=? sz - 1) with false by (symmetry; rewrite Z.geb_leb; apply Z.leb_gt; lia).
  unfold after_scan. simpl.
  rewrite store_inside by lia. rewrite load_strict_inside by lia. reflexivity.
Qed.

Lemma step_scan_leave p vo ix sz k i j ss w :
  load amb ix k < sz - 1 -> 0 < Z.of_nat (length p) ->
  step (Frame p vo ix sz k i j 1 ss AtScan w)
  = Running (Frame p vo ix sz k 0 (to_int (peek p 0)) 1 ss AtLoop w).
Proof.
  intros H Hp. unfold step. simpl.
  replace (load amb ix k >=? sz - 1) with false
    by (symmetry; rewrite Z.geb_leb; apply Z.leb_gt; lia).
  unfold after_scan. simpl. rewrite load_strict_inside by lia. reflexivity.
Qed.

Lemma step_return p vo ix sz k i j ss w :
  step (Frame p vo ix sz k i j 1 ss AtLoop w) = Returned w.
Proof. reflexivity. Qed.

End StepFacts.

(** ** The expected boards depend on the rows below [k] only *)

Section ExtFacts.

Implicit Types (p : list Z) (k c n : Z).

Lemma take_shorter (l l' : list Z) a b :
  take (Z.to_nat a) l' = take (Z.to_nat a) l -> 0 <= b <= a ->
  take (Z.to_nat b) l' = take (Z.to_nat b) l.
Proof.
  intros H Hb.
  replace (Z.to_nat b) with (Z.to_nat b `min` Z.to_nat a)%nat by lia.
  rewrite <- !take_take. now rewrite H.
Qed.

Lemma take_insert_next (l l' : list Z) a v :
  take (Z.to_nat a) l' = take (Z.to_nat a) l -> 0 <= a ->
  length l' = length l ->
  take (Z.to_nat (a + 1)) (<[Z.to_nat a := v]> l')
  = take (Z.to_nat (a + 1)) (<[Z.to_nat a := v]> l).
Proof.
  intros H Ha Hlen.
  replace (Z.to_nat (a + 1)) with (S (Z.to_nat a)) by lia.
  apply list_eq. intros x.
  destruct (decide (x < S (Z.to_nat a))%nat) as [Hx|Hx].
  - rewrite !lookup_take_lt by exact Hx.
    destruct (decide (x = Z.to_nat a)) as [->|Hne].
    + destruct (decide (Z.to_nat a < length l)%nat) as [Hl|Hl].
      * rewrite !list_lookup_insert_eq by lia. reflexivity.
      * rewrite !lookup_ge_None_2 by (rewrite length_insert; lia). reflexivity.
    + rewrite !list_lookup_insert_ne by lia.
      rewrite <- (lookup_take_lt l' (Z.to_nat a) x) by lia.
      rewrite <- (lookup_take_lt l (Z.to_nat a) x) by lia.
      now rewrite H.
  - rewrite !lookup_take_ge by lia. reflexivity.
Qed.

Lemma forallb_agree {A} (f g : A -> bool) (l : list A) :
  (forall x, In x l -> f x = g x) -> forallb f l = forallb g l.
Proof.
  induction l as [|x l IH]; intros H; simpl; [reflexivity|].
  rewrite (H x) by (left; reflexivity).
  rewrite IH; [reflexivity|]. intros y Hy. apply H. right. exact Hy.
Qed.

Lemma safe_agree p p' k c :
  take (Z.to_nat k) p' = take (Z.to_nat k) p -> safe p' k c = safe p k c.
Proof.
  intros H. unfold safe.
  apply forallb_agree. intros i Hi.
  apply list_elem_of_In, elem_of_seqZ in Hi.
  rewrite (peek_agree p p' i k) by (exact H || lia). reflexivity.
Qed.

Lemma ext_agree n m d : forall p p' k,
  Z.of_nat d = m - k -> 0 <= k ->
  length p' = length p ->
  take (Z.to_nat k) p' = take (Z.to_nat k) p ->
  ext n m d p' k = ext n m d p k.
Proof.
  induction d as [|d IH]; intros p p' k Hd Hk Hlen Ht.
  - simpl. replace m with k by lia. now rewrite Ht.
  - simpl. apply flat_map_ext. intros c.
    rewrite (safe_agree p p' k c Ht).
    destruct (safe p k c); [|reflexivity].
    apply IH; try lia.
    + now rewrite !length_insert.
    + now apply take_insert_next.
Qed.

Lemma through_agree n m d p p' k c :
  Z.of_nat d = m - 1 - k -> 0 <= k ->
  length p' = length p ->
  take (Z.to_nat k) p' = take (Z.to_nat k) p ->
  through n m d p' k c = through n m d p k c.
Proof.
  intros Hd Hk Hlen Ht. unfold through.
  rewrite (safe_agree p p' k c Ht).
  destruct (safe p k c); [|reflexivity].
  apply ext_agree; try lia.
  - now rewrite !length_insert.
  - now apply take_insert_next.
Qed.

Lemma fold_cb_app {W} (f : list Z -> W -> option W) a b w w' :
  fold_cb f (a ++ b) w = Some w' ->
  exists w1, fold_cb f a w = Some w1 /\ fold_cb f b w1 = Some w'.
Proof.
  revert w. induction a as [|x a IH]; intros w H; simpl in *.
  - exists w. split; [reflexivity | exact H].
  - destruct (f x w) as [w0|]; [|discriminate]. apply IH, H.
Qed.

End ExtFacts.

(** ** The search visits the expected boards in order *)

Section Search.

Context {W : Type}.
Variable success_func : list Z -> W -> option W.
Variable amb : Z -> Z.
Variables start_level max_level n : Z.

Hypothesis Hn : 1 <= n < half.
Hypothesis Hlevels : 0 <= start_level < max_level /\ max_level <= n.

Local Abbreviation step := (step success_func amb start_level max_level).
Local Abbreviation star := (star success_func amb start_level max_level).
Local Abbreviation stop := (start_level - 1).

Implicit Types (p vo ix : list Z) (w : W).

(** Rows [i0] to [k-1] are compared with the candidate one per step. *)
Lemma check_rows p vo ix k w c :
  Z.of_nat (length p) = n -> 1 <= k <= n -> load amb ix k = c ->
  forall (d : nat) i0, Z.of_nat d = k - 1 - i0 -> 0 <= i0 ->
  exists i j,
    if forallb (fun i => negb (hits i (to_int (peek p i)) k c)) (seqZ i0 (k - i0))
    then star (Frame p vo ix n k i0 (to_int (peek p i0)) 0 stop AtLoop w)
              (Frame p vo ix n k i j 0 stop AtLoop w)
         /\ attack i j k c = false /\ k - 1 <= i
    else star (Frame p vo ix n k i0 (to_int (peek p i0)) 0 stop AtLoop w)
              (Frame p vo ix n k i j 0 stop AtScan w).
Proof.
  intros Hp Hk Hc d. induction d as [|d IH]; intros i0 Hd Hi0.
  - replace (k - i0) with 1 by lia.
    rewrite seqZ_cons by lia. rewrite seqZ_nil by lia. simpl.
    exists i0, (to_int (peek p i0)).
    destruct (hits i0 (to_int (peek p i0)) k c) eqn:Hh; simpl.
    + apply star_one, step_reject. rewrite Hc, attack_hits by lia. exact Hh.
    + split; [apply star_refl|]. split; [|lia].
      rewrite attack_hits by lia. exact Hh.
  - rewrite seqZ_cons by lia. simpl.
    destruct (hits i0 (to_int (peek p i0)) k c) eqn:Hh; simpl.
    + exists i0, (to_int (peek p i0)).
      apply star_one, step_reject. rewrite Hc, attack_hits by lia. exact Hh.
    + destruct (IH (i0 + 1)) as (i & j & H); [lia | lia |].
      exists i, j.
      replace (Z.succ i0) with (i0 + 1) by lia.
      replace (Z.pred (k - i0)) with (k - (i0 + 1)) by lia.
      assert (Hs : step (Frame p vo ix n k i0 (to_int (peek p i0)) 0 stop AtLoop w)
                   = Running (Frame p vo ix n k (i0 + 1)
                                    (to_int (peek p (i0 + 1))) 0 stop AtLoop w)).
      { apply step_next; [|lia|lia]. rewrite Hc, attack_hits by lia. exact Hh. }
      destruct (forallb _ _).
      * destruct H as (H1 & H2 & H3). split; [|split; assumption].
        eapply star_step; [exact Hs | exact H1].
      * eapply star_step; [exact Hs | exact H].
Qed.

(** The whole comparison for the candidate [c] of row [k]. *)
Lemma check_all p vo ix k w c :
  Z.of_nat (length p) = n -> 0 <= k <= n -> load amb ix k = c ->
  exists i j,
    if safe p k c
    then star (Frame p vo ix n k 0 (to_int (peek p 0)) 0 stop AtLoop w)
              (Frame p vo ix n k i j 0 stop AtLoop w)
         /\ attack i j k c = false /\ k - 1 <= i
    else star (Frame p vo ix n k 0 (to_int (peek p 0)) 0 stop AtLoop w)
              (Frame p vo ix n k i j 0 stop AtScan w).
Proof.
  intros Hp Hk Hc. unfold safe.
  destruct (Z.eq_dec k 0) as [->|Hk0].
  - exists 0, (to_int (peek p 0)). rewrite seqZ_nil by lia. simpl.
    split; [apply star_refl|]. split; [|lia]. apply attack_beyond. lia.
  - destruct (check_rows p vo ix k w c Hp ltac:(lia) Hc (Z.to_nat (k - 1)) 0)
      as (i & j & H); [lia | lia |].
    exists i, j. replace (k - 0) with k in H by lia. exact H.
Qed.

(** All the columns from [c] on of row [k], given that one column of
    that row is searched as expected. *)
Lemma row (d : nat) :
  (forall p vo ix k c w w',
      Z.of_nat d = max_level - 1 - k -> start_level <= k ->
      Z.of_nat (length p) = n -> Z.of_nat (length ix) = max_level ->
      peek ix k = c -> 0 <= c <= n - 1 ->
      fold_cb success_func (through n max_level d p k c) w = Some w' ->
      exists p' vo' ix' i j,
        star (Frame p vo ix n k 0 (to_int (peek p 0)) 0 stop AtLoop w)
             (Frame p' vo' ix' n k i j 0 stop AtScan w')
        /\ Z.of_nat (length p') = n /\ Z.of_nat (length ix') = max_level
        /\ take (Z.to_nat k) p' = take (Z.to_nat k) p
        /\ take (Z.to_nat (k + 1)) ix' = take (Z.to_nat (k + 1)) ix) ->
  forall (r : nat) p vo ix k c w w',
    Z.of_nat r = n - 1 - c ->
    Z.of_nat d = max_level - 1 - k -> start_level <= k ->
    Z.of_nat (length p) = n -> Z.of_nat (length ix) = max_level ->
    peek ix k = c -> 0 <= c ->
    fold_cb success_func
      (flat_map (through n max_level d p k) (seqZ c (n - c))) w = Some w' ->
    exists p' vo' ix' i j,
      star (Frame p vo ix n k 0 (to_int (peek p 0)) 0 stop AtLoop w)
           (Frame p' vo' ix' n k i j 0 stop AtScan w')
      /\ Z.of_nat (length p') = n /\ Z.of_nat (length ix') = max_level
      /\ take (Z.to_nat k) p' = take (Z.to_nat k) p
      /\ take (Z.to_nat k) ix' = take (Z.to_nat k) ix
      /\ peek ix' k = n - 1.
Proof.
  intros IH r.
  induction r as [|r IHr]; intros p vo ix k c w w' Hr Hd Hk Hp Hix Hc Hc0 Hf.
  - replace (n - c) with 1 in Hf by lia.
    rewrite seqZ_cons, seqZ_nil in Hf by lia. simpl in Hf.
    rewrite app_nil_r in Hf.
    destruct (IH p vo ix k c w w') as (p' & vo' & ix' & i & j & G);
      try assumption; try lia.
    destruct G as (G1 & G2 & G3 & G4 & G5).
    exists p', vo', ix', i, j.
    split; [exact G1|]. split; [exact G2|]. split; [exact G3|].
    split; [exact G4|]. split; [apply (take_shorter _ _ _ _ G5); lia|].
    rewrite (peek_agree ix ix' k (k + 1) G5) by lia. lia.
  - rewrite seqZ_cons in Hf by lia. simpl in Hf.
    apply fold_cb_app in Hf. destruct Hf as (w1 & Hf1 & Hf2).
    destruct (IH p vo ix k c w w1) as (p1 & vo1 & ix1 & i1 & j1 & G);
      try assumption; try lia.
    destruct G as (G1 & G2 & G3 & G4 & G5).
    assert (Hc1 : peek ix1 k = c).
    { rewrite (peek_agree ix ix1 k (k + 1) G5) by lia. exact Hc. }
    replace (Z.succ c) with (c + 1) in Hf2 by lia.
    replace (Z.pred (n - c)) with (n - (c + 1)) in Hf2 by lia.
    rewrite (flat_map_ext _ (through n max_level d p1 k)) in Hf2.
    2:{ intros a. symmetry. apply through_agree; try lia. exact G4. }
    destruct (IHr p1 vo1 (<[Z.to_nat k := c + 1]> ix1) k (c + 1) w1 w')
      as (p' & vo' & ix' & i' & j' & K); try assumption; try lia.
    { now rewrite length_insert. }
    { apply peek_insert_eq. lia. }
    destruct K as (K1 & K2 & K3 & K4 & K5 & K6).
    exists p', vo', ix', i', j'.
    split.
    { eapply star_trans; [exact G1|].
      eapply star_step; [|exact K1].
      apply (step_scan_next success_func amb start_level max_level); try lia.
      rewrite load_inside by lia. exact Hc1. }
    split; [exact K2|]. split; [exact K3|].
    split; [now rewrite K4|].
    split; [|exact K6].
    rewrite K5. rewrite take_insert_above by lia.
    apply (take_shorter _ _ _ _ G5). lia.
Qed.

(** One column of row [k], with [d] rows left below it. *)
Lemma candidate (d : nat) : forall p vo ix k c w w',
  Z.of_nat d = max_level - 1 - k -> start_level <= k ->
  Z.of_nat (length p) = n -> Z.of_nat (length ix) = max_level ->
  peek ix k = c -> 0 <= c <= n - 1 ->
  fold_cb success_func (through n max_level d p k c) w = Some w' ->
  exists p' vo' ix' i j,
    star (Frame p vo ix n k 0 (to_int (peek p 0)) 0 stop AtLoop w)
         (Frame p' vo' ix' n k i j 0 stop AtScan w')
    /\ Z.of_nat (length p') = n /\ Z.of_nat (length ix') = max_level
    /\ take (Z.to_nat k) p' = take (Z.to_nat k) p
    /\ take (Z.to_nat (k + 1)) ix' = take (Z.to_nat (k + 1)) ix.
Proof.
  induction d as [|d IH]; intros p vo ix k c w w' Hd Hk Hp Hix Hc Hcr Hf.
  - (* the last row *)
    assert (Hl : load amb ix k = c) by (rewrite load_inside by lia; exact Hc).
    destruct (check_all p vo ix k w c Hp ltac:(lia) Hl) as (i & j & H).
    unfold through in Hf. destruct (safe p k c).
    + destruct H as (H1 & H2 & H3). simpl in Hf.
      destruct (success_func _ w) as [w1|] eqn:Hcb; [|discriminate].
      inversion Hf; subst w1.
      eexists _, _, ix, i, j. split; [|split; [|split; [|split]]].
      * eapply star_trans; [exact H1|]. apply star_one.
        apply (step_place_last success_func amb start_level max_level
                 ltac:(lia) p vo ix n k i j stop w c w'); try assumption; try lia.
      * rewrite length_insert. exact Hp.
      * exact Hix.
      * apply take_insert_above. lia.
      * reflexivity.
    + simpl in Hf. inversion Hf; subst w'.
      exists p, vo, ix, i, j. repeat split; assumption.
  - (* a row with rows left below it *)
    assert (Hl : load amb ix k = c) by (rewrite load_inside by lia; exact Hc).
    destruct (check_all p vo ix k w c Hp ltac:(lia) Hl) as (i & j & H).
    unfold through in Hf. destruct (safe p k c).
    + destruct H as (H1 & H2 & H3).
      pose (p1 := <[Z.to_nat k := c]> p).
      pose (ix1 := <[Z.to_nat (k + 1) := 0]> ix).
      assert (Hp1 : Z.of_nat (length p1) = n) by (unfold p1; now rewrite length_insert).
      assert (Hix1 : Z.of_nat (length ix1) = max_level)
        by (unfold ix1; now rewrite length_insert).
      simpl in Hf.
      destruct (row d IH (Z.to_nat (n - 1)) p1 vo ix1 (k + 1) 0 w w')
        as (q' & vq' & iq' & i' & j' & K); try assumption; try lia.
      { unfold ix1. apply peek_insert_eq. lia. }
      { replace (n - 0) with n by lia. exact Hf. }
      destruct K as (K1 & K2 & K3 & K4 & K5 & K6).
      exists q', vq', iq', i', j'.
      split.
      { eapply star_trans; [exact H1|].
        eapply star_step.
        - apply (step_place_descend success_func amb start_level max_level
                   ltac:(lia) p vo ix n k i j stop w c); try assumption; try lia.
        - fold p1 ix1. eapply star_trans; [exact K1|].
          apply star_one.
          rewrite (step_scan_up success_func amb start_level max_level)
            by (rewrite load_inside by lia; lia).
          replace (k + 1 - 1) with k by lia.
          replace (k <=? stop) with false by (symmetry; apply Z.leb_gt; lia).
          reflexivity. }
      split; [exact K2|]. split; [exact K3|].
      split.
      { rewrite (take_shorter _ _ _ _ K4) by lia.
        unfold p1. apply take_insert_above. lia. }
      rewrite K5. unfold ix1. apply take_insert_above. lia.
    + simpl in Hf. inversion Hf; subst w'.
      exists p, vo, ix, i, j. repeat split; assumption.
Qed.

(** The [for] loop of line 78 and the assignments up to line 84. *)
Lemma init_writes pos vo sz i j fl ss w :
  forall (d : nat) k ix,
    Z.of_nat d = max_level - k -> start_level <= k ->
    Z.of_nat (length ix) = max_level ->
    (forall a, 0 <= a < start_level -> peek ix a = amb a) ->
    (start_level < k -> peek ix start_level = 0) ->
    exists ix',
      star (Frame pos vo ix sz k i j fl ss AtInit w)
           (Frame pos vo ix' sz max_level i j fl ss AtInit w)
      /\ Z.of_nat (length ix') = max_level
      /\ (forall a, 0 <= a < start_level -> peek ix' a = amb a)
      /\ peek ix' start_level = 0.
Proof.
  induction d as [|d IH]; intros k ix Hd Hk Hix Hlow Hz.
  - replace k with max_level by lia. exists ix.
    split; [apply star_refl|]. split; [exact Hix|]. split; [exact Hlow|].
    apply Hz. lia.
  - destruct (IH (k + 1) (<[Z.to_nat k := 0]> ix)) as (ix' & G1 & G2 & G3 & G4);
      try lia.
    + now rewrite length_insert.
    + intros a Ha. rewrite peek_insert_ne by lia. apply Hlow, Ha.
    + intros Hlt. destruct (Z.eq_dec k start_level) as [->|Hne].
      * apply peek_insert_eq. lia.
      * rewrite peek_insert_ne by lia. apply Hz. lia.
    + exists ix'. split; [|auto].
      eapply star_step; [|exact G1].
      unfold step. simpl.
      rewrite (to_uint_small k), (to_uint_small (max_level - 1))
        by (unfold modulus, half in *; lia).
      replace (k <=? max_level - 1) with true by (symmetry; apply Z.leb_le; lia).
      rewrite store_inside by lia. reflexivity.
Qed.

Lemma stop_sign_value : to_int (to_uint (start_level - 1)) = stop.
Proof.
  destruct (Z.eq_dec start_level 0) as [->|Hne].
  - reflexivity.
  - rewrite to_uint_small by (unfold modulus, half in *; lia).
    apply to_int_small. unfold half in *. lia.
Qed.

Lemma peek_ambient a :
  0 <= a < max_level -> peek (amb <$> seqZ 0 max_level) a = amb a.
Proof.
  intros Ha. unfold peek. rewrite list_lookup_fmap.
  rewrite lookup_seqZ_lt by lia. simpl. f_equal. lia.
Qed.

Lemma init_loop pos w :
  Z.of_nat (length pos) = n ->
  exists vo ix,
    star (enter amb start_level max_level pos w)
         (Frame pos vo ix n start_level 0 (to_int (peek pos 0)) 0 stop AtLoop w)
    /\ Z.of_nat (length ix) = max_level
    /\ (forall a, 0 <= a < start_level -> peek ix a = amb a)
    /\ peek ix start_level = 0.
Proof.
  intros Hp. unfold enter. rewrite Hp.
  rewrite (to_int_small n), (to_int_small start_level) by (unfold half in *; lia).
  destruct (init_writes pos (replicate (Z.to_nat max_level) 0) n 0 0 0 0 w
              (Z.to_nat (max_level - start_level)) start_level
              (amb <$> seqZ 0 max_level))
    as (ix & G1 & G2 & G3 & G4); try lia.
  - rewrite length_fmap, length_seqZ. lia.
  - intros a Ha. apply peek_ambient. lia.
  - exists (replicate (Z.to_nat max_level) 0), ix.
    split; [|auto].
    eapply star_trans; [exact G1|]. apply star_one.
    unfold step. simpl.
    rewrite (to_uint_small max_level), (to_uint_small (max_level - 1))
      by (unfold modulus, half in *; lia).
    replace (max_level <=? max_level - 1) with false
      by (symmetry; apply Z.leb_gt; lia).
    rewrite load_strict_inside by lia.
    rewrite (to_int_small start_level) by (unfold half in *; lia).
    rewrite stop_sign_value. reflexivity.
Qed.

(** Every column of every row from [start_level] on has been tried:
    the search is at the inner [while] with [k] one below the first row
    and [flag] set. *)
Lemma search_exhausts pos w w' :
  Z.of_nat (length pos) = n ->
  fold_cb success_func
    (ext n max_level (Z.to_nat (max_level - start_level)) pos start_level) w
  = Some w' ->
  exists p vo ix i j,
    star (enter amb start_level max_level pos w)
         (Frame p vo ix n stop i j 1 stop AtScan w')
    /\ Z.of_nat (length p) = n /\ Z.of_nat (length ix) = max_level
    /\ (forall a, 0 <= a < start_level -> peek ix a = amb a).
Proof.
  intros Hp Hf.
  destruct (init_loop pos w Hp) as (vo & ix & G1 & G2 & G3 & G4).
  replace (Z.to_nat (max_level - start_level))
    with (S (Z.to_nat (max_level - 1 - start_level))) in Hf by lia.
  simpl in Hf.
  destruct (row (Z.to_nat (max_level - 1 - start_level))
                (candidate (Z.to_nat (max_level - 1 - start_level)))
                (Z.to_nat (n - 1)) pos vo ix start_level 0 w w')
    as (p' & vo' & ix' & i & j & K); try assumption; try lia.
  { replace (n - 0) with n by lia. exact Hf. }
  destruct K as (K1 & K2 & K3 & K4 & K5 & K6).
  exists p', vo', ix', i, j.
  split; [|split; [exact K2|split; [exact K3|]]].
  - eapply star_trans; [exact G1|]. eapply star_trans; [exact K1|].
    apply star_one.
    rewrite (step_scan_up success_func amb start_level max_level)
      by (rewrite load_inside by lia; lia).
    replace (stop <=? stop) with true by (symmetry; apply Z.leb_le; lia).
    reflexivity.
  - intros a Ha. rewrite (peek_agree ix ix' a start_level K5) by lia.
    apply G3, Ha.
Qed.

(** The inner [while] goes on below the first row until it meets a
    cell smaller than [size-1]; then the function returns. *)
Lemma scan_out p vo ix w b :
  0 < Z.of_nat (length p) -> Z.of_nat (length ix) = max_level ->
  (forall a, 0 <= a < start_level -> peek ix a = amb a) ->
  amb b < n - 1 ->
  forall (d : nat) k i j,
    Z.of_nat d = k - b -> k <= stop ->
    exists s,
      star (Frame p vo ix n k i j 1 stop AtScan w) s /\ step s = Returned w.
Proof.
  intros Hp Hix Hlow Hb.
  assert (Hload : forall a, a <= stop -> load amb ix a = amb a).
  { intros a Ha. destruct (Z_lt_dec a 0) as [Hneg|Hpos].
    - apply load_outside. lia.
    - rewrite load_inside by lia. apply Hlow. lia. }
  induction d as [|d IH]; intros k i j Hd Hk.
  - replace k with b by lia.
    eexists. split.
    + apply star_one.
      apply (step_scan_leave success_func amb start_level max_level); [|exact Hp].
      rewrite Hload by lia. exact Hb.
    + reflexivity.
  - destruct (Z_lt_dec (amb k) (n - 1)) as [Hlt|Hge].
    + eexists. split.
      * apply star_one.
        apply (step_scan_leave success_func amb start_level max_level); [|exact Hp].
        rewrite Hload by lia. exact Hlt.
      * reflexivity.
    + destruct (IH (k - 1) i j) as (s & G1 & G2); try lia.
      exists s. split; [|exact G2].
      eapply star_step; [|exact G1].
      rewrite (step_scan_up success_func amb start_level max_level)
        by (rewrite Hload by lia; lia).
      replace (k - 1 <=? stop) with true by (symmetry; apply Z.leb_le; lia).
      reflexivity.
Qed.

(** The search returns, having applied the callback to the expected
    boards in order, when some cell below the first row stops the
    last inner [while]. *)
Lemma search_returns pos w w' :
  Z.of_nat (length pos) = n ->
  (exists b, b < start_level /\ amb b < n - 1) ->
  fold_cb success_func
    (ext n max_level (Z.to_nat (max_level - start_level)) pos start_level) w
  = Some w' ->
  exists fuel0, forall fuel, (fuel0 <= fuel)%nat ->
    nqueens_by_level success_func amb start_level max_level fuel pos w
    = Returned w'.
Proof.
  intros Hp (b & Hb1 & Hb2) Hf.
  destruct (search_exhausts pos w w' Hp Hf) as (p & vo & ix & i & j & G1 & G2 & G3 & G4).
  destruct (scan_out p vo ix w' b ltac:(lia) G3 G4 Hb2
              (Z.to_nat (stop - b)) stop i j) as (s & K1 & K2); try lia.
  unfold nqueens_by_level.
  eapply star_final; [eapply star_trans; [exact G1 | exact K1] | exact K2 | exact I].
Qed.

End Search.

(** ** The expected boards, characterised *)

Section Boards.

Implicit Types (p s : list Z) (k c n m : Z).

Lemma lookup_peek s a :
  0 <= a < Z.of_nat (length s) -> s !! Z.to_nat a = Some (peek s a).
Proof.
  intros H. destruct (lookup_lt_is_Some_2 s (Z.to_nat a)) as [x Hx]; [lia|].
  unfold peek. now rewrite Hx.
Qed.

Lemma take_next s a :
  0 <= a < Z.of_nat (length s) ->
  take (Z.to_nat (a + 1)) s = take (Z.to_nat a) s ++ [peek s a].
Proof.
  intros H. replace (Z.to_nat (a + 1)) with (S (Z.to_nat a)) by lia.
  apply take_S_r, lookup_peek, H.
Qed.

(** Membership in [ext]. *)
Lemma in_ext n m (d : nat) : forall p k s,
  Z.of_nat d = m - k -> 0 <= k -> m <= Z.of_nat (length p) ->
  (In s (ext n m d p k) <->
   Z.of_nat (length s) = m
   /\ take (Z.to_nat k) s = take (Z.to_nat k) p
   /\ (forall r, k <= r < m -> 0 <= peek s r < n /\ safe s r (peek s r) = true)).
Proof.
  induction d as [|d IH]; intros p k s Hd Hk Hp.
  - simpl. replace k with m by lia. split.
    + intros [<-|[]]. rewrite length_take. split; [lia|].
      split; [|intros r Hr; lia].
      rewrite take_take. f_equal. lia.
    + intros (H1 & H2 & _). left. rewrite <- H2.
      apply take_ge. lia.
  - simpl. rewrite in_flat_map. split.
    + intros (c & Hc & Hin).
      apply list_elem_of_In, elem_of_seqZ in Hc.
      destruct (safe p k c) eqn:Hs; [|destruct Hin].
      apply IH in Hin; [|lia|lia|rewrite length_insert; lia].
      destruct Hin as (H1 & H2 & H3).
      assert (Hk' : take (Z.to_nat k) s = take (Z.to_nat k) p).
      { rewrite (take_shorter _ _ _ _ H2) by lia. apply take_insert_above. lia. }
      assert (Hsk : peek s k = c).
      { rewrite (peek_agree _ _ k (k + 1) H2) by lia. apply peek_insert_eq. lia. }
      split; [exact H1|]. split; [exact Hk'|].
      intros r Hr. destruct (Z.eq_dec r k) as [->|Hne].
      * rewrite Hsk. split; [lia|]. rewrite (safe_agree p s k c Hk'). exact Hs.
      * apply H3. lia.
    + intros (H1 & H2 & H3).
      exists (peek s k). destruct (H3 k ltac:(lia)) as [Hr Hs].
      split; [apply list_elem_of_In, elem_of_seqZ; lia|].
      rewrite <- (safe_agree p s k _ H2), Hs.
      apply IH; [lia|lia|rewrite length_insert; lia|].
      split; [exact H1|]. split; [|intros r Hr'; apply H3; lia].
      rewrite (take_next s k) by lia.
      rewrite (take_next (<[Z.to_nat k := peek s k]> p) k)
        by (rewrite length_insert; lia).
      rewrite take_insert_above by lia.
      rewrite peek_insert_eq by lia. now rewrite H2.
Qed.

Lemma forallb_seqZ (f : Z -> bool) a len :
  forallb f (seqZ a len) = true <-> (forall i, a <= i < a + len -> f i = true).
Proof.
  rewrite forallb_forall. split; intros H i Hi.
  - apply H, list_elem_of_In, elem_of_seqZ, Hi.
  - apply H, elem_of_seqZ, list_elem_of_In, Hi.
Qed.

Lemma hits_false i j k c :
  hits i j k c = false <-> j <> c /\ Z.abs (i - k) <> Z.abs (j - c).
Proof.
  unfold hits. rewrite orb_false_iff, !Z.eqb_neq. reflexivity.
Qed.

(** The boards of [solutions n] are the solutions of the problem. *)
Lemma in_solutions n s :
  1 <= n < half -> (In s (solutions n) <-> is_solution n s).
Proof.
  intros Hn. unfold solutions.
  rewrite in_ext by (rewrite ?length_replicate; lia).
  unfold is_solution. split.
  - intros (H1 & _ & H3). split; [exact H1|]. split; [intros r Hr; apply H3; lia|].
    intros i r Hi Hr. destruct (H3 r ltac:(lia)) as [_ Hs].
    unfold safe in Hs. rewrite forallb_seqZ in Hs.
    specialize (Hs i ltac:(lia)). apply negb_true_iff in Hs.
    rewrite to_int_small in Hs
      by (destruct (H3 i ltac:(lia)) as [? _]; unfold half in *; lia).
    apply hits_false in Hs. exact Hs.
  - intros (H1 & H2 & H3). split; [exact H1|]. split; [reflexivity|].
    intros r Hr. split; [apply H2; lia|].
    unfold safe. apply forallb_seqZ. intros i Hi. apply negb_true_iff.
    rewrite to_int_small
      by (destruct (H2 i ltac:(lia)) as [? ?]; unfold half in *; lia).
    apply hits_false, H3; lia.
Qed.

End Boards.

(** ** The expected boards come in lexicographic order *)

Section Order.

Implicit Types (p a b : list Z) (k c n m : Z).

Lemma lex_lt_irrefl a : ~ lex_lt a a.
Proof. induction a as [|x a IH]; simpl; [tauto|]. intros [H|[_ H]]; [lia|tauto]. Qed.

Lemma lex_lt_at (k : nat) : forall a b x y,
  take k a = take k b -> a !! k = Some x -> b !! k = Some y -> x < y ->
  lex_lt a b.
Proof.
  induction k as [|k IH]; intros [|x0 a] [|y0 b] x y Ht Ha Hb Hxy;
    try discriminate; simpl in *.
  - left. congruence.
  - right. inversion Ht. split; [reflexivity|]. eapply IH; eassumption.
Qed.

Lemma rows_lt_at s0 k a b :
  0 <= s0 <= k -> k < Z.of_nat (length a) -> k < Z.of_nat (length b) ->
  take (Z.to_nat k) a = take (Z.to_nat k) b -> peek a k < peek b k ->
  rows_lt s0 a b.
Proof.
  intros Hs Ha Hb Ht Hlt. unfold rows_lt.
  apply (lex_lt_at (Z.to_nat (k - s0)) _ _ (peek a k) (peek b k)).
  - rewrite !take_drop_commute.
    replace (Z.to_nat s0 + Z.to_nat (k - s0))%nat with (Z.to_nat k) by lia.
    now rewrite Ht.
  - rewrite lookup_drop.
    replace (Z.to_nat s0 + Z.to_nat (k - s0))%nat with (Z.to_nat k) by lia.
    apply lookup_peek. lia.
  - rewrite lookup_drop.
    replace (Z.to_nat s0 + Z.to_nat (k - s0))%nat with (Z.to_nat k) by lia.
    apply lookup_peek. lia.
  - exact Hlt.
Qed.

Lemma in_through n m d p k c (s : list Z) :
  Z.of_nat d = m - 1 - k -> 0 <= k -> m <= Z.of_nat (length p) ->
  In s (through n m d p k c) ->
  Z.of_nat (length s) = m /\ take (Z.to_nat k) s = take (Z.to_nat k) p
  /\ peek s k = c.
Proof.
  intros Hd Hk Hp Hin. unfold through in Hin.
  destruct (safe p k c); [|destruct Hin].
  apply in_ext in Hin; [|lia|lia|rewrite length_insert; lia].
  destruct Hin as (H1 & H2 & _). split; [exact H1|]. split.
  - rewrite (take_shorter _ _ _ _ H2) by lia. apply take_insert_above. lia.
  - rewrite (peek_agree _ _ k (k + 1) H2) by lia. apply peek_insert_eq. lia.
Qed.

Lemma sorted_ext n m s0 (d : nat) : forall p k,
  Z.of_nat d = m - k -> 0 <= s0 <= k -> m <= Z.of_nat (length p) ->
  StronglySorted (rows_lt s0) (ext n m d p k).
Proof.
  induction d as [|d IH]; intros p k Hd Hk Hp.
  - simpl. repeat constructor.
  - simpl.
    change (StronglySorted (rows_lt s0)
              (flat_map (through n m d p k) (seqZ 0 n))).
    assert (Hgen : forall (len : nat) c, 0 <= c ->
               StronglySorted (rows_lt s0)
                 (flat_map (through n m d p k) (seqZ c (Z.of_nat len)))).
    { induction len as [|len IHlen]; intros c Hc.
      - simpl. constructor.
      - rewrite seqZ_cons by lia. simpl.
        replace (Z.pred (Z.of_nat (S len))) with (Z.of_nat len) by lia.
        apply StronglySorted_app. split; [|split].
        + intros a b Ha Hb.
          apply list_elem_of_In in Ha. apply list_elem_of_In in Hb.
          apply in_flat_map in Hb. destruct Hb as (c' & Hc' & Hb).
          apply list_elem_of_In, elem_of_seqZ in Hc'.
          apply in_through in Ha; [|lia|lia|lia].
          apply in_through in Hb; [|lia|lia|lia].
          destruct Ha as (A1 & A2 & A3). destruct Hb as (B1 & B2 & B3).
          apply (rows_lt_at s0 k); try lia. congruence.
        + unfold through. destruct (safe p k c); [|constructor].
          apply IH; [lia|lia|rewrite length_insert; lia].
        + apply IHlen. lia. }
    destruct (Z_le_dec 0 n) as [Hn|Hn].
    + specialize (Hgen (Z.to_nat n) 0 ltac:(lia)).
      rewrite (Z2Nat.id n Hn) in Hgen. exact Hgen.
    + rewrite seqZ_nil by lia. constructor.
Qed.

Lemma sorted_NoDup {A} (R : A -> A -> Prop) (l : list A) :
  (forall x, ~ R x x) -> StronglySorted R l -> List.NoDup l.
Proof.
  intros Hirr. induction 1 as [|x l Hs IH Hall]; constructor; [|exact IH].
  intros Hin. rewrite List.Forall_forall in Hall. exact (Hirr x (Hall x Hin)).
Qed.

Lemma rows_lt_irrefl s0 a : ~ rows_lt s0 a a.
Proof. apply lex_lt_irrefl. Qed.

Lemma solutions_NoDup n : 0 <= n -> List.NoDup (solutions n).
Proof.
  intros Hn. apply (sorted_NoDup (rows_lt 0)); [apply rows_lt_irrefl|].
  apply sorted_ext; rewrite ?length_replicate; lia.
Qed.

Lemma fold_add_solution (l : list (list Z)) (w : list Z) :
  fold_cb add_solution_callback l w = Some (w ++ concat l).
Proof.
  revert w. induction l as [|x l IH]; intros w; simpl.
  - now rewrite app_nil_r.
  - rewrite IH. unfold add_solution. now rewrite app_assoc.
Qed.

Lemma fold_record_solution (l seen : list (list Z)) :
  fold_cb record_solution l seen = Some (seen ++ l).
Proof.
  revert seen. induction l as [|x l IH]; intros seen; simpl.
  - now rewrite app_nil_r.
  - rewrite IH. now rewrite <- app_assoc.
Qed.

Lemma length_concat_boards n (l : list (list Z)) :
  (forall s, In s l -> Z.of_nat (length s) = n) ->
  Z.of_nat (length (concat l)) = n * Z.of_nat (length l).
Proof.
  induction l as [|x l IH]; intros H; simpl; [lia|].
  rewrite length_app, Nat2Z.inj_add, IH by (intros s Hs; apply H; now right).
  rewrite (H x) by now left. lia.
Qed.

End Order.

(** ** Runs, continued *)

Section RunMore.

Context {W : Type}.
Variable success_func : list Z -> W -> option W.
Variable amb : Z -> Z.
Variables start_level max_level : Z.

Local Abbreviation step := (step success_func amb start_level max_level).
Local Abbreviation run := (run success_func amb start_level max_level).
Local Abbreviation star := (star success_func amb start_level max_level).

Lemma run_S fuel s :
  run (S fuel) s = match step s with Running s' => run fuel s' | o => o end.
Proof. reflexivity. Qed.

Lemma run_add a b s :
  run (a + b) s = match run a s with Running s' => run b s' | o => o end.
Proof.
  revert s. induction a as [|a IH]; intros s; simpl; [reflexivity|].
  destruct (step s); try reflexivity. apply IH.
Qed.

Lemma store_Some (l : list Z) a v l' :
  store l a v = Some l' ->
  0 <= a < Z.of_nat (length l) /\ l' = <[Z.to_nat a := v]> l.
Proof.
  unfold store, in_block. intros H.
  destruct (0 <=? a) eqn:H1; destruct (a <? Z.of_nat (length l)) eqn:H2;
    simpl in H; try discriminate.
  inversion H. split; [lia|reflexivity].
Qed.

(** Once [flag] is set the callback is not called again. *)
Lemma flagged_step s :
  st_flag s = 1 -> st_pc s <> AtInit ->
  match step s with
  | Running s' => st_flag s' = 1 /\ st_pc s' <> AtInit /\ st_world s' = st_world s
  | o => world_of o = st_world s
  end.
Proof.
  destruct s as [p vo ix sz k i j fl ss l w]. simpl. intros -> Hl.
  destruct l; [congruence| |]; unfold step; simpl.
  - reflexivity.
  - destruct (load amb ix k >=? sz - 1).
    + split; [destruct (k - 1 <=? ss); reflexivity|]. split; [discriminate|reflexivity].
    + destruct (load_strict p 0); simpl; [|reflexivity].
      split; [reflexivity|]. split; [discriminate|reflexivity].
Qed.

Lemma flagged_world fuel : forall s,
  st_flag s = 1 -> st_pc s <> AtInit -> world_of (run fuel s) = st_world s.
Proof.
  induction fuel as [|fuel IH]; intros s Hf Hl; simpl; [reflexivity|].
  pose proof (flagged_step s Hf Hl) as H.
  destruct (step s) as [s'| | |]; try exact H.
  destruct H as (H1 & H2 & H3). rewrite IH by assumption. exact H3.
Qed.

(** A run that has been followed up to a frame with [flag] set has the
    world of that frame from then on, and has not returned before. *)
Lemma world_after s s' fuel r :
  star s s' -> st_flag s' = 1 -> st_pc s' <> AtInit ->
  run fuel s = Returned r -> r = st_world s'.
Proof.
  intros Hs Hf Hl Hr. destruct (star_run _ _ _ _ _ _ Hs) as [a Ha].
  destruct (Nat.le_gt_cases fuel a) as [Hle|Hgt].
  - pose proof (run_final_stable _ _ _ _ fuel s _ Hr I (a + 0)%nat ltac:(lia)) as H.
    rewrite Ha in H. simpl in H. discriminate.
  - replace fuel with (a + (fuel - a))%nat in Hr by lia.
    rewrite Ha in Hr.
    pose proof (flagged_world (fuel - a) s' Hf Hl) as H.
    rewrite Hr in H. exact H.
Qed.

End RunMore.

Section Recorded.

Variable amb : Z -> Z.
Variables start_level max_level : Z.

Local Abbreviation run := (run record_solution amb start_level max_level).
Local Abbreviation star := (star record_solution amb start_level max_level).

Lemma recorded_grows a b s :
  world_of (run a s) `prefix_of` world_of (run (a + b) s).
Proof.
  rewrite run_add. destruct (run a s) as [s'| | |]; try reflexivity.
  simpl. apply (run_world_invariant record_solution amb start_level max_level
                  (fun w => st_world s' `prefix_of` w)); [|reflexivity].
  intros sol w w' Hw H. inversion H. now apply prefix_app_r.
Qed.

Lemma recorded_prefix s s' fuel :
  star s s' -> st_flag s' = 1 -> st_pc s' <> AtInit ->
  world_of (run fuel s) `prefix_of` st_world s'.
Proof.
  intros Hs Hf Hl. destruct (star_run _ _ _ _ _ _ Hs) as [a Ha].
  destruct (Nat.le_gt_cases fuel a) as [Hle|Hgt].
  - pose proof (recorded_grows fuel (a - fuel) s) as H.
    replace (fuel + (a - fuel))%nat with (a + 0)%nat in H by lia.
    rewrite Ha in H. exact H.
  - replace fuel with (a + (fuel - a))%nat by lia. rewrite Ha.
    rewrite (flagged_world _ _ _ _ _ _ Hf Hl). reflexivity.
Qed.

End Recorded.

(** ** The sequential solver *)

Section Sequential.

Lemma zero_board_length n : 0 <= n -> Z.of_nat (length (replicate (Z.to_nat n) 0)) = n.
Proof. intros H. rewrite length_replicate. lia. Qed.

Lemma nqueens_returns n amb :
  1 <= n < half -> settles amb 0 n ->
  forall sols, exists fuel0, forall fuel, (fuel0 <= fuel)%nat ->
    nqueens amb fuel n sols = Some (sols ++ concat (solutions n), []).
Proof.
  intros Hn Hs sols.
  destruct (search_returns add_solution_callback amb 0 n n Hn ltac:(lia)
              (replicate (Z.to_nat n) 0) sols (sols ++ concat (solutions n)))
    as [fuel0 H].
  - apply zero_board_length. lia.
  - exact Hs.
  - replace (n - 0) with n by lia. apply fold_add_solution.
  - exists fuel0. intros fuel Hf. unfold nqueens. now rewrite (H fuel Hf).
Qed.

Lemma nqueens_result n amb fuel sols r s :
  1 <= n < half ->
  nqueens amb fuel n sols = Some (r, s) ->
  r = sols ++ concat (solutions n) /\ s = [].
Proof.
  intros Hn H. unfold nqueens in H.
  destruct (nqueens_by_level _ _ _ _ _ _ _) as [|r'| |] eqn:Hr; try discriminate.
  inversion H; subst r' s. split; [|reflexivity].
  destruct (search_exhausts add_solution_callback amb 0 n n Hn ltac:(lia)
              (replicate (Z.to_nat n) 0) sols (sols ++ concat (solutions n)))
    as (p & vo & ix & i & j & G1 & _).
  - apply zero_board_length. lia.
  - replace (n - 0) with n by lia. apply fold_add_solution.
  - apply (world_after _ _ _ _ _ _ fuel r G1); [reflexivity|discriminate|exact Hr].
Qed.

Lemma nqueens_zero amb fuel sols : nqueens amb fuel 0 sols = None.
Proof. destruct fuel; reflexivity. Qed.

Lemma solutions_4 : length (solutions 4) = 2%nat.
Proof. vm_compute. reflexivity. Qed.

Lemma solutions_8 : length (solutions 8) = 92%nat.
Proof. vm_compute. reflexivity. Qed.

Lemma calm_settles n : 2 <= n -> settles calm 0 n.
Proof. intros H. exists (-1). unfold calm. lia. Qed.

(** C10. [nqueens] hands its store over and clears it: after a call
    the store is empty, whatever it held before, and the next call
    returns the same flat sequence as one made on an empty store. *)
Theorem nqueens_leaves_store_empty (n : Z) (amb1 amb2 : Z -> Z)
    (fuel1 fuel2 : nat) (s0 r1 s1 r2 s2 : list Z) :
  0 <= n < half ->
  nqueens amb1 fuel1 n s0 = Some (r1, s1) ->
  nqueens amb2 fuel2 n s1 = Some (r2, s2) ->
  s1 = [] /\ s2 = [] /\ r1 = s0 ++ r2 /\ (s0 = [] -> r1 = r2).
Proof.
  intros Hn H1 H2.
  destruct (Z.eq_dec n 0) as [->|Hne].
  - rewrite nqueens_zero in H1. discriminate.
  - apply nqueens_result in H1; [|lia]. destruct H1 as [-> ->].
    apply nqueens_result in H2; [|lia]. destruct H2 as [-> ->].
    simpl. split; [reflexivity|]. split; [reflexivity|]. split; [reflexivity|].
    now intros ->.
Qed.

Lemma nqueens_leaves_store_empty_witness :
  @nil Z = [] /\ @nil Z = []
  /\ [1; 3; 0; 2; 2; 0; 3; 1] = [] ++ [1; 3; 0; 2; 2; 0; 3; 1]
  /\ (@nil Z = [] -> [1; 3; 0; 2; 2; 0; 3; 1] = [1; 3; 0; 2; 2; 0; 3; 1]).
Proof.
  apply (nqueens_leaves_store_empty 4 calm calm 300 400 []
           [1; 3; 0; 2; 2; 0; 3; 1] [] [1; 3; 0; 2; 2; 0; 3; 1] []).
  - unfold half. lia.
  - vm_compute. reflexivity.
  - vm_compute. reflexivity.
Defined.

End Sequential.

(** ** Order of the reported boards, and the end of the search *)

Section Reported.

Variable amb : Z -> Z.
Variables start_level max_level n : Z.

Hypothesis Hn : 1 <= n < half.
Hypothesis Hlevels : 0 <= start_level < max_level /\ max_level <= n.

Local Abbreviation expected pos :=
  (ext n max_level (Z.to_nat (max_level - start_level)) pos start_level).

Lemma recorded_is_prefix pos fuel :
  Z.of_nat (length pos) = n ->
  world_of (nqueens_by_level record_solution amb start_level max_level fuel pos [])
  `prefix_of` expected pos.
Proof.
  intros Hp.
  destruct (search_exhausts record_solution amb start_level max_level n Hn Hlevels
              pos [] (expected pos) Hp (fold_record_solution _ _))
    as (p & vo & ix & i & j & G1 & _).
  apply (recorded_prefix amb start_level max_level _ _ fuel G1);
    [reflexivity|discriminate].
Qed.

End Reported.

(** C4. When every column of every row has been tried, [k] is one
    below [start_level] and [flag] is set, but the inner [while] of
    line 87 (or 110) tests [index[k]] once more before the function can
    return: it reads [index[start_level-1]], which for
    [start_level = 0] is the cell before the block. *)
Theorem exhaustion_reads_below_first_row {W : Type}
    (success_func : list Z -> W -> option W) (amb : Z -> Z)
    (start_level max_level n : Z) (pos : list Z) (w w' : W) :
  1 <= n < half ->
  0 <= start_level < max_level /\ max_level <= n ->
  Z.of_nat (length pos) = n ->
  fold_cb success_func
    (ext n max_level (Z.to_nat (max_level - start_level)) pos start_level) w
  = Some w' ->
  exists fuel s,
    nqueens_by_level success_func amb start_level max_level fuel pos w = Running s
    /\ st_pc s = AtScan /\ st_flag s = 1 /\ st_world s = w'
    /\ cursor_read s = Some (start_level - 1)
    /\ (start_level = 0 -> reads_outside max_level s).
Proof.
  intros Hn Hlevels Hp Hf.
  destruct (search_exhausts success_func amb start_level max_level n Hn Hlevels
              pos w w' Hp Hf) as (p & vo & ix & i & j & G1 & _).
  destruct (star_run _ _ _ _ _ _ G1) as [a Ha].
  exists (a + 0)%nat, (Frame p vo ix n (start_level - 1) i j 1 (start_level - 1) AtScan w').
  split; [apply Ha|]. repeat (split; [reflexivity|]).
  intros ->. exists (-1). split; [reflexivity|lia].
Qed.

Lemma exhaustion_reads_below_first_row_witness :
  exists fuel s,
    nqueens_by_level add_solution_callback calm 0 4 fuel [0; 0; 0; 0] [] = Running s
    /\ st_pc s = AtScan /\ st_flag s = 1
    /\ st_world s = [1; 3; 0; 2; 2; 0; 3; 1]
    /\ cursor_read s = Some (0 - 1)
    /\ (0 = 0 -> reads_outside 4 s).
Proof.
  apply (exhaustion_reads_below_first_row add_solution_callback calm 0 4 4
           [0; 0; 0; 0] [] [1; 3; 0; 2; 2; 0; 3; 1]).
  - unfold half. lia.
  - lia.
  - reflexivity.
  - vm_compute. reflexivity.
Defined.

(** ** The attack test, as the search uses it *)

Lemma safe_spec (p : list Z) (k c : Z) :
  safe p k c = true <->
  (forall i, 0 <= i < k ->
     to_int (peek p i) <> c /\ Z.abs (i - k) <> Z.abs (to_int (peek p i) - c)).
Proof.
  unfold safe. rewrite forallb_seqZ. split; intros H i Hi.
  - apply hits_false, negb_true_iff, H. lia.
  - apply negb_true_iff, hits_false, H. lia.
Qed.

(** C3, as the code has it. The candidate column [c] of row [k] is
    accepted (line 104 is reached) exactly when every row [i < k],
    holding column [j], has [j <> c] and [|i-k| <> |j-c|]; otherwise
    the search goes to the inner [while] of line 87 with the board
    untouched. The clause [i==k] of line 86 changes nothing: the test
    has the same value without it, and when the clause is true (as at
    the first test of row 0, where [i = k = 0]) the test is false. *)
Theorem candidate_accepted_iff_safe {W : Type}
    (success_func : list Z -> W -> option W) (amb : Z -> Z)
    (start_level max_level : Z) (p vo ix : list Z) (k c : Z) (w : W) :
  0 <= k <= Z.of_nat (length p) -> load amb ix k = c ->
  (safe p k c = true <->
   (forall i, 0 <= i < k ->
      to_int (peek p i) <> c /\ Z.abs (i - k) <> Z.abs (to_int (peek p i) - c)))
  /\ (exists s,
        star success_func amb start_level max_level
          (Frame p vo ix (Z.of_nat (length p)) k 0 (to_int (peek p 0)) 0
                 (start_level - 1) AtLoop w) s
        /\ st_pos s = p /\ st_index s = ix /\ st_k s = k /\ st_world s = w
        /\ if safe p k c then places amb s else st_pc s = AtScan)
  /\ (forall i j, attack i j k c = attack_without_eq i j k c)
  /\ (forall i j, (i =? k) = true -> attack i j k c = false).
Proof.
  intros Hk Hc. split; [apply safe_spec|]. split; [|split].
  - destruct (check_all success_func amb start_level max_level
                (Z.of_nat (length p)) p vo ix k w c eq_refl Hk Hc) as (i & j & H).
    destruct (safe p k c).
    + destruct H as (H1 & H2 & H3). eexists. split; [exact H1|].
      repeat (split; [reflexivity|]).
      unfold places. simpl. rewrite Hc. repeat split; assumption.
    + eexists. split; [exact H|]. repeat split.
  - intros i j. apply attack_drop_eq.
  - intros i j Hik. apply Z.eqb_eq in Hik. apply attack_beyond. lia.
Qed.

Lemma candidate_accepted_iff_safe_witness :
  (safe [1; 3; 0; 0] 2 0 = true <->
   (forall i, 0 <= i < 2 ->
      to_int (peek [1; 3; 0; 0] i) <> 0
      /\ Z.abs (i - 2) <> Z.abs (to_int (peek [1; 3; 0; 0] i) - 0)))
  /\ (exists s,
        star add_solution_callback calm 0 4
          (Frame [1; 3; 0; 0] [] [1; 3; 0; 0] (Z.of_nat (length [1; 3; 0; 0])) 2 0
                 (to_int (peek [1; 3; 0; 0] 0)) 0 (0 - 1) AtLoop []) s
        /\ st_pos s = [1; 3; 0; 0] /\ st_index s = [1; 3; 0; 0] /\ st_k s = 2
        /\ st_world s = []
        /\ if safe [1; 3; 0; 0] 2 0 then places calm s else st_pc s = AtScan)
  /\ (forall i j, attack i j 2 0 = attack_without_eq i j 2 0)
  /\ (forall i j, (i =? 2) = true -> attack i j 2 0 = false).
Proof.
  apply (candidate_accepted_iff_safe add_solution_callback calm 0 4
           [1; 3; 0; 0] [] [1; 3; 0; 0] 2 0 []).
  - simpl. lia.
  - reflexivity.
Defined.

(** The clause [i==k] is not always false: it is true at the first
    test of [nqueens(1)], where [i = k = 0]. *)
Lemma eq_clause_true_at_row_zero :
  exists s,
    nqueens_by_level add_solution_callback calm 0 1 2 [0] [] = Running s
    /\ st_pc s = AtLoop /\ st_flag s = 0 /\ (st_i s =? st_k s) = true.
Proof. eexists. split; [vm_compute; reflexivity|]. repeat split. Qed.

(** ** A call with [start_level = max_level] *)

Section EmptyRange.

Context {W : Type}.
Variable success_func : list Z -> W -> option W.
Variable amb : Z -> Z.
Variables max_level n : Z.

Hypothesis Hmax : 1 <= max_level <= n.
Hypothesis Hn : n < half.

Local Abbreviation step := (step success_func amb max_level max_level).
Local Abbreviation run := (run success_func amb max_level max_level).

(** Either [flag] is set, or [k] is not below [max_level]. *)
Local Abbreviation beyond s :=
  (st_pc s <> AtInit
   /\ (st_flag s = 1
       \/ (st_flag s = 0 /\ max_level <= st_k s /\ st_stop_sign s = max_level - 1
           /\ Z.of_nat (length (st_index s)) = max_level
           /\ Z.of_nat (length (st_pos s)) = n))).

Lemma beyond_step s :
  beyond s ->
  match step s with
  | Running s' => beyond s' /\ st_world s' = st_world s
  | o => world_of o = st_world s
  end.
Proof.
  intros [Hl [Hf|(Hf & Hk & Hss & Hix & Hp)]].
  - pose proof (flagged_step success_func amb max_level max_level s Hf Hl) as H.
    destruct (step s) as [s'| | |]; try exact H.
    destruct H as (H1 & H2 & H3). split; [|exact H3]. split; [exact H2|]. now left.
  - destruct s as [p vo ix sz k i j fl ss l w]. simpl in *. subst fl ss.
    destruct l; [congruence| |]; unfold step; simpl.
    + destruct (attack i j k (load amb ix k)).
      { split; [|reflexivity]. split; [discriminate|]. right. simpl. tauto. }
      destruct (i >=? k - 1).
      * destruct (store p k (to_uint (load amb ix k))) as [p'|] eqn:Hst;
          [|reflexivity].
        apply store_Some in Hst. destruct Hst as [Hkp _].
        rewrite (to_uint_small k), (to_uint_small (max_level - 1))
          by (unfold modulus, half in *; lia).
        replace (k =? max_level - 1) with false by (symmetry; apply Z.eqb_neq; lia).
        rewrite store_outside by lia. reflexivity.
      * destruct (load_strict p (i + 1)); [|reflexivity].
        split; [|reflexivity]. split; [discriminate|]. right. simpl. tauto.
    + destruct (load amb ix k >=? sz - 1).
      * split; [|reflexivity]. split; [discriminate|]. simpl.
        destruct (Z.leb_spec (k - 1) (max_level - 1)); [now left|].
        right. repeat split; try assumption; lia.
      * unfold after_scan. simpl. rewrite store_outside by lia. reflexivity.
Qed.

Lemma beyond_world fuel : forall s, beyond s -> world_of (run fuel s) = st_world s.
Proof.
  induction fuel as [|fuel IH]; intros s Hs; simpl; [reflexivity|].
  pose proof (beyond_step s Hs) as H.
  destruct (step s) as [s'| | |]; try exact H.
  destruct H as [H1 H2]. rewrite IH by exact H1. exact H2.
Qed.

Lemma empty_range_first_step pos w :
  Z.of_nat (length pos) = n ->
  step (enter amb max_level max_level pos w)
  = Running (Frame pos (replicate (Z.to_nat max_level) 0) (amb <$> seqZ 0 max_level)
                   n max_level 0 (to_int (peek pos 0)) 0 (max_level - 1) AtLoop w).
Proof.
  intros Hp. unfold enter, step. rewrite Hp. simpl.
  rewrite (to_int_small n), (to_int_small max_level) by (unfold half in *; lia).
  rewrite (to_uint_small max_level), (to_uint_small (max_level - 1))
    by (unfold modulus, half in *; lia).
  replace (max_level <=? max_level - 1) with false by (symmetry; apply Z.leb_gt; lia).
  rewrite load_strict_inside by lia.
  rewrite (to_int_small (max_level - 1)) by (unfold half in *; lia).
  reflexivity.
Qed.

End EmptyRange.

(** The callback is not called at all when [start_level = max_level]. *)
Lemma empty_range_world {W : Type} (success_func : list Z -> W -> option W)
    (amb : Z -> Z) (max_level n : Z) (pos : list Z) (w : W) (fuel : nat) :
  1 <= max_level <= n -> n < half -> Z.of_nat (length pos) = n ->
  world_of (nqueens_by_level success_func amb max_level max_level fuel pos w) = w.
Proof.
  intros Hmax Hn Hp. unfold nqueens_by_level.
  destruct fuel as [|fuel]; [reflexivity|].
  rewrite run_S, (empty_range_first_step success_func amb max_level n Hmax Hn pos w Hp).
  rewrite (beyond_world success_func amb max_level n Hmax Hn); [reflexivity|].
  simpl. split; [discriminate|]. right.
  rewrite length_fmap, length_seqZ. repeat split; try lia.
Qed.

(** C6. The boards handed to the callback by a call of
    [nqueens_by_level] come in ascending lexicographic order of their
    rows [[start_level, max_level)]: whatever the number of steps
    taken, the boards reported so far are sorted. With
    [start_level < max_level] they are an initial part of the expected
    list, and when the call returns all of that list has been
    reported. *)
Theorem solutions_reported_in_order (amb : Z -> Z) (start_level max_level n : Z)
    (pos : list Z) (fuel : nat) :
  1 <= n < half ->
  0 <= start_level <= max_level -> 1 <= max_level <= n ->
  Z.of_nat (length pos) = n ->
  StronglySorted (rows_lt start_level)
    (world_of (nqueens_by_level record_solution amb start_level max_level fuel pos []))
  /\ (start_level < max_level ->
      world_of (nqueens_by_level record_solution amb start_level max_level fuel pos [])
      `prefix_of` ext n max_level (Z.to_nat (max_level - start_level)) pos start_level
      /\ (settles amb start_level n ->
          exists fuel0, forall fuel', (fuel0 <= fuel')%nat ->
            nqueens_by_level record_solution amb start_level max_level fuel' pos []
            = Returned (ext n max_level (Z.to_nat (max_level - start_level))
                            pos start_level))).
Proof.
  intros Hn Hstart Hmax Hp.
  destruct (Z.eq_dec start_level max_level) as [->|Hne].
  - rewrite (empty_range_world record_solution amb max_level n pos [] fuel)
      by (lia || exact Hp).
    split; [constructor|]. intros H. lia.
  - assert (Hlevels : 0 <= start_level < max_level /\ max_level <= n) by lia.
    pose proof (recorded_is_prefix amb start_level max_level n Hn Hlevels pos fuel Hp)
      as Hpre.
    split; [|intros _; split; [exact Hpre|]].
    + destruct Hpre as [rest Hrest].
      pose proof (sorted_ext n max_level start_level
                    (Z.to_nat (max_level - start_level)) pos start_level
                    ltac:(lia) ltac:(lia) ltac:(lia)) as Hs.
      rewrite Hrest in Hs. exact (StronglySorted_app_1_l _ _ _ Hs).
    + intros Hs.
      apply (search_returns record_solution amb start_level max_level n Hn Hlevels
               pos [] _ Hp Hs).
      apply fold_record_solution.
Qed.

Lemma solutions_reported_in_order_witness :
  StronglySorted (rows_lt 1)
    (world_of (nqueens_by_level record_solution calm 1 4 100 [1; 0; 0; 0] []))
  /\ (1 < 4 ->
      world_of (nqueens_by_level record_solution calm 1 4 100 [1; 0; 0; 0] [])
      `prefix_of` ext 4 4 (Z.to_nat (4 - 1)) [1; 0; 0; 0] 1
      /\ (settles calm 1 4 ->
          exists fuel0, forall fuel', (fuel0 <= fuel')%nat ->
            nqueens_by_level record_solution calm 1 4 fuel' [1; 0; 0; 0] []
            = Returned (ext 4 4 (Z.to_nat (4 - 1)) [1; 0; 0; 0] 1))).
Proof.
  apply (solutions_reported_in_order calm 1 4 4 [1; 0; 0; 0] 100).
  - unfold half. lia.
  - lia.
  - lia.
  - reflexivity.
Defined.

(** C5, as the code has it. With [start_level = max_level] the
    callback is never called, whatever the number of steps taken: no
    board is reported, not even the one given. The first test of
    line 86 already reads [index[max_level]], the cell after the
    block. *)
Theorem empty_range_reports_nothing {W : Type}
    (success_func : list Z -> W -> option W) (amb : Z -> Z)
    (max_level n : Z) (pos : list Z) (w : W) (fuel : nat) :
  1 <= max_level <= n -> n < half -> Z.of_nat (length pos) = n ->
  world_of (nqueens_by_level success_func amb max_level max_level fuel pos w) = w
  /\ world_of (nqueens_by_level record_solution amb max_level max_level fuel pos []) = []
  /\ exists s,
       nqueens_by_level success_func amb max_level max_level 1 pos w = Running s
       /\ st_pc s = AtLoop /\ st_flag s = 0 /\ reads_outside max_level s.
Proof.
  intros Hmax Hn Hp.
  split; [apply (empty_range_world _ _ _ n); assumption|].
  split; [apply (empty_range_world _ _ _ n); assumption|].
  eexists. split.
  - unfold nqueens_by_level.
    rewrite run_S, (empty_range_first_step success_func amb max_level n Hmax Hn pos w Hp).
    reflexivity.
  - split; [reflexivity|]. split; [reflexivity|].
    exists max_level. split; [reflexivity|lia].
Qed.

Lemma empty_range_reports_nothing_witness :
  world_of (nqueens_by_level add_solution_callback calm 4 4 200 [1; 3; 0; 2] []) = []
  /\ world_of (nqueens_by_level record_solution calm 4 4 200 [1; 3; 0; 2] []) = []
  /\ exists s,
       nqueens_by_level add_solution_callback calm 4 4 1 [1; 3; 0; 2] [] = Running s
       /\ st_pc s = AtLoop /\ st_flag s = 0 /\ reads_outside 4 s.
Proof.
  apply (empty_range_reports_nothing add_solution_callback calm 4 4 [1; 3; 0; 2] [] 200).
  - lia.
  - unfold half. lia.
  - reflexivity.
Defined.

(** ** The master: what a receive and a dispatch do *)

Section MasterFacts.

Variables n k : Z.
Variable workers : nat.
Variable choose : nat -> nat.
Variable wamb : nat -> Z -> Z.
Variable wfuel : nat.

Local Abbreviation recieve := (recieve_solution choose).
Local Abbreviation dispatch := (master_solution_func n k choose wamb wfuel).

Lemma recieve_solution_inv sols active mb bufs clk log r m' :
  recieve (Master sols active mb bufs clk log) = Some (r, m') ->
  exists status batch,
    mb !! r = Some (Ready status batch)
    /\ m' = Master (if status =? solution_ready then add_solution batch sols else sols)
                   (let active1 := if status =? solution_ready
                                   then remove_worker active else active in
                    if status =? no_solution_ready
                    then remove_worker active1 else active1)
                   (<[r := Idle]> mb) bufs (S clk)
                   (log ++ RecvReady (S r) status
                        :: (if status =? solution_ready
                            then [RecvBatch (S r) batch] else [])).
Proof.
  unfold recieve_solution.
  destruct (List.filter (has_mail mb) (seq 0 (length mb))) as [|r0 ready];
    [discriminate|].
  set (r1 := nth _ _ _).
  destruct (mb !! r1) as [[| |status batch]|] eqn:Hmb; try discriminate.
  intros H. inversion H; subst r m'. clear H.
  exists status, batch. split; [exact Hmb | reflexivity].
Qed.

(** A receive finds a message as soon as some worker has one in flight. *)
Lemma recieve_solution_some sols active mb bufs clk log r :
  has_mail mb r = true ->
  exists r' m', recieve (Master sols active mb bufs clk log) = Some (r', m').
Proof.
  intros Hr. unfold recieve_solution.
  assert (Hin : In r (List.filter (has_mail mb) (seq 0 (length mb)))).
  { apply filter_In. split; [|exact Hr]. apply in_seq.
    unfold has_mail in Hr. destruct (mb !! r) eqn:Hl; [|discriminate].
    apply lookup_lt_Some in Hl. lia. }
  destruct (List.filter (has_mail mb) (seq 0 (length mb))) as [|r0 ready] eqn:Hf;
    [destruct Hin|].
  set (r1 := nth _ _ _).
  assert (H1 : In r1 (r0 :: ready)).
  { apply nth_In. apply Nat.mod_upper_bound. discriminate. }
  rewrite <- Hf in H1. apply filter_In in H1. destruct H1 as [_ H1].
  unfold has_mail in H1.
  destruct (mb !! r1) as [[| |status batch]|]; try discriminate.
  eexists _, _. reflexivity.
Qed.

Lemma dispatch_inv solution sols active mb bufs clk log m' :
  dispatch solution (Master sols active mb bufs clk log) = Some m' ->
  exists r m1,
    recieve (Master sols active mb bufs clk log) = Some (r, m1)
    /\ m' = Master (m_solutions m1) (add_worker (m_active_workers m1))
                   (<[r := worker_cycle n k wamb wfuel r
                             (solution ++ drop (length solution)
                                               (default [] (m_pos m1 !! r)))]>
                      (m_mailbox m1))
                   (<[r := solution ++ drop (length solution)
                                            (default [] (m_pos m1 !! r))]> (m_pos m1))
                   (m_clock m1)
                   (m_log m1 ++ [SendWork (S r) solution]).
Proof.
  unfold master_solution_func.
  destruct (recieve _) as [[r [s1 a1 mb1 b1 c1 l1]]|]; [|discriminate].
  intros H. inversion H. exists r, (Master s1 a1 mb1 b1 c1 l1).
  split; reflexivity.
Qed.

Lemma balance_app l l' : balance (l ++ l') = balance l + balance l'.
Proof. induction l as [|e l IH]; simpl; [reflexivity|]. rewrite IH. lia. Qed.

Lemma never_negative_nil : never_negative [].
Proof.
  intros l1 l2 H. symmetry in H. apply app_eq_nil in H. destruct H as [-> _].
  simpl. lia.
Qed.

Lemma never_negative_snoc log e :
  never_negative log -> 0 <= balance (log ++ [e]) -> never_negative (log ++ [e]).
Proof.
  intros Hn He l1 l2 H.
  destruct l2 as [|x l2 _] using rev_ind.
  - rewrite app_nil_r in H. subst l1. exact He.
  - rewrite app_assoc in H. apply app_inj_tail in H. destruct H as [H _].
    exact (Hn l1 l2 H).
Qed.

Lemma busy_bounds mb : 0 <= busy mb <= Z.of_nat (length mb).
Proof.
  induction mb as [|x mb IH]; simpl; [lia|]. destruct (is_busy x); lia.
Qed.

Lemma busy_insert mb : forall r old x,
  mb !! r = Some old ->
  busy (<[r := x]> mb)
  = busy mb - (if is_busy old then 1 else 0) + (if is_busy x then 1 else 0).
Proof.
  induction mb as [|y mb IH]; intros [|r] old x H; simpl in *; try discriminate.
  - inversion H. lia.
  - rewrite (IH r old x H). lia.
Qed.

Lemma busy_positive mb r x : mb !! r = Some x -> is_busy x = true -> 1 <= busy mb.
Proof.
  revert r. induction mb as [|y mb IH]; intros [|r] H Hb; simpl in *;
    try discriminate.
  - inversion H; subst y. rewrite Hb. pose proof (busy_bounds mb). lia.
  - specialize (IH r H Hb). destruct (is_busy y); lia.
Qed.

Lemma busy_not_all mb r x :
  mb !! r = Some x -> is_busy x = false -> busy mb <= Z.of_nat (length mb) - 1.
Proof.
  revert r. induction mb as [|y mb IH]; intros [|r] H Hb; simpl in *;
    try discriminate.
  - inversion H; subst y. rewrite Hb. pose proof (busy_bounds mb). lia.
  - specialize (IH r H Hb). destruct (is_busy y); lia.
Qed.

Lemma busy_fresh w : busy (replicate w (Ready initial_ready [])) = 0.
Proof. induction w as [|w IH]; simpl; [reflexivity|exact IH]. Qed.

Lemma worker_cycle_busy r pos : is_busy (worker_cycle n k wamb wfuel r pos) = true.
Proof.
  unfold worker_cycle.
  destruct (nqueens_by_level _ _ _ _ _ _ _) as [|[|x l]| |]; reflexivity.
Qed.

Lemma never_negative_whole log : never_negative log -> 0 <= balance log.
Proof. intros H. apply (H log []). now rewrite app_nil_r. Qed.

Lemma balance_terms (l : list nat) : balance (SendTerm <$> l) = 0.
Proof. induction l as [|x l IH]; simpl; [reflexivity|]. exact IH. Qed.

Lemma never_negative_terms (l : list nat) : forall log,
  never_negative log -> never_negative (log ++ (SendTerm <$> l)).
Proof.
  induction l as [|x l IH]; intros log H.
  - simpl. now rewrite app_nil_r.
  - rewrite fmap_cons.
    change (SendTerm x :: (SendTerm <$> l)) with ([SendTerm x] ++ (SendTerm <$> l)).
    rewrite app_assoc.
    apply IH, never_negative_snoc; [exact H|].
    rewrite balance_app. simpl. pose proof (never_negative_whole log H). lia.
Qed.

Lemma omap_terms (l : list nat) : omap is_term (SendTerm <$> l) = l.
Proof.
  induction l as [|x l IH]; [reflexivity|].
  rewrite fmap_cons. cbn [omap list_omap is_term]. f_equal. exact IH.
Qed.

Hypothesis Hworkers : Z.of_nat workers < modulus.

Lemma recieve_counted m r m' :
  counted workers m -> recieve m = Some (r, m') ->
  counted workers m' /\ m_mailbox m' !! r = Some Idle.
Proof.
  destruct m as [sols active mb bufs clk log].
  intros (H1 & H2 & H3 & H4 & H5) Hr. simpl in *.
  apply recieve_solution_inv in Hr. destruct Hr as (status & batch & Hmb & ->).
  pose proof (busy_bounds mb) as Hb.
  assert (Hlen : (r < length mb)%nat) by (apply lookup_lt_Some in Hmb; exact Hmb).
  split; [|simpl; apply list_lookup_insert_eq; exact Hlen].
  unfold counted. cbn [m_active_workers m_mailbox m_log].
  rewrite (busy_insert mb r _ Idle Hmb), length_insert.
  destruct (Z.eqb_spec status solution_ready) as [E2|E2].
  - subst status.
    pose proof (busy_positive mb r _ Hmb eq_refl) as Hpos.
    change (is_busy (Ready solution_ready batch)) with true.
    change (solution_ready =? no_solution_ready) with false.
    cbn [is_busy]. cbv zeta.
    unfold remove_worker.
    rewrite to_uint_small by lia.
    assert (Hbal : balance (log ++ [RecvReady (S r) solution_ready;
                                    RecvBatch (S r) batch]) = active - 1).
    { rewrite balance_app. simpl. lia. }
    split; [lia|]. split; [now rewrite Hbal|]. split; [exact H3|]. split.
    + replace (log ++ [RecvReady (S r) solution_ready; RecvBatch (S r) batch])
        with ((log ++ [RecvReady (S r) solution_ready]) ++ [RecvBatch (S r) batch])
        by (now rewrite <- app_assoc).
      apply never_negative_snoc; [apply never_negative_snoc; [exact H4|]|].
      * rewrite balance_app. simpl. lia.
      * rewrite <- app_assoc. simpl app. rewrite Hbal. lia.
    + rewrite omap_app, H5. reflexivity.
  - cbv zeta. destruct (Z.eqb_spec status no_solution_ready) as [E3|E3].
    + subst status.
      pose proof (busy_positive mb r _ Hmb eq_refl) as Hpos.
      change (is_busy (Ready no_solution_ready batch)) with true.
      cbn [is_busy].
      unfold remove_worker.
      rewrite to_uint_small by lia.
      assert (Hbal : balance (log ++ [RecvReady (S r) no_solution_ready]) = active - 1).
      { rewrite balance_app. simpl. lia. }
      split; [lia|]. split; [now rewrite Hbal|]. split; [exact H3|]. split.
      * apply never_negative_snoc; [exact H4|]. rewrite Hbal. lia.
      * rewrite omap_app, H5. reflexivity.
    + assert (Hw : weight (RecvReady (S r) status) = 0).
      { simpl. destruct (Z.eqb_spec status solution_ready); [contradiction|].
        destruct (Z.eqb_spec status no_solution_ready); [contradiction|].
        reflexivity. }
      assert (Hnb : is_busy (Ready status batch) = false).
      { simpl. destruct (Z.eqb_spec status solution_ready); [contradiction|].
        destruct (Z.eqb_spec status no_solution_ready); [contradiction|].
        reflexivity. }
      rewrite Hnb. cbn [is_busy].
      assert (Hbal : balance (log ++ [RecvReady (S r) status]) = active).
      { rewrite balance_app.
        change (balance [RecvReady (S r) status])
          with (weight (RecvReady (S r) status) + 0).
        rewrite Hw. lia. }
      split; [lia|]. split; [now rewrite Hbal|]. split; [exact H3|]. split.
      * apply never_negative_snoc; [exact H4|]. rewrite Hbal. lia.
      * rewrite omap_app, H5. reflexivity.
Qed.

Lemma dispatch_counted solution m m' :
  counted workers m -> dispatch solution m = Some m' -> counted workers m'.
Proof.
  destruct m as [sols active mb bufs clk log]. intros Hc Hd.
  apply dispatch_inv in Hd. destruct Hd as (r & m1 & Hr & ->).
  destruct (recieve_counted _ _ _ Hc Hr) as [(H1 & H2 & H3 & H4 & H5) Hidle].
  destruct m1 as [s1 a1 mb1 b1 c1 l1]. simpl in *.
  pose proof (busy_not_all mb1 r Idle Hidle eq_refl) as Hnb.
  pose proof (busy_bounds mb1) as Hb.
  unfold counted. simpl.
  rewrite (busy_insert mb1 r Idle _ Hidle), worker_cycle_busy, length_insert. simpl.
  unfold add_worker.
  rewrite to_uint_small by lia.
  assert (Hbal : balance (l1 ++ [SendWork (S r) solution]) = a1 + 1).
  { rewrite balance_app. simpl. lia. }
  split; [lia|]. split; [now rewrite Hbal|]. split; [exact H3|]. split.
  - apply never_negative_snoc; [exact H4|]. rewrite Hbal. lia.
  - rewrite omap_app, H5. reflexivity.
Qed.

Lemma boot_counted : counted workers (boot n k workers).
Proof.
  unfold counted, boot, distribute_parameters, initialize_workers. simpl.
  rewrite busy_fresh, length_replicate.
  repeat split.
  change [Bcast n; Bcast k] with (([] ++ [Bcast n]) ++ [Bcast k]).
  apply never_negative_snoc; [apply never_negative_snoc|]; simpl; try lia.
  apply never_negative_nil.
Qed.

Lemma drain_counted dfuel : forall m,
  counted workers m ->
  counted workers (snd (drain choose dfuel m))
  /\ (forall res, fst (drain choose dfuel m) = Done res ->
        m_active_workers (snd (drain choose dfuel m)) = 0).
Proof.
  induction dfuel as [|dfuel IH]; intros m Hc; simpl.
  - split; [exact Hc|]. intros res H. discriminate.
  - destruct (Z.ltb_spec 0 (m_active_workers m)) as [Hpos|Hzero].
    + destruct (recieve m) as [[r m']|] eqn:Hr.
      * apply IH. exact (proj1 (recieve_counted _ _ _ Hc Hr)).
      * split; [exact Hc|]. intros res H. discriminate.
    + simpl. split; [exact Hc|]. intros _ _.
      destruct Hc as (H1 & _). pose proof (busy_bounds (m_mailbox m)). lia.
Qed.

End MasterFacts.

(** C8. The count of busy workers kept by the master never goes
    below zero (it never wraps): along the log of the master's MPI
    calls, whatever the number of steps taken, the count is the number
    of work units sent minus the number of reports received other than
    first readiness messages, and that number is at least zero after
    every call. When [master_main] is done the count is 0 and the
    termination messages sent are one for each rank from 1 to
    [workers], in that order. *)
Theorem liveness_count (n k : Z) (workers : nat) (choose : nat -> nat)
    (wamb : nat -> Z -> Z) (wfuel : nat) (mamb : Z -> Z) (fuel dfuel : nat) :
  Z.of_nat workers < modulus ->
  let r := master_main n k workers choose wamb wfuel mamb fuel dfuel in
  never_negative (m_log (snd r))
  /\ m_active_workers (snd r) = balance (m_log (snd r))
  /\ (forall res, fst r = Done res ->
        m_active_workers (snd r) = 0
        /\ omap is_term (m_log (snd r)) = seq 1 workers).
Proof.
  intros Hworkers. unfold master_main.
  pose proof (run_world_invariant (master_solution_func n k choose wamb wfuel)
                mamb 0 k (counted workers)
                (fun sol m m' Hm Hd =>
                   dispatch_counted n k workers choose wamb wfuel Hworkers
                                    sol m m' Hm Hd)
                fuel (enter mamb 0 k (replicate (Z.to_nat n) 0) (boot n k workers))
                (boot_counted n k workers)) as Hc.
  unfold nqueens_by_level.
  destruct (run _ _ _ _ _ _) as [s|m|m|m]; simpl in Hc.
  - cbn [fst snd]. destruct Hc as (_ & H2 & _ & H4 & _).
    split; [exact H4|]. split; [exact H2|]. intros res H. discriminate.
  - destruct (drain_counted workers choose Hworkers dfuel m Hc) as [Hd Hz].
    destruct (drain choose dfuel m) as [[res| |] m'] eqn:Hdr; cbn [fst snd] in *.
    + destruct m' as [sols active mb bufs clk log].
      destruct Hd as (_ & H2 & _ & H4 & H5). simpl in *.
      split; [apply never_negative_terms; exact H4|].
      split; [rewrite balance_app, balance_terms; lia|].
      intros _ _. split; [exact (Hz res eq_refl)|].
      rewrite omap_app, H5, omap_terms. reflexivity.
    + destruct Hd as (_ & H2 & _ & H4 & _).
      split; [exact H4|]. split; [exact H2|]. intros res H. discriminate.
    + destruct Hd as (_ & H2 & _ & H4 & _).
      split; [exact H4|]. split; [exact H2|]. intros res H. discriminate.
  - cbn [fst snd]. destruct Hc as (_ & H2 & _ & H4 & _).
    split; [exact H4|]. split; [exact H2|]. intros res H. discriminate.
  - cbn [fst snd]. destruct Hc as (_ & H2 & _ & H4 & _).
    split; [exact H4|]. split; [exact H2|]. intros res H. discriminate.
Qed.

Lemma liveness_count_witness :
  let r := master_main 4 1 2 (fun t => t) (fun _ => calm) 1000 calm 1000 20 in
  never_negative (m_log (snd r))
  /\ m_active_workers (snd r) = balance (m_log (snd r))
  /\ (forall res, fst r = Done res ->
        m_active_workers (snd r) = 0
        /\ omap is_term (m_log (snd r)) = seq 1 2).
Proof.
  apply (liveness_count 4 1 2 (fun t => t) (fun _ => calm) 1000 calm 1000 20).
  reflexivity.
Defined.

Example master_4_1_done :
  fst (master_main 4 1 2 (fun t => t) (fun _ => calm) 1000 calm 1000 20)
  = Done [1; 3; 0; 2; 2; 0; 3; 1].
Proof. vm_compute. reflexivity. Qed.

(** ** The parameters are broadcast before anything else *)

Section Broadcast.

Variables n k : Z.
Variable workers : nat.
Variable choose : nat -> nat.
Variable wamb : nat -> Z -> Z.
Variable wfuel : nat.

Local Abbreviation announced m := (exists rest, m_log m = Bcast n :: Bcast k :: rest).

Lemma recieve_announced m r m' :
  announced m -> recieve_solution choose m = Some (r, m') -> announced m'.
Proof.
  destruct m as [sols active mb bufs clk log]. intros [rest Hl] Hr.
  apply recieve_solution_inv in Hr. destruct Hr as (status & batch & _ & ->).
  simpl in *. subst log. eexists. reflexivity.
Qed.

Lemma dispatch_announced solution m m' :
  announced m -> master_solution_func n k choose wamb wfuel solution m = Some m' ->
  announced m'.
Proof.
  destruct m as [sols active mb bufs clk log]. intros Ha Hd.
  apply dispatch_inv in Hd. destruct Hd as (r & m1 & Hr & ->).
  destruct (recieve_announced _ _ _ Ha Hr) as [rest Hl].
  simpl. rewrite Hl. eexists. reflexivity.
Qed.

Lemma drain_announced dfuel : forall m,
  announced m -> announced (snd (drain choose dfuel m)).
Proof.
  induction dfuel as [|dfuel IH]; intros m Ha; simpl; [exact Ha|].
  destruct (0 <? m_active_workers m); [|exact Ha].
  destruct (recieve_solution choose m) as [[r m']|] eqn:Hr; [|exact Ha].
  apply IH. exact (recieve_announced _ _ _ Ha Hr).
Qed.

End Broadcast.

(** C7, as the code has it. [master_main] does not look at its
    parameters before it broadcasts them: whatever [n] and [k] are,
    also with [k > n] or [n = 0], the first two MPI calls of the master
    are the broadcast of [n] and the broadcast of [k]. *)
Theorem parameters_broadcast_first (n k : Z) (workers : nat) (choose : nat -> nat)
    (wamb : nat -> Z -> Z) (wfuel : nat) (mamb : Z -> Z) (fuel dfuel : nat) :
  exists rest,
    m_log (snd (master_main n k workers choose wamb wfuel mamb fuel dfuel))
    = Bcast n :: Bcast k :: rest.
Proof.
  unfold master_main.
  pose proof (run_world_invariant (master_solution_func n k choose wamb wfuel)
                mamb 0 k (fun m => exists rest, m_log m = Bcast n :: Bcast k :: rest)
                (fun sol m m' Hm Hd =>
                   dispatch_announced n k choose wamb wfuel sol m m' Hm Hd)
                fuel (enter mamb 0 k (replicate (Z.to_nat n) 0) (boot n k workers))
                (ex_intro _ [] eq_refl)) as Ha.
  unfold nqueens_by_level.
  destruct (run _ _ _ _ _ _) as [s|m|m|m]; simpl in Ha; try exact Ha.
  pose proof (drain_announced n k choose dfuel m Ha) as Hd.
  destruct (drain choose dfuel m) as [[res| |] m']; cbn [snd] in *; try exact Hd.
  destruct m' as [sols active mb bufs clk log]. destruct Hd as [rest Hl].
  simpl in *. subst log. eexists. reflexivity.
Qed.

(** Parameters that break the precondition are not rejected. With
    [n = 0] and [k = 1] the master broadcasts them and only then fails,
    in the search; with [n = 4] and [k = 5] it broadcasts them, hands
    out no work, sends the termination message and returns nothing. *)
Lemma bad_parameters_are_broadcast :
  master_main 0 1 1 (fun t => t) (fun _ => calm) 100 calm 100 10
  = (Stuck, Master [] 0 [Ready initial_ready []] [[]] 0 [Bcast 0; Bcast 1])
  /\ master_main 4 5 1 (fun t => t) (fun _ => calm) 100 calm 2000 10
     = (Done [], Master [] 0 [Ready initial_ready []] [[0; 0; 0; 0]] 0
                        [Bcast 4; Bcast 5; SendTerm 1]).
Proof. split; vm_compute; reflexivity. Qed.

(** ** The work units cover the search *)

Section Split.

Implicit Types (p q : list Z) (k c n m : Z).

Lemma flat_map_flat_map {A B C} (g : B -> list C) (h : A -> list B) (l : list A) :
  flat_map g (flat_map h l) = flat_map (fun x => flat_map g (h x)) l.
Proof.
  induction l as [|x l IH]; simpl; [reflexivity|].
  now rewrite flat_map_app, IH.
Qed.

Lemma ext_split n m k' (d : nat) : forall p k,
  Z.of_nat d = k' - k -> 0 <= k -> k' <= m -> m <= Z.of_nat (length p) ->
  ext n m (Z.to_nat (m - k)) p k
  = flat_map (fun q => ext n m (Z.to_nat (m - k')) (q ++ drop (Z.to_nat k') p) k')
             (ext n k' d p k).
Proof.
  induction d as [|d IH]; intros p k Hd Hk Hk' Hp.
  - replace k' with k by lia. simpl. rewrite app_nil_r.
    now rewrite take_drop.
  - replace (Z.to_nat (m - k)) with (S (Z.to_nat (m - (k + 1)))) by lia.
    simpl. rewrite flat_map_flat_map. apply flat_map_ext. intros c.
    destruct (safe p k c); [|reflexivity].
    rewrite (IH (<[Z.to_nat k := c]> p) (k + 1))
      by (rewrite ?length_insert; lia).
    apply flat_map_ext. intros q.
    rewrite drop_insert_lt by lia. reflexivity.
Qed.

Lemma solutions_split n k :
  0 <= k <= n -> solutions n = flat_map (worker_boards n k) (partials n k).
Proof.
  intros Hk. unfold solutions, partials, worker_boards.
  pose proof (ext_split n n k (Z.to_nat k) (replicate (Z.to_nat n) 0) 0) as H.
  rewrite !Z.sub_0_r in H. rewrite H by (rewrite ?length_replicate; lia).
  apply flat_map_ext. intros q.
  rewrite drop_replicate. do 3 f_equal. lia.
Qed.

Lemma partials_length n k q :
  0 <= k <= n -> In q (partials n k) -> Z.of_nat (length q) = k.
Proof.
  intros Hk Hin. unfold partials in Hin.
  apply in_ext in Hin; [|lia|lia|rewrite length_replicate; lia]. apply Hin.
Qed.

End Split.

(** ** A worker's answer to a work unit *)

Section Workers.

Variables n k : Z.
Variable workers : nat.
Variable wamb : nat -> Z -> Z.

Hypothesis Hn : 1 <= n < half.
Hypothesis Hk : 0 <= k < n.
Hypothesis Hsettles : forall r, settles (wamb r) k n.

Lemma uniform_bound {A} (l : list A) (P : A -> nat -> Prop) :
  (forall x, In x l -> exists F, forall f, (F <= f)%nat -> P x f) ->
  exists F, forall f, (F <= f)%nat -> forall x, In x l -> P x f.
Proof.
  induction l as [|x l IH]; intros H.
  - exists 0%nat. intros f _ x [].
  - destruct (H x (or_introl eq_refl)) as [F1 H1].
    destruct IH as [F2 H2]; [intros y Hy; apply H; now right|].
    exists (F1 `max` F2)%nat. intros f Hf y [<-|Hy].
    + apply H1. lia.
    + apply H2; [lia|exact Hy].
Qed.

Lemma worker_returns r q :
  In q (partials n k) ->
  exists F, forall wfuel, (F <= wfuel)%nat ->
    worker_cycle n k wamb wfuel r (q ++ replicate (Z.to_nat (n - k)) 0)
    = reply_of (concat (worker_boards n k q)).
Proof.
  intros Hq. apply partials_length in Hq; [|lia].
  destruct (search_returns worker_solution_func (wamb r) k n n Hn ltac:(lia)
              (q ++ replicate (Z.to_nat (n - k)) 0) []
              (concat (worker_boards n k q))) as [F HF].
  - rewrite length_app, length_replicate. lia.
  - apply Hsettles.
  - apply (fold_add_solution _ []).
  - exists F. intros wfuel Hw. unfold worker_cycle. rewrite (HF wfuel Hw).
    reflexivity.
Qed.

Lemma workers_fuel :
  exists F, forall wfuel, (F <= wfuel)%nat ->
    forall r q, In q (partials n k) -> (r < workers)%nat ->
      worker_cycle n k wamb wfuel r (q ++ replicate (Z.to_nat (n - k)) 0)
      = reply_of (concat (worker_boards n k q)).
Proof.
  destruct (uniform_bound (list_prod (seq 0 workers) (partials n k))
              (fun rq f =>
                 worker_cycle n k wamb f (fst rq)
                   (snd rq ++ replicate (Z.to_nat (n - k)) 0)
                 = reply_of (concat (worker_boards n k (snd rq))))) as [F HF].
  - intros [r q] Hin. apply in_prod_iff in Hin. apply worker_returns, Hin.
  - exists F. intros wfuel Hw r q Hq Hr.
    apply (HF wfuel Hw (r, q)). apply in_prod_iff. split; [|exact Hq].
    apply in_seq. lia.
Qed.

End Workers.

(** ** The slots of the workers *)

Section Slots.

Variables n k : Z.

Lemma reply_of_busy flat : is_busy (reply_of flat) = true.
Proof. destruct flat; reflexivity. Qed.

Lemma busy_cons x (mb : list mail) :
  busy (x :: mb) = (if is_busy x then 1 else 0) + busy mb.
Proof. reflexivity. Qed.

Lemma units_cons s (slots : list slot) :
  units (s :: slots) = option_list (unit_of s) ++ units slots.
Proof. unfold units. simpl. destruct (unit_of s); reflexivity. Qed.

Lemma busy_slots (slots : list slot) :
  busy (mail_of n k <$> slots) = Z.of_nat (length (units slots)).
Proof.
  induction slots as [|s slots IH]; [reflexivity|].
  rewrite fmap_cons, busy_cons, units_cons, length_app, IH.
  destruct s as [|q|]; cbn [mail_of unit_of option_list length].
  - change (is_busy (Ready initial_ready [])) with false. simpl. lia.
  - rewrite reply_of_busy. simpl length. lia.
  - change (is_busy Idle) with false. simpl. lia.
Qed.

Lemma has_mail_slot (slots : list slot) r s :
  slots !! r = Some s -> has_mail (mail_of n k <$> slots) r = live s.
Proof.
  intros H. unfold has_mail. rewrite list_lookup_fmap, H. simpl.
  destruct s as [|q|]; try reflexivity.
  simpl. destruct (concat (worker_boards n k q)); reflexivity.
Qed.

Lemma units_insert (slots : list slot) : forall r s s',
  slots !! r = Some s ->
  units (<[r := s']> slots) ++ option_list (unit_of s)
  ≡ₚ units slots ++ option_list (unit_of s').
Proof.
  induction slots as [|x slots IH]; intros [|r] s s' H; simpl in *;
    try discriminate.
  - inversion H; subst x. unfold units. simpl.
    destruct (unit_of s) as [q|]; destruct (unit_of s') as [q'|]; simpl;
      rewrite <- ?Permutation_cons_append, ?app_nil_r;
      try reflexivity.
    apply perm_swap.
  - unfold units in *. simpl. specialize (IH r s s' H).
    destruct (unit_of x) as [qx|]; simpl; [|exact IH].
    now apply perm_skip.
Qed.

Lemma pending_slot (slots : list slot) :
  units slots <> [] -> exists r q, slots !! r = Some (Pending q).
Proof.
  induction slots as [|s slots IH]; intros H; [now elim H|].
  destruct s as [|q|].
  - destruct IH as (r & q & Hr); [exact H|]. now exists (S r), q.
  - now exists 0%nat, q.
  - destruct IH as (r & q & Hr); [exact H|]. now exists (S r), q.
Qed.

Lemma live_count_insert (slots : list slot) : forall r s,
  slots !! r = Some s -> live s = true ->
  S (length (List.filter live (<[r := Spent]> slots)))
  = length (List.filter live slots).
Proof.
  induction slots as [|x slots IH]; intros [|r] s H Hl; simpl in *;
    try discriminate.
  - inversion H; subst x. now rewrite Hl.
  - specialize (IH r s H Hl). destruct (live x); simpl; lia.
Qed.

End Slots.

(** ** The master's run, followed through its slots *)

Section Dispatching.

Variables n k : Z.
Variable workers : nat.
Variable choose : nat -> nat.
Variable wamb : nat -> Z -> Z.
Variable wfuel : nat.

Hypothesis Hn : 1 <= n < half.
Hypothesis Hk : 0 < k < n.
Hypothesis Hworkers : Z.of_nat workers < modulus.
Hypothesis Hfuel :
  forall r q, In q (partials n k) -> (r < workers)%nat ->
    worker_cycle n k wamb wfuel r (q ++ replicate (Z.to_nat (n - k)) 0)
    = reply_of (concat (worker_boards n k q)).

Local Abbreviation recieve := (recieve_solution choose).
Local Abbreviation dispatch := (master_solution_func n k choose wamb wfuel).
Local Abbreviation follows := (tracked n k workers).

Lemma boards_snoc recv (q : list Z) :
  concat (flat_map (worker_boards n k) (recv ++ [q]))
  = concat (flat_map (worker_boards n k) recv) ++ concat (worker_boards n k q).
Proof. rewrite flat_map_app, concat_app. simpl. now rewrite app_nil_r. Qed.

Lemma recieve_tracked m slots recv r m' :
  follows m slots recv -> recieve m = Some (r, m') ->
  exists s,
    slots !! r = Some s /\ live s = true
    /\ follows m' (<[r := Spent]> slots) (recv ++ option_list (unit_of s))
    /\ m_pos m' = m_pos m.
Proof.
  intros (T1 & T2 & T3 & T4 & T5) Hr.
  pose proof (proj1 (recieve_counted workers choose Hworkers m r m' T5 Hr)) as Hc.
  destruct m as [sols active mb bufs clk log]. simpl in *.
  apply recieve_solution_inv in Hr. destruct Hr as (status & batch & Hmb & ->).
  rewrite T1, list_lookup_fmap in Hmb.
  destruct (slots !! r) as [s|] eqn:Hs; [|discriminate].
  simpl in Hmb. inversion Hmb as [Hmail]. clear Hmb.
  exists s. split; [reflexivity|].
  assert (Hbox : <[r := Idle]> mb = mail_of n k <$> <[r := Spent]> slots).
  { rewrite T1, list_fmap_insert. reflexivity. }
  destruct s as [|q|]; simpl in Hmail.
  - inversion Hmail; subst status batch. split; [reflexivity|].
    split; [|reflexivity].
    change (initial_ready =? solution_ready) with false in *.
    change (initial_ready =? no_solution_ready) with false in *.
    cbv iota zeta in *.
    unfold tracked. cbn [m_mailbox m_solutions m_pos unit_of].
    change (option_list None) with (@nil (list Z)).
    rewrite app_nil_r.
    split; [exact Hbox|]. split; [exact T2|]. split; [exact T3|].
    split; [exact T4|exact Hc].
  - split; [reflexivity|]. split; [|reflexivity].
    unfold tracked. cbn [m_mailbox m_solutions m_pos unit_of].
    change (option_list (Some q)) with [q].
    rewrite boards_snoc.
    split; [exact Hbox|].
    destruct (concat (worker_boards n k q)) as [|x l] eqn:Hflat;
      simpl in Hmail; inversion Hmail; subst status batch.
    + change (no_solution_ready =? solution_ready) with false in *.
      cbv iota zeta in *. rewrite app_nil_r.
      split; [exact T2|]. split; [exact T3|]. split; [exact T4|exact Hc].
    + change (solution_ready =? solution_ready) with true in *.
      cbv iota zeta in *. unfold add_solution. rewrite T2.
      split; [reflexivity|]. split; [exact T3|]. split; [exact T4|exact Hc].
  - discriminate.
Qed.

Lemma dispatch_tracked m slots recv q :
  follows m slots recv ->
  Forall (fun s => live s = true) slots -> slots <> [] -> length slots = workers ->
  In q (partials n k) ->
  exists m' r s,
    dispatch q m = Some m' /\ slots !! r = Some s
    /\ follows m' (<[r := Pending q]> slots) (recv ++ option_list (unit_of s)).
Proof.
  intros Ht Hlive Hne Hlen Hq.
  assert (Hmail : has_mail (m_mailbox m) 0 = true).
  { destruct Ht as (T1 & _). rewrite T1.
    destruct slots as [|s0 slots']; [now elim Hne|].
    rewrite (has_mail_slot n k (s0 :: slots') 0 s0) by reflexivity.
    now inversion Hlive. }
  destruct m as [sols active mb bufs clk log].
  destruct (recieve_solution_some choose sols active mb bufs clk log 0 Hmail)
    as (r & m1 & Hr).
  destruct (recieve_tracked _ slots recv r m1 Ht Hr) as (s & Hs & _ & Ht1 & Hpos).
  pose proof Ht1 as (T1 & T2 & T3 & T4 & T5).
  assert (Hrw : (r < workers)%nat).
  { apply lookup_lt_Some in Hs. lia. }
  assert (Hd : exists m', dispatch q (Master sols active mb bufs clk log) = Some m').
  { unfold master_solution_func. rewrite Hr. destruct m1. eexists. reflexivity. }
  destruct Hd as [m' Hd]. exists m', r, s. split; [exact Hd|]. split; [exact Hs|].
  pose proof (dispatch_counted n k workers choose wamb wfuel Hworkers q _ m'
                ltac:(destruct Ht as (_ & _ & _ & _ & Hc); exact Hc) Hd) as Hc.
  apply dispatch_inv in Hd. destruct Hd as (r' & m1' & Hr' & ->).
  rewrite Hr in Hr'. inversion Hr'; subst r' m1'. clear Hr'.
  destruct (lookup_lt_is_Some_2 (m_pos m1) r) as [b Hb]; [lia|].
  assert (Hbz : drop (Z.to_nat k) b = replicate (Z.to_nat (n - k)) 0).
  { rewrite List.Forall_forall in T4. apply T4.
    apply (proj1 (list_elem_of_In _ _)), (proj2 (list_elem_of_lookup _ _)).
    now exists r. }
  assert (Hql : length q = Z.to_nat k).
  { apply partials_length in Hq; lia. }
  assert (Hposr : q ++ drop (length q) (default [] (m_pos m1 !! r))
                  = q ++ replicate (Z.to_nat (n - k)) 0).
  { rewrite Hb. simpl. now rewrite Hql, Hbz. }
  rewrite Hposr in *.
  unfold tracked. simpl.
  split; [|split; [exact T2|split; [|split; [|exact Hc]]]].
  - rewrite T1, (Hfuel r q Hq Hrw).
    rewrite <- (list_insert_insert_eq slots r (Pending q) Spent).
    rewrite (list_fmap_insert (mail_of n k) (<[r := Spent]> slots) r (Pending q)).
    reflexivity.
  - rewrite length_insert. exact T3.
  - apply Forall_insert; [exact T4|].
    rewrite drop_app_length' by (symmetry; exact Hql). reflexivity.
Qed.

Lemma fold_dispatch (units_left : list (list Z)) :
  forall m slots recv sent,
    follows m slots recv ->
    Forall (fun s => live s = true) slots -> slots <> [] -> length slots = workers ->
    recv ++ units slots ≡ₚ sent ->
    (forall q, In q units_left -> In q (partials n k)) ->
    exists m' slots' recv',
      fold_cb dispatch units_left m = Some m'
      /\ follows m' slots' recv'
      /\ length slots' = workers
      /\ recv' ++ units slots' ≡ₚ sent ++ units_left.
Proof.
  induction units_left as [|q rest IH]; intros m slots recv sent Ht Hlive Hne Hlen Hp Hin.
  - exists m, slots, recv. rewrite app_nil_r. simpl. auto.
  - destruct (dispatch_tracked m slots recv q Ht Hlive Hne Hlen (Hin q (or_introl eq_refl)))
      as (m1 & r & s & Hd & Hs & Ht1).
    destruct (IH m1 (<[r := Pending q]> slots) (recv ++ option_list (unit_of s))
                 (sent ++ [q])) as (m' & slots' & recv' & G1 & G2 & G3 & G4).
    + exact Ht1.
    + apply Forall_insert; [exact Hlive|reflexivity].
    + intros E. apply (f_equal length) in E. rewrite length_insert in E.
      destruct slots; [now elim Hne|discriminate].
    + now rewrite length_insert.
    + rewrite <- app_assoc, (Permutation_app_comm (option_list (unit_of s))).
      rewrite (units_insert slots r s (Pending q) Hs). simpl.
      rewrite app_assoc. now rewrite Hp.
    + intros q' Hq'. apply Hin. now right.
    + exists m', slots', recv'. simpl. rewrite Hd.
      split; [exact G1|]. split; [exact G2|]. split; [exact G3|].
      rewrite G4, <- app_assoc. reflexivity.
Qed.

Lemma drain_tracked (dfuel : nat) : forall m slots recv,
  follows m slots recv ->
  (length (List.filter live slots) < dfuel)%nat ->
  exists m' slots' recv',
    drain choose dfuel m = (Done [], m')
    /\ follows m' slots' recv' /\ units slots' = []
    /\ recv' ≡ₚ recv ++ units slots.
Proof.
  induction dfuel as [|dfuel IH]; intros m slots recv Ht Hlt; [lia|].
  pose proof Ht as (T1 & _ & _ & _ & (C1 & _)).
  rewrite T1, busy_slots in C1.
  simpl. destruct (Z.ltb_spec 0 (m_active_workers m)) as [Hpos|Hzero].
  - assert (Hne : units slots <> []).
    { intros E. rewrite E in C1. simpl in C1. lia. }
    destruct (pending_slot slots Hne) as (r0 & q0 & Hr0).
    assert (Hmail : has_mail (m_mailbox m) r0 = true).
    { rewrite T1, (has_mail_slot n k slots r0 _ Hr0). reflexivity. }
    destruct m as [sols active mb bufs clk log].
    destruct (recieve_solution_some choose sols active mb bufs clk log r0 Hmail)
      as (r & m1 & Hr).
    rewrite Hr.
    destruct (recieve_tracked _ slots recv r m1 Ht Hr) as (s & Hs & Hl & Ht1 & _).
    destruct (IH m1 (<[r := Spent]> slots) (recv ++ option_list (unit_of s)) Ht1)
      as (m' & slots' & recv' & G1 & G2 & G3 & G4).
    + pose proof (live_count_insert slots r s Hs Hl). lia.
    + exists m', slots', recv'. split; [exact G1|]. split; [exact G2|].
      split; [exact G3|]. rewrite G4.
      rewrite <- app_assoc, (Permutation_app_comm (option_list (unit_of s))).
      rewrite (units_insert slots r s Spent Hs). simpl. now rewrite app_nil_r.
  - exists m, slots, recv. split; [reflexivity|]. split; [exact Ht|].
    assert (E : units slots = []).
    { destruct (units slots); [reflexivity|]. simpl in C1. lia. }
    split; [exact E|]. now rewrite E, app_nil_r.
Qed.

Lemma boot_tracked : follows (boot n k workers) (replicate workers Fresh) [].
Proof.
  unfold tracked, boot. simpl.
  split; [now rewrite fmap_replicate|]. split; [reflexivity|].
  split; [apply length_replicate|]. split; [|apply boot_counted].
  apply Forall_replicate. rewrite drop_replicate. f_equal. lia.
Qed.

End Dispatching.

(** ** The master returns the boards of the sequential solver *)

Lemma sequential_boards (n : Z) (samb : Z -> Z) (sfuel : nat) (found : list (list Z)) :
  1 <= n < half ->
  nqueens_by_level record_solution samb 0 n sfuel (replicate (Z.to_nat n) 0) []
  = Returned found ->
  found = solutions n.
Proof.
  intros Hn Hr.
  destruct (search_exhausts record_solution samb 0 n n Hn ltac:(lia)
              (replicate (Z.to_nat n) 0) [] (solutions n))
    as (p & vo & ix & i & j & G1 & _).
  - apply zero_board_length. lia.
  - replace (n - 0) with n by lia. apply (fold_record_solution _ []).
  - apply (world_after _ _ _ _ _ _ sfuel found G1); [reflexivity|discriminate|exact Hr].
Qed.

(** Inside the range: for a split level [0 < k < n] and any number
    [workers >= 1] of workers, whichever waiting message each receive
    of the master takes ([choose]), [master_main] returns the
    concatenation of a rearrangement of the boards that the sequential
    search over rows [[0,n)] reports, provided that enough steps are
    allowed to the searches and that the last inner [while] of each
    search meets a small cell ([settles], see C4). *)
Theorem master_collects_all_solutions (n k : Z) (workers : nat)
    (choose : nat -> nat) (wamb : nat -> Z -> Z) (mamb : Z -> Z) :
  1 <= n < half -> 0 < k < n ->
  (1 <= workers)%nat -> Z.of_nat workers < modulus ->
  settles mamb 0 n -> (forall r, settles (wamb r) k n) ->
  exists wfuel0, forall wfuel, (wfuel0 <= wfuel)%nat ->
  exists fuel0, forall fuel dfuel, (fuel0 <= fuel)%nat -> (workers < dfuel)%nat ->
  exists boards m,
    master_main n k workers choose wamb wfuel mamb fuel dfuel
    = (Done (concat boards), m)
    /\ boards ≡ₚ solutions n
    /\ (forall samb sfuel found,
          nqueens_by_level record_solution samb 0 n sfuel
            (replicate (Z.to_nat n) 0) [] = Returned found ->
          boards ≡ₚ found).
Proof.
  intros Hn Hk Hw1 Hw2 Hm Hws.
  destruct (workers_fuel n k workers wamb Hn ltac:(lia) Hws) as [wfuel0 Hwf].
  exists wfuel0. intros wfuel Hwfuel.
  specialize (Hwf wfuel Hwfuel).
  destruct (fold_dispatch n k workers choose wamb wfuel Hk Hw2 Hwf
              (partials n k) (boot n k workers) (replicate workers Fresh) [] [])
    as (m1 & slots1 & recv1 & F1 & F2 & F3 & F4).
  - apply boot_tracked; assumption.
  - apply Forall_replicate. reflexivity.
  - destruct workers; [lia|discriminate].
  - apply length_replicate.
  - simpl. clear. induction workers as [|w IH]; [reflexivity|exact IH].
  - auto.
  - destruct (search_returns (master_solution_func n k choose wamb wfuel) mamb 0 k n
                Hn ltac:(lia) (replicate (Z.to_nat n) 0) (boot n k workers) m1)
      as [fuel0 Hrun].
    + apply zero_board_length. lia.
    + exact Hm.
    + rewrite Z.sub_0_r. exact F1.
    + exists fuel0. intros fuel dfuel Hfuel Hdfuel.
      destruct (drain_tracked n k workers choose Hw2 dfuel m1 slots1 recv1 F2)
        as (m2 & slots2 & recv2 & D1 & D2 & D3 & D4).
      { pose proof (filter_length live slots1). lia. }
      assert (Hperm : recv2 ≡ₚ partials n k).
      { rewrite D4, F4. reflexivity. }
      assert (Hboards : flat_map (worker_boards n k) recv2 ≡ₚ solutions n).
      { rewrite (solutions_split n k) by lia. now rewrite Hperm. }
      destruct m2 as [sols2 a2 mb2 b2 c2 l2].
      exists (flat_map (worker_boards n k) recv2). eexists.
      split; [|split; [exact Hboards|]].
      * unfold master_main. rewrite (Hrun fuel Hfuel), D1.
        destruct D2 as (_ & T2 & _). simpl in T2. subst sols2. reflexivity.
      * intros samb sfuel found Hfound.
        rewrite (sequential_boards n samb sfuel found Hn Hfound). exact Hboards.
Qed.

(** ** The split levels [k = 0] and [k = n] *)

Section SplitBounds.

Variable n : Z.
Variable workers : nat.
Variable choose : nat -> nat.
Variable wamb : nat -> Z -> Z.
Variable wfuel : nat.

(** With [k = 0] the search of the master has [max_level = 0]: the
    test of line 78 compares with [max_level-1], which is [UINT_MAX],
    and the first write goes to a block of no cells. *)
Lemma split_at_zero_never_done mamb fuel dfuel res :
  fst (master_main n 0 workers choose wamb wfuel mamb fuel dfuel) <> Done res.
Proof.
  unfold master_main, nqueens_by_level.
  destruct fuel as [|fuel]; [discriminate|].
  rewrite run_S. unfold enter, step.
  change (to_uint (to_int 0) <=? to_uint (0 - 1)) with true.
  cbv iota. change (seqZ 0 0) with (@nil Z).
  change (store (mamb <$> []) (to_int 0) 0) with (@None (list Z)).
  discriminate.
Qed.

Hypothesis Hn : 1 <= n < half.

Local Abbreviation no_batch :=
  (fun x : mail => match x with Ready _ b => b = [] | _ => True end).

Local Abbreviation barren m :=
  (m_solutions m = [] /\ Forall no_batch (m_mailbox m)
   /\ Forall (fun b : list Z => Z.of_nat (length b) = n) (m_pos m)
   /\ length (m_pos m) = length (m_mailbox m)).

Lemma worker_cycle_empty_range r (pos : list Z) :
  Z.of_nat (length pos) = n -> no_batch (worker_cycle n n wamb wfuel r pos).
Proof.
  intros Hp. unfold worker_cycle.
  pose proof (empty_range_world worker_solution_func (wamb r)
                n n pos [] wfuel ltac:(lia) ltac:(lia) Hp) as H.
  destruct (nqueens_by_level _ _ _ _ _ _ _) as [s|sols|w|w]; try exact I.
  simpl in H. subst sols. reflexivity.
Qed.

Lemma recieve_barren m r m' :
  barren m -> recieve_solution choose m = Some (r, m') ->
  barren m' /\ (r < length (m_mailbox m))%nat /\ m_pos m' = m_pos m
  /\ length (m_mailbox m') = length (m_mailbox m).
Proof.
  destruct m as [sols active mb bufs clk log]. simpl.
  intros (B1 & B2 & B3 & B4) Hr.
  apply recieve_solution_inv in Hr. destruct Hr as (status & batch & Hmb & ->).
  pose proof (Forall_lookup_1 _ _ _ _ B2 Hmb) as Hb. simpl in Hb. subst batch sols.
  simpl. rewrite length_insert.
  split; [|split; [apply lookup_lt_Some in Hmb; exact Hmb|split; reflexivity]].
  split; [destruct (status =? solution_ready); reflexivity|].
  split; [apply Forall_insert; [exact B2|exact I]|]. split; [exact B3|exact B4].
Qed.

Lemma dispatch_barren solution m m' :
  (length solution <= Z.to_nat n)%nat ->
  barren m -> master_solution_func n n choose wamb wfuel solution m = Some m' ->
  barren m'.
Proof.
  destruct m as [sols active mb bufs clk log]. intros Hlen Hb Hd.
  apply dispatch_inv in Hd. destruct Hd as (r & m1 & Hr & ->).
  destruct (recieve_barren _ _ _ Hb Hr) as ((B1 & B2 & B3 & B4) & Hrl & Hpos & Hml).
  simpl in Hrl, Hml.
  destruct (lookup_lt_is_Some_2 (m_pos m1) r) as [b Hbuf]; [lia|].
  pose proof (Forall_lookup_1 _ _ _ _ B3 Hbuf) as Hbl. simpl in Hbl.
  assert (Hp : Z.of_nat (length (solution ++ drop (length solution)
                                            (default [] (m_pos m1 !! r)))) = n).
  { rewrite Hbuf. simpl. rewrite length_app, length_drop. lia. }
  simpl. rewrite !length_insert.
  split; [exact B1|]. split; [|split; [|exact B4]].
  - apply Forall_insert; [exact B2|]. apply worker_cycle_empty_range, Hp.
  - apply Forall_insert; [exact B3|exact Hp].
Qed.

Lemma drain_barren dfuel : forall m, barren m -> barren (snd (drain choose dfuel m)).
Proof.
  induction dfuel as [|dfuel IH]; intros m Hb; simpl; [exact Hb|].
  destruct (0 <? m_active_workers m); [|exact Hb].
  destruct (recieve_solution choose m) as [[r m']|] eqn:Hr; [|exact Hb].
  apply IH. exact (proj1 (recieve_barren _ _ _ Hb Hr)).
Qed.

(** With [k = n] every worker runs the search with
    [start_level = max_level]: no board is ever sent back, and the
    master, when it is done, returns nothing. *)
Lemma split_at_n_returns_nothing mamb fuel dfuel res :
  fst (master_main n n workers choose wamb wfuel mamb fuel dfuel) = Done res ->
  res = [].
Proof.
  unfold master_main.
  assert (Hboot : barren (boot n n workers)).
  { simpl. split; [reflexivity|]. split; [apply Forall_replicate; reflexivity|].
    split; [|now rewrite !length_replicate].
    apply Forall_replicate. rewrite length_replicate. lia. }
  pose proof (run_world_invariant_len (master_solution_func n n choose wamb wfuel)
                mamb 0 n (fun m => barren m)
                (fun sol m m' Hl Hm Hd => dispatch_barren sol m m' Hl Hm Hd)
                fuel (enter mamb 0 n (replicate (Z.to_nat n) 0) (boot n n workers))
                Hboot) as Hb.
  unfold nqueens_by_level.
  destruct (run _ _ _ _ _ _) as [s|m|m|m]; try discriminate.
  simpl in Hb. pose proof (drain_barren dfuel m Hb) as Hd.
  destruct (drain choose dfuel m) as [[res'| |] m']; try discriminate.
  destruct m' as [sols active mb bufs clk log]. simpl in *.
  destruct Hd as (-> & _). intros H. now inversion H.
Qed.

End SplitBounds.

Lemma solutions_4_boards : solutions 4 = [[1; 3; 0; 2]; [2; 0; 3; 1]].
Proof. vm_compute. reflexivity. Qed.

(** C2. The master loses the solutions at both ends of the range
    [0 <= k <= n] of split levels, for every board size [n]:

    - with [k = 0] its search is called with [max_level = 0], the
      unsigned [max_level-1] of line 78 wraps and [master_main] never
      returns;
    - with [k = n] every worker is given a whole board and searches
      with [start_level = max_level] (C5): no worker ever sends a
      board back, and [master_main], when it returns, returns the
      empty sequence, whatever the sequential search finds. *)
Theorem master_loses_boards_at_split_bounds (n : Z) (workers : nat)
    (choose : nat -> nat) (wamb : nat -> Z -> Z) (wfuel : nat) (mamb : Z -> Z)
    (fuel dfuel : nat) (res : list Z) :
  1 <= n < half ->
  fst (master_main n 0 workers choose wamb wfuel mamb fuel dfuel) <> Done res
  /\ (fst (master_main n n workers choose wamb wfuel mamb fuel dfuel) = Done res ->
      res = []).
Proof.
  intros Hn. split.
  - apply split_at_zero_never_done.
  - apply split_at_n_returns_nothing. exact Hn.
Qed.

(** For [n = 4] the sequential search finds two boards; the master
    with [k = 4] and one worker returns none (in the run shown the
    cell [index[4]] read by the worker holds 3). *)
Lemma master_loses_boards_at_split_bounds_witness :
  solutions 4 = [[1; 3; 0; 2]; [2; 0; 3; 1]]
  /\ fst (master_main 4 4 1 (fun t => t)
            (fun _ a => if a =? 4 then 3 else 0) 100 calm 1000 10) = Done []
  /\ fst (master_main 4 0 1 (fun t => t)
            (fun _ a => if a =? 4 then 3 else 0) 100 calm 1000 10) <> Done []
  /\ (fst (master_main 4 4 1 (fun t => t)
             (fun _ a => if a =? 4 then 3 else 0) 100 calm 1000 10) = Done [] ->
      @nil Z = []).
Proof.
  split; [exact solutions_4_boards|]. split; [vm_compute; reflexivity|].
  apply (master_loses_boards_at_split_bounds 4 1 (fun t => t)
           (fun _ a => if a =? 4 then 3 else 0) 100 calm 1000 10 []).
  unfold half. lia.
Defined.

Lemma master_collects_all_solutions_witness :
  exists wfuel0, forall wfuel, (wfuel0 <= wfuel)%nat ->
  exists fuel0, forall fuel dfuel, (fuel0 <= fuel)%nat -> (2 < dfuel)%nat ->
  exists boards m,
    master_main 4 1 2 (fun t => t) (fun _ => calm) wfuel calm fuel dfuel
    = (Done (concat boards), m)
    /\ boards ≡ₚ solutions 4
    /\ (forall samb sfuel found,
          nqueens_by_level record_solution samb 0 4 sfuel
            (replicate (Z.to_nat 4) 0) [] = Returned found ->
          boards ≡ₚ found).
Proof.
  apply (master_collects_all_solutions 4 1 2 (fun t => t) (fun _ => calm) calm).
  - unfold half. lia.
  - lia.
  - lia.
  - reflexivity.
  - apply calm_settles. lia.
  - intros r. exists (-1). unfold calm. lia.
Defined.

(** * Further properties of the search

    What follows holds for [nqueens_by_level] as [nqueens.cpp] and as
    [nqueens_backup.cpp] have it: the two differ in the reads of [pos]
    only, written [pos[i]] in the first and [pos.at(i)] in the second,
    and a read outside [pos] ends the run of the machine ([Crashed]) in
    both readings. *)

(** ** A run with a callback that may block *)

Section Lifted.

Context {W : Type}.
Variable success_func : list Z -> W -> option W.
Variable amb : Z -> Z.
Variables start_level max_level : Z.

Local Abbreviation fstep := (step success_func amb start_level max_level).
Local Abbreviation frun := (run success_func amb start_level max_level).
Local Abbreviation lstep := (step (lift_cb success_func) amb start_level max_level).
Local Abbreviation lrun := (run (lift_cb success_func) amb start_level max_level).

Lemma step_lift s :
  match fstep s with
  | Hung _ => True
  | o => lstep (lift_frame s) = lift_outcome o
  end.
Proof.
  destruct s as [p vo ix sz k i j fl ss l w]. unfold lift_frame. simpl.
  destruct l; unfold step; simpl.
  - destruct (to_uint k <=? to_uint (max_level - 1)).
    + destruct (store ix k 0); reflexivity.
    + destruct (load_strict p 0); reflexivity.
  - destruct (negb (fl =? 0)); [reflexivity|].
    destruct (attack i j k (load amb ix k)); [reflexivity|].
    destruct (i >=? k - 1).
    + destruct (store p k (to_uint (load amb ix k))) as [p'|]; [|reflexivity].
      destruct (to_uint k =? to_uint (max_level - 1)).
      * unfold lift_cb. destruct (success_func _ w); [reflexivity|exact I].
      * destruct (store ix (k + 1) 0); [|reflexivity].
        destruct (load_strict p' 0); reflexivity.
    + destruct (load_strict p (i + 1)); reflexivity.
  - destruct (load amb ix k >=? sz - 1); [reflexivity|].
    unfold after_scan.
    destruct (negb (fl =? 1)).
    + destruct (store ix k (load amb ix k + 1)); [|reflexivity].
      destruct (load_strict p 0); reflexivity.
    + destruct (load_strict p 0); reflexivity.
Qed.

Lemma run_lift fuel : forall s,
  match frun fuel s with
  | Hung _ => True
  | o => lrun fuel (lift_frame s) = lift_outcome o
  end.
Proof.
  induction fuel as [|fuel IH]; intros s; [reflexivity|].
  rewrite !run_S. pose proof (step_lift s) as H.
  destruct (fstep s) as [s'|r|c|h].
  - rewrite H. apply IH.
  - rewrite H. reflexivity.
  - rewrite H. reflexivity.
  - exact I.
Qed.

Lemma fold_lift_blocked (l : list (list Z)) :
  fold_cb (lift_cb success_func) l None = Some None.
Proof. induction l as [|sol l IH]; [reflexivity|exact IH]. Qed.

Lemma fold_lift (l : list (list Z)) : forall w,
  fold_cb (lift_cb success_func) l (Some w) = Some (fold_cb success_func l w).
Proof.
  induction l as [|sol l IH]; intros w; [reflexivity|].
  simpl. destruct (success_func sol w) as [w1|]; [apply IH|apply fold_lift_blocked].
Qed.

End Lifted.

(** ** Two callers of the same search *)

Section Together.

Context {W1 W2 : Type}.
Variable f1 : list Z -> W1 -> option W1.
Variable f2 : list Z -> W2 -> option W2.
Variable amb : Z -> Z.
Variables start_level max_level : Z.
Variable R : W1 -> W2 -> Prop.

Hypothesis Hcall : forall sol w1 w1' w2,
  R w1 w2 -> f1 sol w1 = Some w1' -> exists w2', f2 sol w2 = Some w2' /\ R w1' w2'.

(** The steps of a search do not depend on the state of the caller:
    as long as the calls of [f1] return, the search with [f2] takes
    the same steps. *)
Lemma step_together s w2 :
  R (st_world s) w2 ->
  match step f1 amb start_level max_level s with
  | Running s' =>
      exists w2',
        step f2 amb start_level max_level (with_world s w2)
        = Running (with_world s' w2')
        /\ R (st_world s') w2'
  | o => world_of o = st_world s
  end.
Proof.
  destruct s as [p vo ix sz k i j fl ss l w]. unfold with_world. simpl. intros HR.
  destruct l; unfold step; simpl.
  - destruct (to_uint k <=? to_uint (max_level - 1)).
    + destruct (store ix k 0); [|reflexivity]. exists w2. now split.
    + destruct (load_strict p 0); [|reflexivity]. exists w2. now split.
  - destruct (negb (fl =? 0)); [reflexivity|].
    destruct (attack i j k (load amb ix k)); [exists w2; now split|].
    destruct (i >=? k - 1).
    + destruct (store p k (to_uint (load amb ix k))) as [p'|]; [|reflexivity].
      destruct (to_uint k =? to_uint (max_level - 1)).
      * destruct (f1 _ w) as [w1'|] eqn:Hf1; [|reflexivity].
        destruct (Hcall _ _ _ _ HR Hf1) as (w2' & Hf2 & HR').
        exists w2'. rewrite Hf2. now split.
      * destruct (store ix (k + 1) 0); [|reflexivity].
        destruct (load_strict p' 0); [|reflexivity]. exists w2. now split.
    + destruct (load_strict p (i + 1)); [|reflexivity]. exists w2. now split.
  - destruct (load amb ix k >=? sz - 1); [exists w2; now split|].
    unfold after_scan.
    destruct (negb (fl =? 1)).
    + destruct (store ix k (load amb ix k + 1)); [|reflexivity].
      destruct (load_strict p 0); [|reflexivity]. exists w2. now split.
    + destruct (load_strict p 0); [|reflexivity]. exists w2. now split.
Qed.

Lemma run_together fuel : forall s w2,
  R (st_world s) w2 ->
  exists fuel',
    (fuel' <= fuel)%nat
    /\ R (world_of (run f1 amb start_level max_level fuel s))
         (world_of (run f2 amb start_level max_level fuel' (with_world s w2))).
Proof.
  induction fuel as [|fuel IH]; intros s w2 HR.
  - exists 0%nat. split; [lia|exact HR].
  - rewrite run_S. pose proof (step_together s w2 HR) as H.
    destruct (step f1 amb start_level max_level s) as [s'|r|c|h].
    + destruct H as (w2' & Hs & HR').
      destruct (IH s' w2' HR') as (fuel' & Hle & Hw).
      exists (S fuel'). split; [lia|]. rewrite run_S, Hs. exact Hw.
    + exists 0%nat. split; [lia|]. simpl in *. now rewrite H.
    + exists 0%nat. split; [lia|]. simpl in *. now rewrite H.
    + exists 0%nat. split; [lia|]. simpl in *. now rewrite H.
Qed.

End Together.

Lemma fold_cb_snoc {W} (f : list Z -> W -> option W) (l : list (list Z)) sol :
  forall w w1 w2,
    fold_cb f l w = Some w1 -> f sol w1 = Some w2 ->
    fold_cb f (l ++ [sol]) w = Some w2.
Proof.
  induction l as [|x l IH]; intros w w1 w2 Hl Hs; simpl in *.
  - inversion Hl; subst w1. now rewrite Hs.
  - destruct (f x w) as [w'|]; [|discriminate]. exact (IH w' w1 w2 Hl Hs).
Qed.

(** ** After the last board *)

Section Flagged.

Context {W : Type}.
Variable success_func : list Z -> W -> option W.
Variable amb : Z -> Z.
Variables start_level max_level : Z.

Local Abbreviation fstep := (step success_func amb start_level max_level).
Local Abbreviation frun := (run success_func amb start_level max_level).
Local Abbreviation fstar := (star success_func amb start_level max_level).

(** A run that has been followed up to a frame is still running
    before it gets there. *)
Lemma star_running s s' :
  fstar s s' ->
  exists a, (forall fuel, frun (a + fuel) s = frun fuel s')
            /\ (forall fuel, (fuel <= a)%nat -> exists s'', frun fuel s = Running s'').
Proof.
  intros Hs. destruct (star_run _ _ _ _ _ _ Hs) as [a Ha].
  exists a. split; [exact Ha|]. intros fuel Hle.
  destruct (frun fuel s) as [s''|r|c|h] eqn:Hr; [now exists s''| | |].
  all: pose proof (run_final_stable _ _ _ _ fuel s _ Hr I (a + 0)%nat ltac:(lia)) as H;
    rewrite Ha in H; discriminate.
Qed.

(** Once [flag] is set, a step neither writes nor calls the callback,
    and it reads [pos[0]] only. *)
Lemma flagged_step_safe s :
  st_flag s = 1 -> st_pc s <> AtInit -> 0 < Z.of_nat (length (st_pos s)) ->
  match fstep s with
  | Running s' =>
      st_flag s' = 1 /\ st_pc s' <> AtInit /\ st_pos s' = st_pos s
      /\ st_world s' = st_world s
  | Returned w => w = st_world s
  | _ => False
  end.
Proof.
  destruct s as [p vo ix sz k i j fl ss l w]. simpl. intros -> Hl Hp.
  destruct l; [congruence| |]; unfold step; simpl.
  - reflexivity.
  - destruct (load amb ix k >=? sz - 1).
    + split; [destruct (k - 1 <=? ss); reflexivity|].
      split; [discriminate|split; reflexivity].
    + rewrite load_strict_inside by lia.
      split; [reflexivity|]. split; [discriminate|split; reflexivity].
Qed.

Lemma flagged_run_safe fuel : forall s,
  st_flag s = 1 -> st_pc s <> AtInit -> 0 < Z.of_nat (length (st_pos s)) ->
  (exists s', frun fuel s = Running s') \/ frun fuel s = Returned (st_world s).
Proof.
  induction fuel as [|fuel IH]; intros s Hf Hl Hp; [left; now exists s|].
  rewrite run_S. pose proof (flagged_step_safe s Hf Hl Hp) as H.
  destruct (fstep s) as [s'|r|c|h]; try (now elim H).
  - destruct H as (H1 & H2 & H3 & H4).
    rewrite <- H4. apply IH; [exact H1|exact H2|now rewrite H3].
  - right. now subst r.
Qed.

End Flagged.

(** ** The outcome of a search, for any callback *)

Section Outcome.

Context {W : Type}.
Variable success_func : list Z -> W -> option W.
Variable amb : Z -> Z.
Variables start_level max_level n : Z.

Hypothesis Hn : 1 <= n < half.
Hypothesis Hlevels : 0 <= start_level < max_level /\ max_level <= n.

Local Abbreviation expected pos :=
  (ext n max_level (Z.to_nat (max_level - start_level)) pos start_level).

(** With a callback that returns from every call, a run is running or
    has returned. *)
Lemma total_run_safe pos w w' fuel :
  Z.of_nat (length pos) = n ->
  fold_cb success_func (expected pos) w = Some w' ->
  (exists s, nqueens_by_level success_func amb start_level max_level fuel pos w
             = Running s)
  \/ nqueens_by_level success_func amb start_level max_level fuel pos w = Returned w'.
Proof.
  intros Hp Hf.
  destruct (search_exhausts success_func amb start_level max_level n Hn Hlevels
              pos w w' Hp Hf) as (p & vo & ix & i & j & G1 & G2 & _).
  destruct (star_running _ _ _ _ _ _ G1) as (a & Ha & Hb).
  unfold nqueens_by_level.
  destruct (Nat.le_gt_cases fuel a) as [Hle|Hgt].
  - left. apply Hb, Hle.
  - replace fuel with (a + (fuel - a))%nat by lia. rewrite Ha.
    apply (flagged_run_safe success_func amb start_level max_level (fuel - a)
             (Frame p vo ix n (start_level - 1) i j 1 (start_level - 1) AtScan w'));
      [reflexivity|discriminate|simpl; lia].
Qed.

Lemma lifted_run_safe pos w fuel :
  Z.of_nat (length pos) = n ->
  (exists s, run (lift_cb success_func) amb start_level max_level fuel
               (lift_frame (enter amb start_level max_level pos w)) = Running s)
  \/ run (lift_cb success_func) amb start_level max_level fuel
       (lift_frame (enter amb start_level max_level pos w))
     = Returned (fold_cb success_func (expected pos) w).
Proof.
  intros Hp.
  destruct (search_exhausts (lift_cb success_func) amb start_level max_level n
              Hn Hlevels pos (Some w) (fold_cb success_func (expected pos) w) Hp
              (fold_lift success_func _ w)) as (p & vo & ix & i & j & G1 & G2 & _).
  destruct (star_running _ _ _ _ _ _ G1) as (a & Ha & Hb).
  change (lift_frame (enter amb start_level max_level pos w))
    with (enter amb start_level max_level pos (Some w)).
  destruct (Nat.le_gt_cases fuel a) as [Hle|Hgt].
  - left. apply Hb, Hle.
  - replace fuel with (a + (fuel - a))%nat by lia. rewrite Ha.
    apply (flagged_run_safe (lift_cb success_func) amb start_level max_level (fuel - a)
             (Frame p vo ix n (start_level - 1) i j 1 (start_level - 1) AtScan
                    (fold_cb success_func (expected pos) w)));
      [reflexivity|discriminate|simpl; lia].
Qed.

Lemma returned_fold pos w fuel r :
  Z.of_nat (length pos) = n ->
  nqueens_by_level success_func amb start_level max_level fuel pos w = Returned r ->
  fold_cb success_func (expected pos) w = Some r.
Proof.
  intros Hp Hr. unfold nqueens_by_level in Hr.
  pose proof (run_lift success_func amb start_level max_level fuel
                (enter amb start_level max_level pos w)) as H.
  rewrite Hr in H. simpl in H.
  destruct (lifted_run_safe pos w fuel Hp) as [[s Hs]|Hs]; rewrite Hs in H.
  - discriminate.
  - inversion H as [E]. now rewrite E.
Qed.

Lemma not_crashed pos w fuel c :
  Z.of_nat (length pos) = n ->
  nqueens_by_level success_func amb start_level max_level fuel pos w <> Crashed c.
Proof.
  intros Hp Hr. unfold nqueens_by_level in Hr.
  pose proof (run_lift success_func amb start_level max_level fuel
                (enter amb start_level max_level pos w)) as H.
  rewrite Hr in H. simpl in H.
  destruct (lifted_run_safe pos w fuel Hp) as [[s Hs]|Hs]; rewrite Hs in H;
    discriminate.
Qed.

Lemma hung_blocked pos w fuel h :
  Z.of_nat (length pos) = n ->
  nqueens_by_level success_func amb start_level max_level fuel pos w = Hung h ->
  fold_cb success_func (expected pos) w = None.
Proof.
  intros Hp Hr.
  destruct (fold_cb success_func (expected pos) w) as [w'|] eqn:Hf; [|reflexivity].
  destruct (total_run_safe pos w w' fuel Hp Hf) as [[s Hs]|Hs]; rewrite Hs in Hr;
    discriminate.
Qed.

(** The last inner [while], from the frame reached when every column
    has been tried: if the run returns, some cell below the first row
    stopped the loop. *)
Lemma scan_back p vo ix w :
  0 < Z.of_nat (length p) -> Z.of_nat (length ix) = max_level ->
  (forall a, 0 <= a < start_level -> peek ix a = amb a) ->
  forall fuel k i j r,
    k <= start_level - 1 ->
    run success_func amb start_level max_level fuel
      (Frame p vo ix n k i j 1 (start_level - 1) AtScan w) = Returned r ->
    exists b, b <= k /\ amb b < n - 1.
Proof.
  intros Hp Hix Hlow.
  assert (Hload : forall a, a <= start_level - 1 -> load amb ix a = amb a).
  { intros a Ha. destruct (Z_lt_dec a 0) as [Hneg|Hpos].
    - apply load_outside. lia.
    - rewrite load_inside by lia. apply Hlow. lia. }
  induction fuel as [|fuel IH]; intros k i j r Hk Hr; [discriminate|].
  rewrite run_S in Hr.
  destruct (Z_lt_dec (amb k) (n - 1)) as [Hlt|Hge].
  - exists k. split; [lia|exact Hlt].
  - rewrite (step_scan_up success_func amb start_level max_level) in Hr
      by (rewrite Hload by lia; lia).
    destruct (IH (k - 1) i j r ltac:(lia)) as (b & Hb1 & Hb2).
    + replace (k - 1 <=? start_level - 1) with true in Hr
        by (symmetry; apply Z.leb_le; lia).
      exact Hr.
    + exists b. split; [lia|exact Hb2].
Qed.

Lemma returned_settles pos w fuel r :
  Z.of_nat (length pos) = n ->
  nqueens_by_level success_func amb start_level max_level fuel pos w = Returned r ->
  settles amb start_level n.
Proof.
  intros Hp Hr. pose proof (returned_fold pos w fuel r Hp Hr) as Hf.
  destruct (search_exhausts success_func amb start_level max_level n Hn Hlevels
              pos w r Hp Hf) as (p & vo & ix & i & j & G1 & G2 & G3 & G4).
  destruct (star_running _ _ _ _ _ _ G1) as (a & Ha & Hb).
  unfold nqueens_by_level in Hr.
  destruct (Nat.le_gt_cases fuel a) as [Hle|Hgt].
  - destruct (Hb fuel Hle) as [s Hs]. rewrite Hs in Hr. discriminate.
  - replace fuel with (a + (fuel - a))%nat in Hr by lia. rewrite Ha in Hr.
    destruct (scan_back p vo ix r ltac:(lia) G3 G4 (fuel - a)%nat
                (start_level - 1) i j r ltac:(lia) Hr) as (b & Hb1 & Hb2).
    exists b. split; [lia|exact Hb2].
Qed.

(** At any time, the state of the caller is the result of the calls
    made for an initial part of the expected boards. *)
Lemma anytime_fold pos w fuel :
  Z.of_nat (length pos) = n ->
  exists seen,
    seen `prefix_of` expected pos
    /\ fold_cb success_func seen w
       = Some (world_of (nqueens_by_level success_func amb start_level max_level
                           fuel pos w)).
Proof.
  intros Hp.
  destruct (run_together success_func record_solution amb start_level max_level
              (fun w1 seen => fold_cb success_func seen w = Some w1)
              (fun sol w1 w1' seen HR Hf =>
                 ex_intro _ (seen ++ [sol])
                   (conj eq_refl (fold_cb_snoc success_func seen sol w w1 w1' HR Hf)))
              fuel (enter amb start_level max_level pos w) [] eq_refl)
    as (fuel' & _ & H).
  exists (world_of (nqueens_by_level record_solution amb start_level max_level
                      fuel' pos [])).
  split; [|exact H].
  exact (recorded_is_prefix amb start_level max_level n Hn Hlevels pos fuel' Hp).
Qed.

End Outcome.

(** C1. What [nqueens n] does, for every board size [1 <= n < 2^31].
    Its search hands to the callback the solutions of the [n]-queens
    problem, each exactly once: when row 0 has run out of columns the
    store holds their flat sequence, [n] entries for each solution (2
    solutions for [n = 4], 92 for [n = 8]).  But the call does not
    return then.  The inner [while] of lines 87 and 110 goes on reading
    [index[-1]], [index[-2]], ... (C4), and [nqueens n] returns if and
    only if one of these cells below the block holds less than [n-1].
    On memory where none does, [nqueens n] never returns; for [n = 1]
    that is any memory without a negative value there, the zeroed
    memory among them.  When [nqueens n] returns, what it returns is
    the flat sequence of the solutions. *)
Theorem nqueens_returns_only_when_settled (n : Z) (amb : Z -> Z) :
  1 <= n < half ->
  (exists fuel s,
     nqueens_by_level add_solution_callback amb 0 n fuel
       (replicate (Z.to_nat n) 0) [] = Running s
     /\ st_flag s = 1 /\ st_world s = concat (solutions n))
  /\ ((exists fuel r, nqueens amb fuel n [] = Some r) <-> settles amb 0 n)
  /\ ((forall b, b < 0 -> n - 1 <= amb b) ->
      forall fuel, nqueens amb fuel n [] = None)
  /\ (forall fuel r, nqueens amb fuel n [] = Some r -> r = (concat (solutions n), []))
  /\ List.NoDup (solutions n)
  /\ (forall s, In s (solutions n) <-> is_solution n s)
  /\ Z.of_nat (length (concat (solutions n))) = n * Z.of_nat (length (solutions n))
  /\ (n = 4 -> length (solutions n) = 2%nat)
  /\ (n = 8 -> length (solutions n) = 92%nat).
Proof.
  intros Hn.
  assert (Hback : forall fuel r, nqueens amb fuel n [] = Some r -> settles amb 0 n).
  { intros fuel r Hr. unfold nqueens in Hr.
    destruct (nqueens_by_level add_solution_callback amb 0 n fuel
                (replicate (Z.to_nat n) 0) []) as [s|sols|c|h] eqn:Hrun;
      try discriminate.
    apply (returned_settles add_solution_callback amb 0 n n Hn ltac:(lia)
             (replicate (Z.to_nat n) 0) [] fuel sols); [|exact Hrun].
    apply zero_board_length. lia. }
  split; [|split; [|split; [|split; [|split; [|split; [|split; [|split]]]]]]].
  - destruct (search_exhausts add_solution_callback amb 0 n n Hn ltac:(lia)
                (replicate (Z.to_nat n) 0) [] (concat (solutions n)))
      as (p & vo & ix & i & j & G1 & _).
    + apply zero_board_length. lia.
    + replace (n - 0) with n by lia. apply (fold_add_solution _ []).
    + destruct (star_run _ _ _ _ _ _ G1) as [a Ha].
      exists (a + 0)%nat,
        (Frame p vo ix n (0 - 1) i j 1 (0 - 1) AtScan (concat (solutions n))).
      split; [apply Ha|]. split; reflexivity.
  - split.
    + intros (fuel & r & Hr). exact (Hback fuel r Hr).
    + intros Hs. destruct (nqueens_returns n amb Hn Hs []) as [fuel0 H].
      exists fuel0, (concat (solutions n), []). apply H. lia.
  - intros Hmem fuel.
    destruct (nqueens amb fuel n []) as [r|] eqn:Hr; [|reflexivity].
    destruct (Hback fuel r Hr) as (b & Hb1 & Hb2).
    specialize (Hmem b Hb1). lia.
  - intros fuel [r st] Hr.
    destruct (nqueens_result n amb fuel [] r st Hn Hr) as [-> ->]. reflexivity.
  - apply solutions_NoDup. lia.
  - intros s. apply in_solutions, Hn.
  - apply length_concat_boards. intros s Hin.
    apply in_solutions in Hin; [|exact Hn]. apply Hin.
  - intros ->. exact solutions_4.
  - intros ->. exact solutions_8.
Qed.

(** [nqueens 1] on zeroed memory: the one solution is found, and the
    call never returns. *)
Lemma nqueens_returns_only_when_settled_witness :
  solutions 1 = [[0]] /\ (forall fuel, nqueens calm fuel 1 [] = None).
Proof.
  split; [vm_compute; reflexivity|].
  apply (nqueens_returns_only_when_settled 1 calm).
  - unfold half. lia.
  - intros b Hb. unfold calm. lia.
Defined.

(** ** The cell of [index] that a step reads *)

Section Cursor.

Context {W : Type}.
Variable success_func : list Z -> W -> option W.
Variable amb : Z -> Z.
Variables start_level max_level : Z.

Hypothesis Hlevels : 0 <= start_level < max_level.
Hypothesis Hmax : max_level < half.

(** While [flag] is 0 the row [k] is one of the rows searched; once
    [flag] is set, [k] is below them. *)
Local Abbreviation ranged s :=
  (match @st_pc W s with
   | AtInit => @st_flag W s = 0 /\ start_level <= @st_k W s <= max_level
   | _ =>
       @st_stop_sign W s = start_level - 1
       /\ ((@st_flag W s = 0 /\ start_level <= @st_k W s < max_level)
           \/ (@st_flag W s = 1 /\ @st_k W s <= start_level - 1))
   end).

Lemma ranged_step s :
  ranged s ->
  match step success_func amb start_level max_level s with
  | Running s' => ranged s'
  | _ => True
  end.
Proof.
  destruct s as [p vo ix sz k i j fl ss l w]. simpl.
  destruct l; intros H; unfold step; simpl.
  - destruct H as [-> Hk].
    rewrite (to_uint_small k), (to_uint_small (max_level - 1))
      by (unfold modulus, half in *; lia).
    destruct (Z.leb_spec k (max_level - 1)) as [Hle|Hgt].
    + destruct (store ix k 0); [|exact I]. simpl. split; [reflexivity|lia].
    + destruct (load_strict p 0); [|exact I]. simpl.
      rewrite (to_int_small start_level) by (unfold half in *; lia).
      split; [|left; split; [reflexivity|lia]].
      destruct (Z.eq_dec start_level 0) as [->|Hne]; [reflexivity|].
      rewrite to_uint_small by (unfold modulus, half in *; lia).
      apply to_int_small. unfold half in *. lia.
  - destruct H as [Hss H].
    destruct (Z.eqb_spec fl 0) as [->|Hfl]; [|exact I]. simpl.
    destruct H as [[_ Hk]|[Hone _]]; [|discriminate].
    destruct (attack i j k (load amb ix k)).
    { simpl. split; [exact Hss|]. left. now split. }
    destruct (i >=? k - 1).
    + destruct (store p k (to_uint (load amb ix k))) as [p'|]; [|exact I].
      rewrite (to_uint_small k), (to_uint_small (max_level - 1))
        by (unfold modulus, half in *; lia).
      destruct (Z.eqb_spec k (max_level - 1)) as [Hlast|Hmore].
      * destruct (success_func _ w); [|exact I]. simpl.
        split; [exact Hss|]. left. now split.
      * destruct (store ix (k + 1) 0); [|exact I].
        destruct (load_strict p' 0); [|exact I]. simpl.
        split; [exact Hss|]. left. split; [reflexivity|lia].
    + destruct (load_strict p (i + 1)); [|exact I]. simpl.
      split; [exact Hss|]. left. now split.
  - destruct H as [Hss H].
    destruct (load amb ix k >=? sz - 1).
    + simpl. split; [exact Hss|]. subst ss.
      destruct (Z.leb_spec (k - 1) (start_level - 1)) as [Hle|Hgt].
      * right. split; [reflexivity|exact Hle].
      * destruct H as [[-> Hk]|[_ Hk]]; [|lia]. left. split; [reflexivity|lia].
    + unfold after_scan.
      destruct (negb (fl =? 1)).
      * destruct (store ix k (load amb ix k + 1)); [|exact I].
        destruct (load_strict p 0); [|exact I]. simpl. now split.
      * destruct (load_strict p 0); [|exact I]. simpl. now split.
Qed.

Lemma ranged_run fuel : forall s,
  ranged s ->
  match run success_func amb start_level max_level fuel s with
  | Running s' => ranged s'
  | _ => True
  end.
Proof.
  induction fuel as [|fuel IH]; intros s Hs; [exact Hs|].
  rewrite run_S. pose proof (ranged_step s Hs) as H.
  destruct (step success_func amb start_level max_level s) as [s'|r|c|h];
    try exact I.
  apply IH, H.
Qed.

Lemma ranged_cursor s a :
  ranged s -> cursor_read s = Some a ->
  (st_flag s = 0 -> start_level <= a < max_level)
  /\ (st_flag s <> 0 -> a < start_level).
Proof.
  destruct s as [p vo ix sz k i j fl ss l w]. unfold cursor_read. simpl.
  destruct l; intros H Hc; [discriminate| |].
  - destruct (Z.eqb_spec fl 0) as [->|Hfl]; [|discriminate].
    inversion Hc; subst a. destruct H as [_ [[_ Hk]|[Hone _]]]; [|discriminate].
    split; [intros _; exact Hk|intros Hne; now elim Hne].
  - inversion Hc; subst a. destruct H as [_ [[-> Hk]|[-> Hk]]].
    + split; [intros _; exact Hk|intros Hne; now elim Hne].
    + split; [intros Hone; discriminate|intros _; lia].
Qed.

Lemma ranged_enter pos w : ranged (enter amb start_level max_level pos w).
Proof.
  unfold enter. simpl. split; [reflexivity|].
  rewrite to_int_small by (unfold half in *; lia). lia.
Qed.

End Cursor.

(** X1. A call of [nqueens_by_level] with [0 <= start_level < max_level
    <= size] and [1 <= size < 2^31] makes no write outside [index] or
    [pos] and no read outside [pos], whatever the callback, the memory
    around [index] and the number of steps (so that the checked reads
    [pos.at(i)] of [nqueens_backup.cpp] never throw).  Its reads of
    [index] stay inside the block as long as [flag] is 0: the cell read
    is then one of the rows searched, [[start_level, max_level)].  The
    accesses that do leave the rows searched are the reads of
    [index[k]] with [k < start_level] that the inner [while] makes
    once [flag] is set; for [start_level = 0] they are below the block
    (the defect of C4, which may end the process). *)
Theorem search_stays_in_bounds {W : Type} (success_func : list Z -> W -> option W)
    (amb : Z -> Z) (start_level max_level n : Z) (pos : list Z) (w : W)
    (fuel : nat) :
  1 <= n < half -> 0 <= start_level < max_level /\ max_level <= n ->
  Z.of_nat (length pos) = n ->
  let outcome :=
    nqueens_by_level success_func amb start_level max_level fuel pos w in
  (forall c, outcome <> Crashed c)
  /\ (forall s a, outcome = Running s -> cursor_read s = Some a ->
        (st_flag s = 0 -> start_level <= a < max_level)
        /\ (st_flag s <> 0 -> a < start_level)).
Proof.
  intros Hn Hlevels Hp outcome. split.
  - intros c.
    exact (not_crashed success_func amb start_level max_level n Hn Hlevels
             pos w fuel c Hp).
  - intros s a Hrun Hc.
    pose proof (ranged_run success_func amb start_level max_level
                  ltac:(lia) ltac:(lia) fuel
                  (enter amb start_level max_level pos w)
                  (ranged_enter amb start_level max_level ltac:(lia) ltac:(lia)
                     pos w)) as H.
    unfold outcome, nqueens_by_level in Hrun. rewrite Hrun in H.
    exact (ranged_cursor start_level max_level s a H Hc).
Qed.

Lemma search_stays_in_bounds_witness :
  let outcome := nqueens_by_level record_solution calm 1 3 20 [2; 0; 0; 0] [] in
  (forall c, outcome <> Crashed c)
  /\ (forall s a, outcome = Running s -> cursor_read s = Some a ->
        (st_flag s = 0 -> 1 <= a < 3) /\ (st_flag s <> 0 -> a < 1)).
Proof.
  apply (search_stays_in_bounds record_solution calm 1 3 4 [2; 0; 0; 0] [] 20).
  - unfold half. lia.
  - lia.
  - reflexivity.
Defined.

(** X2. For any callback, also one that may block, the callback is
    applied to the expected boards (the boards of [max_level] rows
    that extend rows [[0,start_level)] of [pos] without an attack, in
    the order of the columns tried), one after the other and to
    nothing else: at any time of a run the state the callback acts on
    is the result of its calls for an initial part of that list; when
    the call of [nqueens_by_level] has returned, the callback has been
    applied to the whole list; when the call is blocked in the
    callback, one of those calls is the one that did not return. *)
Theorem callback_meets_every_board {W : Type} (success_func : list Z -> W -> option W)
    (amb : Z -> Z) (start_level max_level n : Z) (pos : list Z) (w : W)
    (fuel : nat) :
  1 <= n < half -> 0 <= start_level < max_level /\ max_level <= n ->
  Z.of_nat (length pos) = n ->
  let expected :=
    ext n max_level (Z.to_nat (max_level - start_level)) pos start_level in
  let outcome := nqueens_by_level success_func amb start_level max_level fuel pos w in
  (exists seen,
      seen `prefix_of` expected
      /\ fold_cb success_func seen w = Some (world_of outcome))
  /\ (forall r, outcome = Returned r -> fold_cb success_func expected w = Some r)
  /\ (forall h, outcome = Hung h -> fold_cb success_func expected w = None).
Proof.
  intros Hn Hlevels Hp expected outcome. split; [|split].
  - exact (anytime_fold success_func amb start_level max_level n Hn Hlevels
             pos w fuel Hp).
  - intros r Hr.
    exact (returned_fold success_func amb start_level max_level n Hn Hlevels
             pos w fuel r Hp Hr).
  - intros h Hh.
    exact (hung_blocked success_func amb start_level max_level n Hn Hlevels
             pos w fuel h Hp Hh).
Qed.

Lemma callback_meets_every_board_witness :
  let expected := ext 4 3 (Z.to_nat (3 - 1)) [2; 0; 0; 0] 1 in
  let outcome := nqueens_by_level record_solution calm 1 3 150 [2; 0; 0; 0] [] in
  (exists seen,
      seen `prefix_of` expected
      /\ fold_cb record_solution seen [] = Some (world_of outcome))
  /\ (forall r, outcome = Returned r -> fold_cb record_solution expected [] = Some r)
  /\ (forall h, outcome = Hung h -> fold_cb record_solution expected [] = None).
Proof.
  apply (callback_meets_every_board record_solution calm 1 3 4 [2; 0; 0; 0] [] 150).
  - unfold half. lia.
  - lia.
  - reflexivity.
Defined.

(** X3. Whether a search returns is decided by the memory below
    [index] alone: with a callback that returns from every call, the
    call returns (after enough steps) exactly when some cell
    [index[b]] with [b < start_level] holds less than [size-1].  For
    [start_level = 0] these are cells before the block; while they
    hold [size-1] or more, the last inner [while] goes on reading
    downwards and the function does not return. *)
Theorem search_returns_iff_settles {W : Type} (success_func : list Z -> W -> option W)
    (amb : Z -> Z) (start_level max_level n : Z) (pos : list Z) (w w' : W) :
  1 <= n < half -> 0 <= start_level < max_level /\ max_level <= n ->
  Z.of_nat (length pos) = n ->
  fold_cb success_func
    (ext n max_level (Z.to_nat (max_level - start_level)) pos start_level) w
  = Some w' ->
  (exists fuel r,
      nqueens_by_level success_func amb start_level max_level fuel pos w = Returned r)
  <-> settles amb start_level n.
Proof.
  intros Hn Hlevels Hp Hf. split.
  - intros (fuel & r & Hr).
    exact (returned_settles success_func amb start_level max_level n Hn Hlevels
             pos w fuel r Hp Hr).
  - intros Hs.
    destruct (search_returns success_func amb start_level max_level n Hn Hlevels
                pos w w' Hp Hs Hf) as [fuel0 H].
    exists fuel0, w'. apply H. lia.
Qed.

Lemma search_returns_iff_settles_witness :
  (exists fuel r,
      nqueens_by_level record_solution (fun a => if a =? -1 then 7 else 0) 0 4 fuel
        [0; 0; 0; 0] [] = Returned r)
  <-> settles (fun a => if a =? -1 then 7 else 0) 0 4.
Proof.
  apply (search_returns_iff_settles record_solution (fun a => if a =? -1 then 7 else 0)
           0 4 4 [0; 0; 0; 0] [] [[1; 3; 0; 2]; [2; 0; 3; 1]]).
  - unfold half. lia.
  - lia.
  - reflexivity.
  - vm_compute. reflexivity.
Defined.

(** X4. Every board handed to the callback, at any time of a run, is
    a valid placement: it has [max_level] rows, its rows below
    [start_level] are those of [pos], and each row from [start_level]
    on holds a column of the board ([0 <= c < size]) that shares no
    column and no diagonal with any row below it.  No board is handed
    over twice. *)
Theorem reported_boards_are_placements (amb : Z -> Z) (start_level max_level n : Z)
    (pos : list Z) (fuel : nat) :
  1 <= n < half -> 0 <= start_level < max_level /\ max_level <= n ->
  Z.of_nat (length pos) = n ->
  let reported :=
    world_of (nqueens_by_level record_solution amb start_level max_level fuel pos []) in
  List.NoDup reported
  /\ (forall s, In s reported ->
        Z.of_nat (length s) = max_level
        /\ take (Z.to_nat start_level) s = take (Z.to_nat start_level) pos
        /\ (forall r, start_level <= r < max_level ->
              0 <= peek s r < n
              /\ (forall i, 0 <= i < r ->
                    to_int (peek s i) <> peek s r
                    /\ Z.abs (i - r) <> Z.abs (to_int (peek s i) - peek s r)))).
Proof.
  intros Hn Hlevels Hp reported.
  destruct (recorded_is_prefix amb start_level max_level n Hn Hlevels pos fuel Hp)
    as [rest Hrest].
  fold reported in Hrest. split.
  - pose proof (sorted_ext n max_level start_level
                  (Z.to_nat (max_level - start_level)) pos start_level
                  ltac:(lia) ltac:(lia) ltac:(lia)) as Hs.
    rewrite Hrest in Hs.
    apply (sorted_NoDup (rows_lt start_level)); [apply rows_lt_irrefl|].
    exact (StronglySorted_app_1_l _ _ _ Hs).
  - intros s Hin.
    assert (Hall : In s (ext n max_level (Z.to_nat (max_level - start_level))
                          pos start_level)).
    { rewrite Hrest. apply in_or_app. now left. }
    apply in_ext in Hall; [|lia|lia|lia].
    destruct Hall as (H1 & H2 & H3).
    split; [exact H1|]. split; [exact H2|].
    intros r Hr. destruct (H3 r Hr) as [H4 H5].
    split; [exact H4|]. apply safe_spec. exact H5.
Qed.

Lemma reported_boards_are_placements_witness :
  let reported :=
    world_of (nqueens_by_level record_solution calm 1 3 150 [2; 0; 0; 0] []) in
  List.NoDup reported
  /\ (forall s, In s reported ->
        Z.of_nat (length s) = 3
        /\ take (Z.to_nat 1) s = take (Z.to_nat 1) [2; 0; 0; 0]
        /\ (forall r, 1 <= r < 3 ->
              0 <= peek s r < 4
              /\ (forall i, 0 <= i < r ->
                    to_int (peek s i) <> peek s r
                    /\ Z.abs (i - r) <> Z.abs (to_int (peek s i) - peek s r)))).
Proof.
  apply (reported_boards_are_placements calm 1 3 4 [2; 0; 0; 0] 150).
  - unfold half. lia.
  - lia.
  - reflexivity.
Defined.

(** ** Calls outside the supported range *)

Lemma to_uint_below z : to_uint z <= modulus - 1.
Proof.
  unfold to_uint.
  pose proof (Z.mod_pos_bound z modulus ltac:(reflexivity)). lia.
Qed.

(** X5. A call with [max_level = 0] fails in its first step, whatever
    [start_level], [pos] and the callback are, and the callback is not
    called: the comparison [k <= max_level-1] of line 78 is made on
    unsigned values, [max_level-1] wraps to [2^32-1], the body of the
    [for] loop runs and writes [index[start_level]] into a block of no
    cells.  In particular [nqueens 0] does not return an empty
    sequence: it does not return. *)
Theorem zero_levels_fail {W : Type} (success_func : list Z -> W -> option W)
    (amb : Z -> Z) (start_level : Z) (pos : list Z) (w : W) (fuel : nat)
    (sols : list Z) :
  nqueens_by_level success_func amb start_level 0 (S fuel) pos w = Crashed w
  /\ nqueens amb fuel 0 sols = None.
Proof.
  split.
  - unfold nqueens_by_level. rewrite run_S. unfold enter, step.
    replace (to_uint (to_int start_level) <=? to_uint (0 - 1)) with true.
    + change (seqZ 0 0) with (@nil Z). rewrite store_outside; [reflexivity|].
      simpl. lia.
    + symmetry. apply Z.leb_le. apply to_uint_below.
  - destruct fuel; reflexivity.
Qed.

Section ShortPos.

Context {W : Type}.
Variable success_func : list Z -> W -> option W.
Variable amb : Z -> Z.
Variables start_level max_level n : Z.

Hypothesis Hshort : 0 <= n < max_level.
Hypothesis Hmax : max_level <= modulus.

(** Line 109 is reached after a write to [pos[max_level-1]]. *)
Lemma short_step s :
  Z.of_nat (length (st_pos s)) = n ->
  match step success_func amb start_level max_level s with
  | Running s' => Z.of_nat (length (st_pos s')) = n /\ st_world s' = st_world s
  | o => world_of o = st_world s
  end.
Proof.
  destruct s as [p vo ix sz k i j fl ss l w]. simpl. intros Hp.
  destruct l; unfold step; simpl.
  - destruct (to_uint k <=? to_uint (max_level - 1)).
    + destruct (store ix k 0); simpl; auto.
    + destruct (load_strict p 0); simpl; auto.
  - destruct (negb (fl =? 0)); [reflexivity|].
    destruct (attack i j k (load amb ix k)); [simpl; auto|].
    destruct (i >=? k - 1).
    + destruct (store p k (to_uint (load amb ix k))) as [p'|] eqn:Hst;
        [|reflexivity].
      apply store_Some in Hst. destruct Hst as [Hk ->].
      rewrite (to_uint_small k), (to_uint_small (max_level - 1)) by lia.
      replace (k =? max_level - 1) with false by (symmetry; apply Z.eqb_neq; lia).
      destruct (store ix (k + 1) 0); [|reflexivity].
      destruct (load_strict _ 0); [|reflexivity].
      simpl. rewrite length_insert. auto.
    + destruct (load_strict p (i + 1)); simpl; auto.
  - destruct (load amb ix k >=? sz - 1); [simpl; auto|].
    unfold after_scan.
    destruct (negb (fl =? 1)).
    + destruct (store ix k (load amb ix k + 1)); [|reflexivity].
      destruct (load_strict p 0); simpl; auto.
    + destruct (load_strict p 0); simpl; auto.
Qed.

Lemma short_world fuel : forall s,
  Z.of_nat (length (st_pos s)) = n ->
  world_of (run success_func amb start_level max_level fuel s) = st_world s.
Proof.
  induction fuel as [|fuel IH]; intros s Hp; [reflexivity|].
  rewrite run_S. pose proof (short_step s Hp) as H.
  destruct (step success_func amb start_level max_level s) as [s'|r|c|h];
    try exact H.
  destruct H as [H1 H2]. rewrite IH by exact H1. exact H2.
Qed.

(** The callback is not reached while [pos] is short. *)
Lemma short_step_silent s h :
  Z.of_nat (length (st_pos s)) = n ->
  step success_func amb start_level max_level s <> Hung h.
Proof.
  destruct s as [p vo ix sz k i j fl ss l w]. simpl. intros Hp.
  destruct l; unfold step; simpl.
  - destruct (to_uint k <=? to_uint (max_level - 1)).
    + destruct (store ix k 0); discriminate.
    + destruct (load_strict p 0); discriminate.
  - destruct (negb (fl =? 0)); [discriminate|].
    destruct (attack i j k (load amb ix k)); [discriminate|].
    destruct (i >=? k - 1).
    + destruct (store p k (to_uint (load amb ix k))) as [p'|] eqn:Hst;
        [|discriminate].
      apply store_Some in Hst. destruct Hst as [Hk ->].
      rewrite (to_uint_small k), (to_uint_small (max_level - 1)) by lia.
      replace (k =? max_level - 1) with false by (symmetry; apply Z.eqb_neq; lia).
      destruct (store ix (k + 1) 0); [|discriminate].
      destruct (load_strict _ 0); discriminate.
    + destruct (load_strict p (i + 1)); discriminate.
  - destruct (load amb ix k >=? sz - 1); [discriminate|].
    unfold after_scan.
    destruct (negb (fl =? 1)).
    + destruct (store ix k (load amb ix k + 1)); [|discriminate].
      destruct (load_strict p 0); discriminate.
    + destruct (load_strict p 0); discriminate.
Qed.

Lemma short_silent fuel : forall s h,
  Z.of_nat (length (st_pos s)) = n ->
  run success_func amb start_level max_level fuel s <> Hung h.
Proof.
  induction fuel as [|fuel IH]; intros s h Hp; [discriminate|].
  rewrite run_S. pose proof (short_step s Hp) as H.
  pose proof (short_step_silent s h Hp) as Hh.
  destruct (step success_func amb start_level max_level s) as [s'|r|c|h'];
    try discriminate.
  - apply IH. exact (proj1 H).
  - exact Hh.
Qed.

End ShortPos.

(** X6. When [pos] has fewer cells than [max_level], the callback is
    reached only through an access outside [pos]: line 109 comes after
    line 104 has written [pos[k]] with [k = max_level-1], a cell that
    [pos] does not have.  The machine follows the code up to its first
    write outside a block (or read outside [pos]) and ends there; up
    to that point, whatever [start_level] is, the callback has not
    been called and the run is not waiting in it.  So a call of the
    callback on a short [pos] (as for [pos] of 2 cells, [start_level =
    2] and [max_level = 3], where line 104 writes [pos[2]]) always
    comes after a write outside [pos]. *)
Theorem short_pos_no_call_before_write_outside {W : Type}
    (success_func : list Z -> W -> option W)
    (amb : Z -> Z) (start_level max_level : Z) (pos : list Z) (w : W) (fuel : nat) :
  Z.of_nat (length pos) < max_level -> max_level <= modulus ->
  let outcome :=
    nqueens_by_level success_func amb start_level max_level fuel pos w in
  world_of outcome = w /\ (forall h, outcome <> Hung h).
Proof.
  intros Hshort Hmax outcome. unfold outcome, nqueens_by_level. split.
  - apply (short_world success_func amb start_level max_level
             (Z.of_nat (length pos)) ltac:(lia) Hmax fuel
             (enter amb start_level max_level pos w)).
    reflexivity.
  - intros h.
    apply (short_silent success_func amb start_level max_level
             (Z.of_nat (length pos)) ltac:(lia) Hmax fuel
             (enter amb start_level max_level pos w) h).
    reflexivity.
Qed.

(** The run that ends at the write of [pos[2]]. *)
Lemma short_pos_no_call_before_write_outside_witness :
  nqueens_by_level record_solution calm 2 3 200 [5; 5] [] = Crashed []
  /\ (let outcome := nqueens_by_level record_solution calm 2 3 200 [5; 5] [] in
      world_of outcome = [] /\ (forall h, outcome <> Hung h)).
Proof.
  split; [vm_compute; reflexivity|].
  apply (short_pos_no_call_before_write_outside record_solution calm 2 3 [5; 5] [] 200).
  - simpl. lia.
  - unfold modulus. lia.
Defined.

(** ** The layout of the sequence returned by [nqueens] *)

Lemma concat_chunk (len : nat) (l : list (list Z)) :
  (forall s, In s l -> length s = len) ->
  forall i s, l !! i = Some s -> take len (drop (i * len) (concat l)) = s.
Proof.
  induction l as [|x l IH]; intros H i s Hi; [discriminate|].
  assert (Hx : length x = len) by (apply H; now left).
  destruct i as [|i]; simpl in Hi.
  - inversion Hi; subst x. simpl. apply take_app_length'. now symmetry.
  - simpl concat. replace (S i * len)%nat with (length x + i * len)%nat by lia.
    rewrite drop_app_add. apply IH; [|exact Hi].
    intros s' Hs'. apply H. now right.
Qed.

(** X7. The sequence returned by [nqueens n] is laid out board by
    board: it has [n] entries for each solution, entries
    [[i*n, (i+1)*n)] are the [i]-th solution in the order of the
    search (row 0 first, columns ascending), and every entry is a
    column of the board. *)
Theorem nqueens_result_layout (n : Z) (amb : Z -> Z) (fuel : nat)
    (allsolutions store_after : list Z) :
  1 <= n < half ->
  nqueens amb fuel n [] = Some (allsolutions, store_after) ->
  Z.of_nat (length allsolutions) = n * Z.of_nat (length (solutions n))
  /\ (forall i s, solutions n !! i = Some s ->
        take (Z.to_nat n) (drop (i * Z.to_nat n) allsolutions) = s)
  /\ (forall x, In x allsolutions -> 0 <= x < n).
Proof.
  intros Hn Hr.
  destruct (nqueens_result n amb fuel [] allsolutions store_after Hn Hr) as [-> _].
  simpl.
  assert (Hlen : forall s, In s (solutions n) -> Z.of_nat (length s) = n).
  { intros s Hs. apply in_solutions in Hs; [|exact Hn]. apply Hs. }
  split; [apply length_concat_boards, Hlen|]. split.
  - apply concat_chunk. intros s Hs. apply Hlen in Hs. lia.
  - intros x Hx. apply in_concat in Hx. destruct Hx as (s & Hs & Hxs).
    apply in_solutions in Hs; [|exact Hn]. destruct Hs as (H1 & H2 & _).
    apply (proj2 (list_elem_of_In _ _)) in Hxs.
    apply list_elem_of_lookup in Hxs. destruct Hxs as [r Hr'].
    pose proof (lookup_lt_Some _ _ _ Hr') as Hlt.
    specialize (H2 (Z.of_nat r) ltac:(lia)).
    unfold peek in H2. rewrite Nat2Z.id, Hr' in H2. exact H2.
Qed.

Lemma nqueens_result_layout_witness :
  Z.of_nat (length [1; 3; 0; 2; 2; 0; 3; 1]) = 4 * Z.of_nat (length (solutions 4))
  /\ (forall i s, solutions 4 !! i = Some s ->
        take (Z.to_nat 4) (drop (i * Z.to_nat 4) [1; 3; 0; 2; 2; 0; 3; 1]) = s)
  /\ (forall x, In x [1; 3; 0; 2; 2; 0; 3; 1] -> 0 <= x < 4).
Proof.
  apply (nqueens_result_layout 4 calm 1000 [1; 3; 0; 2; 2; 0; 3; 1] []).
  - unfold half. lia.
  - vm_compute. reflexivity.
Defined.

(** * Further properties of the master *)

Section MasterLog.

Variables n k : Z.
Variable workers : nat.
Variable choose : nat -> nat.
Variable wamb : nat -> Z -> Z.
Variable wfuel : nat.

Local Abbreviation dispatch := (master_solution_func n k choose wamb wfuel).

(** *** The work units in the log *)

Lemma recieve_work_log m r m' :
  recieve_solution choose m = Some (r, m') ->
  omap work_of (m_log m') = omap work_of (m_log m).
Proof.
  destruct m as [sols active mb bufs clk log]. intros Hr.
  apply recieve_solution_inv in Hr. destruct Hr as (status & batch & _ & ->).
  simpl. rewrite omap_app. simpl.
  destruct (status =? solution_ready); simpl; now rewrite app_nil_r.
Qed.

Lemma dispatch_work_log q m m' :
  dispatch q m = Some m' ->
  omap work_of (m_log m') = omap work_of (m_log m) ++ [q].
Proof.
  destruct m as [sols active mb bufs clk log]. intros Hd.
  apply dispatch_inv in Hd. destruct Hd as (r & m1 & Hr & ->).
  simpl. rewrite omap_app. simpl.
  now rewrite (recieve_work_log _ _ _ Hr).
Qed.

Lemma fold_work_log (l : list (list Z)) : forall m m',
  fold_cb dispatch l m = Some m' ->
  omap work_of (m_log m') = omap work_of (m_log m) ++ l.
Proof.
  induction l as [|q l IH]; intros m m' Hf; simpl in Hf.
  - inversion Hf. now rewrite app_nil_r.
  - destruct (dispatch q m) as [m1|] eqn:Hd; [|discriminate].
    rewrite (IH m1 m' Hf), (dispatch_work_log q m m1 Hd).
    now rewrite <- app_assoc.
Qed.

Lemma drain_work_log dfuel : forall m,
  omap work_of (m_log (snd (drain choose dfuel m))) = omap work_of (m_log m).
Proof.
  induction dfuel as [|dfuel IH]; intros m; simpl; [reflexivity|].
  destruct (0 <? m_active_workers m); [|reflexivity].
  destruct (recieve_solution choose m) as [[r m']|] eqn:Hr; [|reflexivity].
  rewrite IH. exact (recieve_work_log _ _ _ Hr).
Qed.

Lemma terms_work_log (l : list nat) : omap work_of (SendTerm <$> l) = [].
Proof. induction l as [|r l IH]; [reflexivity|exact IH]. Qed.

(** *** No termination message before the end *)

Lemma recieve_quiet m r m' :
  recieve_solution choose m = Some (r, m') ->
  omap is_term (m_log m) = [] -> omap is_term (m_log m') = [].
Proof.
  destruct m as [sols active mb bufs clk log]. intros Hr Hq.
  apply recieve_solution_inv in Hr. destruct Hr as (status & batch & _ & ->).
  simpl in *. rewrite omap_app, Hq. simpl.
  destruct (status =? solution_ready); reflexivity.
Qed.

Lemma dispatch_quiet q m m' :
  omap is_term (m_log m) = [] -> dispatch q m = Some m' ->
  omap is_term (m_log m') = [].
Proof.
  destruct m as [sols active mb bufs clk log]. intros Hq Hd.
  apply dispatch_inv in Hd. destruct Hd as (r & m1 & Hr & ->).
  simpl. rewrite omap_app, (recieve_quiet _ _ _ Hr Hq). reflexivity.
Qed.

Lemma drain_quiet dfuel : forall m,
  omap is_term (m_log m) = [] ->
  omap is_term (m_log (snd (drain choose dfuel m))) = [].
Proof.
  induction dfuel as [|dfuel IH]; intros m Hq; simpl; [exact Hq|].
  destruct (0 <? m_active_workers m); [|exact Hq].
  destruct (recieve_solution choose m) as [[r m']|] eqn:Hr; [|exact Hq].
  apply IH. exact (recieve_quiet _ _ _ Hr Hq).
Qed.

(** The loop of line 173 is left with a count of zero. *)
Lemma drain_done dfuel : forall m res m',
  drain choose dfuel m = (Done res, m') -> res = [] /\ m_active_workers m' <= 0.
Proof.
  induction dfuel as [|dfuel IH]; intros m res m' Hd; simpl in Hd; [discriminate|].
  destruct (Z.ltb_spec 0 (m_active_workers m)) as [Hpos|Hzero].
  - destruct (recieve_solution choose m) as [[r m1]|]; [|discriminate].
    exact (IH m1 res m' Hd).
  - inversion Hd; subst. split; [reflexivity|exact Hzero].
Qed.

(** *** Each call and the call before it *)

Local Abbreviation linked log :=
  (chained log = true
   /\ forall p, last log = Some p -> may_follow p (Bcast 0) = true).

Lemma chained_snoc (l : list event) e :
  chained (l ++ [e])
  = chained l && match last l with Some p => may_follow p e | None => true end.
Proof.
  induction l as [|a l IH]; [reflexivity|].
  destruct l as [|b l].
  - simpl. now rewrite !andb_true_r.
  - change (chained ((a :: b :: l) ++ [e]))
      with (may_follow a b && chained ((b :: l) ++ [e])).
    rewrite IH.
    change (chained (a :: b :: l)) with (may_follow a b && chained (b :: l)).
    change (last (a :: b :: l)) with (last (b :: l)).
    now rewrite andb_assoc.
Qed.

Lemma linked_snoc (log : list event) e :
  linked log -> (forall p, last log = Some p -> may_follow p e = true) ->
  chained (log ++ [e]) = true.
Proof.
  intros [H1 _] H2. rewrite chained_snoc, H1. simpl.
  destruct (last log) as [p|]; [now apply H2|reflexivity].
Qed.

Lemma recieve_linked m r m' :
  linked (m_log m) -> recieve_solution choose m = Some (r, m') ->
  linked (m_log m')
  /\ exists p, last (m_log m') = Some p
               /\ forall q, may_follow p (SendWork (S r) q) = true.
Proof.
  destruct m as [sols active mb bufs clk log]. intros Hl Hr.
  apply recieve_solution_inv in Hr. destruct Hr as (status & batch & _ & ->).
  simpl in *.
  assert (H1 : chained (log ++ [RecvReady (S r) status]) = true).
  { apply linked_snoc; [exact Hl|]. intros p Hp. exact (proj2 Hl p Hp). }
  destruct (status =? solution_ready) eqn:E.
  - change (log ++ [RecvReady (S r) status; RecvBatch (S r) batch])
      with (log ++ ([RecvReady (S r) status] ++ [RecvBatch (S r) batch])).
    rewrite app_assoc. split; [split|].
    + rewrite chained_snoc, H1, last_snoc. simpl. now rewrite Nat.eqb_refl, E.
    + intros p Hp. rewrite last_snoc in Hp. inversion Hp. reflexivity.
    + eexists. split; [apply last_snoc|]. intros q. simpl. apply Nat.eqb_refl.
  - split; [split|].
    + exact H1.
    + intros p Hp. rewrite last_snoc in Hp. inversion Hp. simpl. now rewrite E.
    + eexists. split; [apply last_snoc|]. intros q. simpl.
      now rewrite Nat.eqb_refl, E.
Qed.

Lemma dispatch_linked q m m' :
  linked (m_log m) -> dispatch q m = Some m' -> linked (m_log m').
Proof.
  destruct m as [sols active mb bufs clk log]. intros Hl Hd.
  apply dispatch_inv in Hd. destruct Hd as (r & m1 & Hr & ->).
  destruct (recieve_linked _ _ _ Hl Hr) as (Hl1 & p & Hp & Hq).
  simpl. split.
  - apply linked_snoc; [exact Hl1|]. intros p' Hp'.
    rewrite Hp in Hp'. inversion Hp'; subst p'. apply Hq.
  - intros p' Hp'. rewrite last_snoc in Hp'. inversion Hp'. reflexivity.
Qed.

Lemma drain_linked dfuel : forall m,
  linked (m_log m) -> linked (m_log (snd (drain choose dfuel m))).
Proof.
  induction dfuel as [|dfuel IH]; intros m Hl; simpl; [exact Hl|].
  destruct (0 <? m_active_workers m); [|exact Hl].
  destruct (recieve_solution choose m) as [[r m']|] eqn:Hr; [|exact Hl].
  apply IH. exact (proj1 (recieve_linked _ _ _ Hl Hr)).
Qed.

Lemma terms_linked (l : list nat) : forall log,
  linked log -> linked (log ++ (SendTerm <$> l)).
Proof.
  induction l as [|r l IH]; intros log Hl.
  - simpl. now rewrite app_nil_r.
  - rewrite fmap_cons.
    replace (log ++ SendTerm r :: (SendTerm <$> l))
      with ((log ++ [SendTerm r]) ++ (SendTerm <$> l))
      by now rewrite <- app_assoc.
    apply IH. split.
    + apply linked_snoc; [exact Hl|]. intros p Hp. exact (proj2 Hl p Hp).
    + intros p Hp. rewrite last_snoc in Hp. inversion Hp. reflexivity.
Qed.

Lemma chained_lookup (log : list event) :
  chained log = true ->
  forall i p e, log !! i = Some p -> log !! S i = Some e -> may_follow p e = true.
Proof.
  induction log as [|a log IH]; intros Hc i p e Hp He; [discriminate|].
  destruct log as [|b log]; [discriminate|].
  change (chained (a :: b :: log)) with (may_follow a b && chained (b :: log)) in Hc.
  apply andb_true_iff in Hc. destruct Hc as [Hab Hc].
  destruct i as [|i]; simpl in Hp, He.
  - inversion Hp; inversion He; subst. exact Hab.
  - exact (IH Hc i p e Hp He).
Qed.

Lemma master_linked mamb fuel dfuel :
  linked (m_log (snd (master_main n k workers choose wamb wfuel mamb fuel dfuel))).
Proof.
  unfold master_main.
  assert (Hboot : linked (m_log (boot n k workers))).
  { split; [reflexivity|]. intros p Hp. inversion Hp. reflexivity. }
  pose proof (run_world_invariant dispatch mamb 0 k (fun m => linked (m_log m))
                (fun sol m m' Hm Hd => dispatch_linked sol m m' Hm Hd)
                fuel (enter mamb 0 k (replicate (Z.to_nat n) 0) (boot n k workers))
                Hboot) as Hl.
  unfold nqueens_by_level.
  destruct (run _ _ _ _ _ _) as [s|m|m|m]; simpl in Hl; try exact Hl.
  pose proof (drain_linked dfuel m Hl) as Hd.
  destruct (drain choose dfuel m) as [[res| |] m']; cbn [snd] in *; try exact Hd.
  destruct m' as [sols active mb bufs clk log]. simpl in *.
  apply terms_linked. exact Hd.
Qed.

Lemma master_announced mamb fuel dfuel :
  exists rest,
    m_log (snd (master_main n k workers choose wamb wfuel mamb fuel dfuel))
    = Bcast n :: Bcast k :: rest.
Proof.
  unfold master_main.
  pose proof (run_world_invariant dispatch mamb 0 k
                (fun m => exists rest, m_log m = Bcast n :: Bcast k :: rest)
                (fun sol m m' Hm Hd =>
                   dispatch_announced n k choose wamb wfuel sol m m' Hm Hd)
                fuel (enter mamb 0 k (replicate (Z.to_nat n) 0) (boot n k workers))
                (ex_intro _ [] eq_refl)) as Ha.
  unfold nqueens_by_level.
  destruct (run _ _ _ _ _ _) as [s|m|m|m]; simpl in Ha; try exact Ha.
  pose proof (drain_announced n k choose dfuel m Ha) as Hd.
  destruct (drain choose dfuel m) as [[res| |] m']; cbn [snd] in *; try exact Hd.
  destruct m' as [sols active mb bufs clk log]. destruct Hd as [rest Hl].
  simpl in *. subst log. eexists. reflexivity.
Qed.

End MasterLog.

(** X8. For a split level [0 < k <= n], whatever the number of
    workers and the order in which their messages are received: the
    work units the master has sent so far are at any time, in the
    order of sending, an initial part of the list of the boards of [k]
    rows that the search over rows [[0,k)] finds; when [master_main]
    is done they are that whole list.  Each partial solution goes to a
    worker once: none is skipped and none is sent twice. *)
Theorem work_units_sent_in_order (n k : Z) (workers : nat) (choose : nat -> nat)
    (wamb : nat -> Z -> Z) (wfuel : nat) (mamb : Z -> Z) (fuel dfuel : nat) :
  1 <= n < half -> 0 < k <= n ->
  let r := master_main n k workers choose wamb wfuel mamb fuel dfuel in
  omap work_of (m_log (snd r)) `prefix_of` partials n k
  /\ (forall res, fst r = Done res -> omap work_of (m_log (snd r)) = partials n k).
Proof.
  intros Hn Hk. unfold master_main.
  assert (Hzeros : Z.of_nat (length (replicate (Z.to_nat n) 0)) = n)
    by (apply zero_board_length; lia).
  destruct (run_together (master_solution_func n k choose wamb wfuel) record_solution
              mamb 0 k (fun m seen => omap work_of (m_log m) = seen)
              (fun sol m m' seen HR Hd =>
                 ex_intro _ (seen ++ [sol])
                   (conj eq_refl
                      (eq_trans (dispatch_work_log n k choose wamb wfuel sol m m' Hd)
                                (f_equal (fun l => l ++ [sol]) HR))))
              fuel (enter mamb 0 k (replicate (Z.to_nat n) 0) (boot n k workers))
              [] eq_refl) as (fuel' & _ & Hpre).
  pose proof (recorded_is_prefix mamb 0 k n Hn ltac:(lia)
                (replicate (Z.to_nat n) 0) fuel' Hzeros) as Hrec.
  rewrite Z.sub_0_r in Hrec. fold (partials n k) in Hrec.
  unfold nqueens_by_level in Hrec.
  change (enter mamb 0 k (replicate (Z.to_nat n) 0) [])
    with (with_world (enter mamb 0 k (replicate (Z.to_nat n) 0) (boot n k workers))
                     (@nil (list Z))) in Hrec.
  rewrite <- Hpre in Hrec. clear Hpre.
  destruct (nqueens_by_level (master_solution_func n k choose wamb wfuel) mamb 0 k
              fuel (replicate (Z.to_nat n) 0) (boot n k workers))
    as [s|m|m|m] eqn:Hrun; unfold nqueens_by_level in Hrun; rewrite Hrun in Hrec;
    simpl in Hrec; cbn [fst snd].
  - split; [exact Hrec|intros res H; discriminate].
  - assert (Hall : omap work_of (m_log m) = partials n k).
    { apply (returned_fold (master_solution_func n k choose wamb wfuel) mamb 0 k n
               Hn ltac:(lia) _ _ _ _ Hzeros) in Hrun.
      rewrite Z.sub_0_r in Hrun. fold (partials n k) in Hrun.
      apply fold_work_log in Hrun. exact Hrun. }
    pose proof (drain_work_log choose dfuel m) as Hd.
    rewrite Hall in Hd.
    destruct (drain choose dfuel m) as [[res'| |] m']; cbn [fst snd] in *.
    + destruct m' as [sols active mb bufs clk log]. simpl in *.
      rewrite omap_app, terms_work_log, app_nil_r, Hd.
      split; [reflexivity|intros res _; reflexivity].
    + rewrite Hd. split; [reflexivity|intros res H; discriminate].
    + rewrite Hd. split; [reflexivity|intros res H; discriminate].
  - split; [exact Hrec|intros res H; discriminate].
  - split; [exact Hrec|intros res H; discriminate].
Qed.

Lemma work_units_sent_in_order_witness :
  let r := master_main 4 1 2 (fun t => t) (fun _ => calm) 1000 calm 1000 20 in
  omap work_of (m_log (snd r)) `prefix_of` partials 4 1
  /\ (forall res, fst r = Done res -> omap work_of (m_log (snd r)) = partials 4 1).
Proof.
  apply (work_units_sent_in_order 4 1 2 (fun t => t) (fun _ => calm) 1000 calm 1000 20).
  - unfold half. lia.
  - lia.
Defined.

(** X9. In the log of the master's MPI calls, whatever the parameters,
    the schedule and the number of steps: a work unit is sent to rank
    [r] only as the call that follows the receipt of a report of rank
    [r] (its readiness message, or the batch announced by it), so
    between two work units sent to a rank a message of that rank has
    been received; and a batch is received from rank [r] only as the
    call that follows the receipt of a readiness message of rank [r]
    with status [solution_ready].  The log does not start with a
    send. *)
Theorem work_follows_a_report (n k : Z) (workers : nat) (choose : nat -> nat)
    (wamb : nat -> Z -> Z) (wfuel : nat) (mamb : Z -> Z) (fuel dfuel : nat) :
  let log :=
    m_log (snd (master_main n k workers choose wamb wfuel mamb fuel dfuel)) in
  log !! 0%nat = Some (Bcast n)
  /\ (forall i r q, log !! S i = Some (SendWork r q) ->
        (exists batch, log !! i = Some (RecvBatch r batch))
        \/ (exists status,
              log !! i = Some (RecvReady r status) /\ status <> solution_ready))
  /\ (forall i r batch, log !! S i = Some (RecvBatch r batch) ->
        log !! i = Some (RecvReady r solution_ready)).
Proof.
  intros log.
  destruct (master_announced n k workers choose wamb wfuel mamb fuel dfuel)
    as [rest Hrest].
  destruct (master_linked n k workers choose wamb wfuel mamb fuel dfuel) as [Hc _].
  fold log in Hrest, Hc.
  assert (Hprev : forall i e, log !! S i = Some e ->
            exists p, log !! i = Some p /\ may_follow p e = true).
  { intros i e He.
    destruct (lookup_lt_is_Some_2 log i) as [p Hp].
    - apply lookup_lt_Some in He. lia.
    - exists p. split; [exact Hp|]. exact (chained_lookup log Hc i p e Hp He). }
  split; [now rewrite Hrest|]. split.
  - intros i r q He. destruct (Hprev i _ He) as (p & Hp & Hf).
    destruct p as [v|r' status|r' batch|r' q'|r']; simpl in Hf; try discriminate.
    + apply andb_true_iff in Hf. destruct Hf as [Hr Hs].
      apply Nat.eqb_eq in Hr. subst r'. right. exists status.
      split; [exact Hp|]. apply negb_true_iff, Z.eqb_neq in Hs. exact Hs.
    + apply Nat.eqb_eq in Hf. subst r'. left. now exists batch.
  - intros i r batch He. destruct (Hprev i _ He) as (p & Hp & Hf).
    destruct p as [v|r' status|r' batch'|r' q'|r']; simpl in Hf; try discriminate.
    apply andb_true_iff in Hf. destruct Hf as [Hr Hs].
    apply Nat.eqb_eq in Hr. apply Z.eqb_eq in Hs. now subst r' status.
Qed.

(** X10. The termination messages are the last calls of the master:
    none is sent while the search or the loop of line 173 is still
    going on (or is stuck), and when [master_main] is done its log
    ends with one termination message for each rank from 1 to
    [workers], sent after that loop was left with a count of active
    workers that is not positive. *)
Theorem terminations_come_last (n k : Z) (workers : nat) (choose : nat -> nat)
    (wamb : nat -> Z -> Z) (wfuel : nat) (mamb : Z -> Z) (fuel dfuel : nat) :
  let r := master_main n k workers choose wamb wfuel mamb fuel dfuel in
  (forall res, fst r = Done res ->
     m_active_workers (snd r) <= 0
     /\ exists l, m_log (snd r) = l ++ (SendTerm <$> seq 1 workers)
                  /\ omap is_term l = [])
  /\ ((forall res, fst r <> Done res) -> omap is_term (m_log (snd r)) = []).
Proof.
  unfold master_main.
  pose proof (run_world_invariant (master_solution_func n k choose wamb wfuel)
                mamb 0 k (fun m => omap is_term (m_log m) = [])
                (fun sol m m' Hm Hd =>
                   dispatch_quiet n k choose wamb wfuel sol m m' Hm Hd)
                fuel (enter mamb 0 k (replicate (Z.to_nat n) 0) (boot n k workers))
                eq_refl) as Hq.
  unfold nqueens_by_level.
  destruct (run _ _ _ _ _ _) as [s|m|m|m]; simpl in Hq; cbn [fst snd].
  - split; [intros res H; discriminate|intros _; exact Hq].
  - pose proof (drain_quiet choose dfuel m Hq) as Hd.
    destruct (drain choose dfuel m) as [[res'| |] m'] eqn:Hdr; cbn [fst snd] in *.
    + destruct (drain_done choose dfuel m res' m' Hdr) as [_ Hz].
      destruct m' as [sols active mb bufs clk log]. simpl in *.
      split; [|intros H; now elim (H sols)].
      intros res _. split; [exact Hz|]. exists log. split; [reflexivity|exact Hd].
    + split; [intros res H; discriminate|intros _; exact Hd].
    + split; [intros res H; discriminate|intros _; exact Hd].
  - split; [intros res H; discriminate|intros _; exact Hq].
  - split; [intros res H; discriminate|intros _; exact Hq].
Qed.

(** X11. With a split level above the board size, [n < k], the master
    hands out nothing: when its search stops (line 104 writes
    [pos[n]], a cell that [pos] does not have, unless the search ends
    before) no message has been received and no work unit sent, and if
    [master_main] is done it has returned the empty sequence after the
    two broadcasts and the termination messages. *)
Theorem split_above_board_size (n k : Z) (workers : nat) (choose : nat -> nat)
    (wamb : nat -> Z -> Z) (wfuel : nat) (mamb : Z -> Z) (fuel dfuel : nat) :
  0 <= n < k -> k < modulus ->
  let r := master_main n k workers choose wamb wfuel mamb fuel dfuel in
  (fst r = Done []
   /\ m_log (snd r) = Bcast n :: Bcast k :: (SendTerm <$> seq 1 workers))
  \/ ((fst r = Busy \/ fst r = Stuck) /\ snd r = boot n k workers).
Proof.
  intros Hn Hk. unfold master_main.
  pose proof (short_world (master_solution_func n k choose wamb wfuel) mamb 0 k n
                Hn ltac:(lia) fuel
                (enter mamb 0 k (replicate (Z.to_nat n) 0) (boot n k workers))
                ltac:(simpl; rewrite length_replicate; lia)) as Hw.
  unfold nqueens_by_level.
  destruct (run _ _ _ _ _ _) as [s|m|m|m]; simpl in Hw; cbn [fst snd].
  - right. split; [now left|exact Hw].
  - subst m. destruct dfuel as [|dfuel].
    + right. split; [now left|reflexivity].
    + left. split; reflexivity.
  - right. split; [now right|exact Hw].
  - right. split; [now right|exact Hw].
Qed.

Lemma split_above_board_size_witness :
  let r := master_main 2 3 1 (fun t => t) (fun _ => calm) 100 calm 400 10 in
  (fst r = Done []
   /\ m_log (snd r) = Bcast 2 :: Bcast 3 :: (SendTerm <$> seq 1 1))
  \/ ((fst r = Busy \/ fst r = Stuck) /\ snd r = boot 2 3 1).
Proof.
  apply (split_above_board_size 2 3 1 (fun t => t) (fun _ => calm) 100 calm 400 10).
  - lia.
  - unfold modulus. lia.
Defined.

(** X12. Without a worker the master never finishes as soon as there
    is one partial solution to hand out: its first receive (line 95)
    has no process to hear from, and [master_main] does not search the
    rows from [k] on itself. *)
Theorem no_worker_never_done (n k : Z) (choose : nat -> nat)
    (wamb : nat -> Z -> Z) (wfuel : nat) (mamb : Z -> Z) (fuel dfuel : nat)
    (res : list Z) :
  1 <= n < half -> 0 < k <= n -> partials n k <> [] ->
  fst (master_main n k 0 choose wamb wfuel mamb fuel dfuel) <> Done res.
Proof.
  intros Hn Hk Hne. unfold master_main.
  destruct (nqueens_by_level (master_solution_func n k choose wamb wfuel) mamb 0 k
              fuel (replicate (Z.to_nat n) 0) (boot n k 0))
    as [s|m|m|m] eqn:Hrun; try discriminate.
  apply (returned_fold (master_solution_func n k choose wamb wfuel) mamb 0 k n
           Hn ltac:(lia)) in Hrun; [|apply zero_board_length; lia].
  rewrite Z.sub_0_r in Hrun. fold (partials n k) in Hrun.
  destruct (partials n k) as [|q rest]; [now elim Hne|].
  simpl in Hrun. discriminate.
Qed.

Lemma no_worker_never_done_witness :
  fst (master_main 4 2 0 (fun t => t) (fun _ => calm) 100 calm 400 10) <> Done [].
Proof.
  apply (no_worker_never_done 4 2 (fun t => t) (fun _ => calm) 100 calm 400 10 []).
  - unfold half. lia.
  - lia.
  - vm_compute. discriminate.
Defined.

(** ** A worker's answer, whatever its memory holds *)

Lemma worker_cycle_cases (n k : Z) (wamb : nat -> Z -> Z) (wfuel r : nat)
    (pos : list Z) :
  1 <= n < half -> 0 <= k < n -> Z.of_nat (length pos) = n ->
  worker_cycle n k wamb wfuel r pos = Lost
  \/ worker_cycle n k wamb wfuel r pos
     = reply_of (concat (ext n n (Z.to_nat (n - k)) pos k)).
Proof.
  intros Hn Hk Hp. unfold worker_cycle.
  destruct (nqueens_by_level worker_solution_func (wamb r) k n wfuel pos [])
    as [s|sols|c|h] eqn:Hrun; try (now left).
  right.
  apply (returned_fold worker_solution_func (wamb r) k n n Hn ltac:(lia)) in Hrun;
    [|exact Hp].
  change worker_solution_func with add_solution_callback in Hrun.
  rewrite fold_add_solution in Hrun. inversion Hrun. reflexivity.
Qed.

(** X13. The answer of a worker to a work unit depends on the board
    it received only.  For [0 <= k < n]: if the worker answers at all,
    then, whatever its rank, the memory around its [index] block and
    the number of steps it is allowed, the batch is the concatenation
    of the boards of [n] rows that extend rows [[0,k)] of the board
    received without an attack, in the order of the search; the status
    is [solution_ready] when there is such a board and
    [no_solution_ready], without a batch, when there is none; the
    batch has [n] entries for each board. *)
Theorem worker_answer_is_fixed (n k : Z) (wamb : nat -> Z -> Z) (wfuel r : nat)
    (pos : list Z) (status : Z) (batch : list Z) :
  1 <= n < half -> 0 <= k < n -> Z.of_nat (length pos) = n ->
  worker_cycle n k wamb wfuel r pos = Ready status batch ->
  let boards := ext n n (Z.to_nat (n - k)) pos k in
  batch = concat boards
  /\ ((status = solution_ready /\ boards <> [])
      \/ (status = no_solution_ready /\ boards = []))
  /\ Z.of_nat (length batch) = n * Z.of_nat (length boards)
  /\ (forall s, In s boards ->
        Z.of_nat (length s) = n
        /\ take (Z.to_nat k) s = take (Z.to_nat k) pos).
Proof.
  intros Hn Hk Hp Hw boards.
  assert (Hin : forall s, In s boards ->
            Z.of_nat (length s) = n
            /\ take (Z.to_nat k) s = take (Z.to_nat k) pos).
  { intros s Hs. apply in_ext in Hs; [|lia|lia|lia].
    destruct Hs as (H1 & H2 & _). now split. }
  assert (Hlen : Z.of_nat (length (concat boards)) = n * Z.of_nat (length boards)).
  { apply length_concat_boards. intros s Hs. apply Hin, Hs. }
  destruct (worker_cycle_cases n k wamb wfuel r pos Hn Hk Hp) as [E|E];
    rewrite E in Hw; [discriminate|].
  fold boards in Hw. unfold reply_of in Hw.
  destruct (concat boards) as [|x flat] eqn:Hflat.
  - inversion Hw; subst status batch.
    split; [reflexivity|]. split; [|split; [exact Hlen|exact Hin]].
    right. split; [reflexivity|].
    destruct boards as [|s rest]; [reflexivity|]. simpl in Hlen. lia.
  - inversion Hw; subst status batch.
    split; [reflexivity|]. split; [|split; [exact Hlen|exact Hin]].
    left. split; [reflexivity|]. intros E'. rewrite E' in Hflat. discriminate.
Qed.

Lemma worker_answer_is_fixed_witness :
  let boards := ext 4 4 (Z.to_nat (4 - 1)) [1; 0; 0; 0] 1 in
  [1; 3; 0; 2] = concat boards
  /\ ((solution_ready = solution_ready /\ boards <> [])
      \/ (solution_ready = no_solution_ready /\ boards = []))
  /\ Z.of_nat (length [1; 3; 0; 2]) = 4 * Z.of_nat (length boards)
  /\ (forall s, In s boards ->
        Z.of_nat (length s) = 4
        /\ take (Z.to_nat 1) s = take (Z.to_nat 1) [1; 0; 0; 0]).
Proof.
  apply (worker_answer_is_fixed 4 1 (fun _ => calm) 1000 0 [1; 0; 0; 0]
           solution_ready [1; 3; 0; 2]).
  - unfold half. lia.
  - lia.
  - reflexivity.
  - vm_compute. reflexivity.
Defined.

(** ** The master's result, whenever it is done *)

Section Following.

Variables n k : Z.
Variable workers : nat.
Variable choose : nat -> nat.
Variable wamb : nat -> Z -> Z.
Variable wfuel : nat.

Hypothesis Hn : 1 <= n < half.
Hypothesis Hk : 0 < k < n.
Hypothesis Hworkers : Z.of_nat workers < modulus.

Local Abbreviation dispatch := (master_solution_func n k choose wamb wfuel).
Local Abbreviation kept := (followed n k workers).

Lemma busy_followed (mb : list mail) (slots : list slot) :
  Forall2 (slot_mail n k) mb slots -> busy mb = Z.of_nat (length (units slots)).
Proof.
  induction 1 as [|x s mb slots Hx _ IH]; [reflexivity|].
  rewrite busy_cons, units_cons, length_app, IH.
  destruct Hx as [->|[-> [q ->]]].
  - destruct s as [|q|]; cbn [mail_of unit_of option_list length].
    + change (is_busy (Ready initial_ready [])) with false. simpl. lia.
    + rewrite reply_of_busy. simpl length. lia.
    + change (is_busy Idle) with false. simpl. lia.
  - change (is_busy Lost) with true.
    change (option_list (unit_of (Pending q))) with [q]. simpl length. lia.
Qed.

Lemma recieve_followed m slots recv r m' :
  kept m slots recv -> recieve_solution choose m = Some (r, m') ->
  exists s,
    slots !! r = Some s /\ live s = true
    /\ kept m' (<[r := Spent]> slots) (recv ++ option_list (unit_of s))
    /\ m_pos m' = m_pos m.
Proof.
  intros (T1 & T2 & T3 & T4 & T5) Hr.
  pose proof (proj1 (recieve_counted workers choose Hworkers m r m' T5 Hr)) as Hc.
  destruct m as [sols active mb bufs clk log]. simpl in *.
  apply recieve_solution_inv in Hr. destruct Hr as (status & batch & Hmb & ->).
  destruct (Forall2_lookup_l _ _ _ _ _ T1 Hmb) as (s & Hs & Hsm).
  destruct Hsm as [Hmail|[Hmail _]]; [|discriminate].
  exists s. split; [exact Hs|].
  assert (Hbox : Forall2 (slot_mail n k) (<[r := Idle]> mb) (<[r := Spent]> slots)).
  { apply Forall2_insert; [exact T1|]. now left. }
  destruct s as [|q|]; simpl in Hmail.
  - inversion Hmail; subst status batch. split; [reflexivity|].
    split; [|reflexivity].
    change (initial_ready =? solution_ready) with false in *.
    change (initial_ready =? no_solution_ready) with false in *.
    cbv iota zeta in *.
    unfold followed. cbn [m_mailbox m_solutions m_pos unit_of].
    change (option_list None) with (@nil (list Z)).
    rewrite app_nil_r.
    split; [exact Hbox|]. split; [exact T2|]. split; [exact T3|].
    split; [exact T4|exact Hc].
  - split; [reflexivity|]. split; [|reflexivity].
    unfold followed. cbn [m_mailbox m_solutions m_pos unit_of].
    change (option_list (Some q)) with [q].
    rewrite (boards_snoc n k).
    split; [exact Hbox|].
    destruct (concat (worker_boards n k q)) as [|x l] eqn:Hflat;
      simpl in Hmail; inversion Hmail; subst status batch.
    + change (no_solution_ready =? solution_ready) with false in *.
      cbv iota zeta in *. rewrite app_nil_r.
      split; [exact T2|]. split; [exact T3|]. split; [exact T4|exact Hc].
    + change (solution_ready =? solution_ready) with true in *.
      cbv iota zeta in *. unfold add_solution. rewrite T2.
      split; [reflexivity|]. split; [exact T3|]. split; [exact T4|exact Hc].
  - discriminate.
Qed.

Lemma dispatch_followed m slots recv q m' :
  kept m slots recv -> In q (partials n k) -> dispatch q m = Some m' ->
  exists r s,
    slots !! r = Some s
    /\ kept m' (<[r := Pending q]> slots) (recv ++ option_list (unit_of s)).
Proof.
  intros Ht Hq Hd.
  pose proof (dispatch_counted n k workers choose wamb wfuel Hworkers q m m'
                ltac:(destruct Ht as (_ & _ & _ & _ & Hc); exact Hc) Hd) as Hc.
  destruct m as [sols active mb bufs clk log].
  apply dispatch_inv in Hd. destruct Hd as (r & m1 & Hr & ->).
  destruct (recieve_followed _ slots recv r m1 Ht Hr) as (s & Hs & _ & Ht1 & Hpos).
  pose proof Ht1 as (T1 & T2 & T3 & T4 & T5).
  exists r, s. split; [exact Hs|].
  assert (Hrl : (r < length (m_pos m1))%nat).
  { rewrite T3. destruct T5 as (_ & _ & T5 & _). rewrite <- T5.
    rewrite (Forall2_length _ _ _ T1), length_insert.
    apply lookup_lt_Some in Hs. exact Hs. }
  destruct (lookup_lt_is_Some_2 (m_pos m1) r Hrl) as [b Hb].
  assert (Hbz : drop (Z.to_nat k) b = replicate (Z.to_nat (n - k)) 0).
  { rewrite List.Forall_forall in T4. apply T4.
    apply (proj1 (list_elem_of_In _ _)), (proj2 (list_elem_of_lookup _ _)).
    now exists r. }
  assert (Hql : length q = Z.to_nat k).
  { apply partials_length in Hq; lia. }
  assert (Hposr : q ++ drop (length q) (default [] (m_pos m1 !! r))
                  = q ++ replicate (Z.to_nat (n - k)) 0).
  { rewrite Hb. simpl. now rewrite Hql, Hbz. }
  rewrite Hposr in *.
  unfold followed. simpl.
  split; [|split; [exact T2|split; [|split; [|exact Hc]]]].
  - rewrite <- (list_insert_insert_eq slots r (Pending q) Spent).
    apply Forall2_insert; [exact T1|].
    destruct (worker_cycle_cases n k wamb wfuel r
                (q ++ replicate (Z.to_nat (n - k)) 0) Hn ltac:(lia)) as [E|E].
    + rewrite length_app, length_replicate. lia.
    + rewrite E. right. split; [reflexivity|]. now exists q.
    + rewrite E. now left.
  - rewrite length_insert. exact T3.
  - apply Forall_insert; [exact T4|].
    rewrite drop_app_length' by (symmetry; exact Hql). reflexivity.
Qed.

Lemma fold_followed (units_left : list (list Z)) :
  forall m slots recv sent m',
    kept m slots recv ->
    recv ++ units slots ≡ₚ sent ->
    (forall q, In q units_left -> In q (partials n k)) ->
    fold_cb dispatch units_left m = Some m' ->
    exists slots' recv',
      kept m' slots' recv' /\ recv' ++ units slots' ≡ₚ sent ++ units_left.
Proof.
  induction units_left as [|q rest IH]; intros m slots recv sent m' Ht Hp Hin Hf.
  - simpl in Hf. inversion Hf; subst m'. exists slots, recv.
    rewrite app_nil_r. auto.
  - simpl in Hf. destruct (dispatch q m) as [m1|] eqn:Hd; [|discriminate].
    destruct (dispatch_followed m slots recv q m1 Ht (Hin q (or_introl eq_refl)) Hd)
      as (r & s & Hs & Ht1).
    destruct (IH m1 (<[r := Pending q]> slots) (recv ++ option_list (unit_of s))
                 (sent ++ [q]) m' Ht1) as (slots' & recv' & G1 & G2).
    + rewrite <- app_assoc, (Permutation_app_comm (option_list (unit_of s))).
      rewrite (units_insert slots r s (Pending q) Hs). simpl.
      rewrite app_assoc. now rewrite Hp.
    + intros q' Hq'. apply Hin. now right.
    + exact Hf.
    + exists slots', recv'. split; [exact G1|].
      rewrite G2, <- app_assoc. reflexivity.
Qed.

Lemma drain_followed (dfuel : nat) : forall m slots recv res m',
  kept m slots recv -> drain choose dfuel m = (Done res, m') ->
  exists slots' recv',
    kept m' slots' recv' /\ units slots' = [] /\ recv' ≡ₚ recv ++ units slots.
Proof.
  induction dfuel as [|dfuel IH]; intros m slots recv res m' Ht Hd;
    [discriminate|].
  pose proof Ht as (T1 & _ & _ & _ & (C1 & _)).
  rewrite (busy_followed _ _ T1) in C1.
  simpl in Hd. destruct (Z.ltb_spec 0 (m_active_workers m)) as [Hpos|Hzero].
  - destruct (recieve_solution choose m) as [[r m1]|] eqn:Hr; [|discriminate].
    destruct (recieve_followed _ slots recv r m1 Ht Hr) as (s & Hs & Hl & Ht1 & _).
    destruct (IH m1 (<[r := Spent]> slots) (recv ++ option_list (unit_of s))
                 res m' Ht1 Hd) as (slots' & recv' & G1 & G2 & G3).
    exists slots', recv'. split; [exact G1|]. split; [exact G2|].
    rewrite G3.
    rewrite <- app_assoc, (Permutation_app_comm (option_list (unit_of s))).
    rewrite (units_insert slots r s Spent Hs). simpl. now rewrite app_nil_r.
  - inversion Hd; subst m' res. exists slots, recv. split; [exact Ht|].
    assert (E : units slots = []).
    { destruct (units slots); [reflexivity|]. simpl in C1. lia. }
    split; [exact E|]. now rewrite E, app_nil_r.
Qed.

Lemma boot_followed : kept (boot n k workers) (replicate workers Fresh) [].
Proof.
  unfold followed, boot. simpl.
  split; [apply Forall2_replicate; now left|]. split; [reflexivity|].
  split; [apply length_replicate|]. split; [|apply boot_counted].
  apply Forall_replicate. rewrite drop_replicate. f_equal. lia.
Qed.

Lemma units_fresh (w : nat) : units (replicate w Fresh) = [].
Proof. induction w as [|w IH]; [reflexivity|exact IH]. Qed.

End Following.

(** X14. Whenever [master_main] is done with a split level
    [0 < k < n], what it returns is right: the concatenation, in some
    order, of exactly the solutions of the [n]-queens problem, each
    once.  This holds for every number of workers, every order in
    which their messages are received, every content of the memory
    around the [index] blocks and every number of steps allowed to the
    searches: a worker whose search does not return keeps the master
    waiting, it never makes it return a wrong or partial result. *)
Theorem master_result_when_done (n k : Z) (workers : nat) (choose : nat -> nat)
    (wamb : nat -> Z -> Z) (wfuel : nat) (mamb : Z -> Z) (fuel dfuel : nat)
    (res : list Z) :
  1 <= n < half -> 0 < k < n -> Z.of_nat workers < modulus ->
  fst (master_main n k workers choose wamb wfuel mamb fuel dfuel) = Done res ->
  exists boards,
    res = concat boards
    /\ boards ≡ₚ solutions n
    /\ List.NoDup boards
    /\ (forall s, In s boards <-> is_solution n s)
    /\ Z.of_nat (length res) = n * Z.of_nat (length (solutions n)).
Proof.
  intros Hn Hk Hw. unfold master_main.
  destruct (nqueens_by_level (master_solution_func n k choose wamb wfuel) mamb 0 k
              fuel (replicate (Z.to_nat n) 0) (boot n k workers))
    as [s|m|m|m] eqn:Hrun; try discriminate.
  apply (returned_fold (master_solution_func n k choose wamb wfuel) mamb 0 k n
           Hn ltac:(lia)) in Hrun; [|apply zero_board_length; lia].
  rewrite Z.sub_0_r in Hrun. fold (partials n k) in Hrun.
  destruct (fold_followed n k workers choose wamb wfuel Hn Hk Hw (partials n k)
              (boot n k workers) (replicate workers Fresh) [] [] m
              (boot_followed n k workers Hn Hk))
    as (slots1 & recv1 & F1 & F2).
  { rewrite units_fresh. reflexivity. }
  { auto. }
  { exact Hrun. }
  destruct (drain choose dfuel m) as [[res'| |] m'] eqn:Hd; try discriminate.
  destruct (drain_followed n k workers choose Hw dfuel m slots1 recv1 res' m' F1 Hd)
    as (slots2 & recv2 & D1 & D2 & D3).
  destruct m' as [sols active mb bufs clk log]. simpl. intros Hfin.
  inversion Hfin; subst res. clear Hfin.
  destruct D1 as (_ & T2 & _). simpl in T2.
  assert (Hperm : recv2 ≡ₚ partials n k).
  { rewrite D3, F2. reflexivity. }
  assert (Hboards : flat_map (worker_boards n k) recv2 ≡ₚ solutions n).
  { rewrite (solutions_split n k) by lia. now rewrite Hperm. }
  exists (flat_map (worker_boards n k) recv2).
  split; [exact T2|]. split; [exact Hboards|]. split; [|split].
  - apply (Permutation_NoDup (Permutation_sym Hboards)).
    apply solutions_NoDup. lia.
  - intros s. rewrite <- (in_solutions n s Hn). split; intros Hin.
    + exact (Permutation_in s Hboards Hin).
    + exact (Permutation_in s (Permutation_sym Hboards) Hin).
  - rewrite T2, <- (Permutation_length Hboards).
    apply length_concat_boards. intros s Hs.
    apply (Permutation_in s Hboards) in Hs.
    apply in_solutions in Hs; [|exact Hn]. apply Hs.
Qed.

Lemma master_result_when_done_witness :
  exists boards,
    [2; 0; 3; 1; 1; 3; 0; 2] = concat boards
    /\ boards ≡ₚ solutions 4
    /\ List.NoDup boards
    /\ (forall s, In s boards <-> is_solution 4 s)
    /\ Z.of_nat (length [2; 0; 3; 1; 1; 3; 0; 2]) = 4 * Z.of_nat (length (solutions 4)).
Proof.
  apply (master_result_when_done 4 1 3
           (fun t => match t with 0 => 0 | 1 => 1 | _ => 2 end)%nat
           (fun _ => calm) 1000 calm 1000 20 [2; 0; 3; 1; 1; 3; 0; 2]).
  - unfold half. lia.
  - lia.
  - reflexivity.
  - vm_compute. reflexivity.
Defined.

(** * The worker *)

Section WorkerFacts.

Variables n k : Z.
Variable amb : Z -> Z.
Variable wfuel : nat.
Variable keep : nat -> Z.
Variable arrive : nat -> option (list Z).

Local Abbreviation serve := (worker_serve n k amb wfuel).
Local Abbreviation loop := (worker_loop n k amb wfuel keep arrive).
Local Abbreviation answers := (served n k amb wfuel keep arrive).

Lemma reports_app (l l' : list wcall) : reports (l ++ l') = reports l ++ reports l'.
Proof. apply flat_map_app. Qed.

Lemma worker_loop_S turns t w :
  loop (S turns) t w
  = if keep t =? working then
      match arrive t with
      | None =>
          loop turns (S t)
            (Worker (w_pos w) (w_solutions w) (w_log w ++ [WTest false]))
      | Some board =>
          match serve w board with
          | Some w' => loop turns (S t) w'
          | None =>
              (WStuck, Worker (w_pos w) (w_solutions w) (w_log w ++ [WTest true]))
          end
      end
    else (WDone, Worker (w_pos w) (w_solutions w) (w_log w ++ [WRequestFree])).
Proof. reflexivity. Qed.

Lemma served_S turns t pos :
  answers (S turns) t pos
  = if keep t =? working then
      match arrive t with
      | None => answers turns (S t) pos
      | Some board =>
          if (length board <=? length pos)%nat then
            match worker_cycle n k (fun _ => amb) wfuel 0
                    (board ++ drop (length board) pos) with
            | Ready status batch =>
                Ready status batch
                :: answers turns (S t) (board ++ drop (length board) pos)
            | _ => []
            end
          else []
      end
    else [].
Proof. reflexivity. Qed.

(** One work unit: with an empty store at its start, the worker sends
    what [worker_cycle] says and leaves the store empty. *)
Lemma serve_cycle pos log board :
  match serve (Worker pos [] log) board with
  | Some w' =>
      (length board <= length pos)%nat
      /\ w_pos w' = board ++ drop (length board) pos
      /\ w_solutions w' = []
      /\ exists status batch,
           worker_cycle n k (fun _ => amb) wfuel 0 (board ++ drop (length board) pos)
           = Ready status batch
           /\ reports (w_log w') = reports log ++ [Ready status batch]
  | None =>
      (length board <=? length pos)%nat = false
      \/ worker_cycle n k (fun _ => amb) wfuel 0 (board ++ drop (length board) pos)
         = Lost
  end.
Proof.
  unfold worker_serve, worker_cycle. cbn [w_pos w_solutions w_log].
  destruct (Nat.leb_spec (length board) (length pos)) as [Hle|Hgt];
    [|now left].
  destruct (nqueens_by_level worker_solution_func amb k n wfuel
              (board ++ drop (length board) pos) []) as [s|sols|c|h];
    try (now right).
  cbn [w_pos w_solutions w_log].
  split; [exact Hle|]. split; [reflexivity|]. split; [reflexivity|].
  destruct sols as [|x sols].
  - exists no_solution_ready, []. split; [reflexivity|].
    rewrite reports_app. reflexivity.
  - exists solution_ready, (x :: sols). split; [reflexivity|].
    rewrite reports_app. reflexivity.
Qed.

Lemma loop_reports turns : forall t w,
  w_solutions w = [] ->
  w_solutions (snd (loop turns t w)) = []
  /\ reports (w_log (snd (loop turns t w)))
     = reports (w_log w) ++ answers turns t (w_pos w).
Proof.
  induction turns as [|turns IH]; intros t [pos sols log] Hs; simpl in Hs; subst sols.
  - simpl. now rewrite app_nil_r.
  - rewrite worker_loop_S, served_S. cbn [w_pos w_solutions w_log].
    destruct (keep t =? working).
    + destruct (arrive t) as [board|].
      * pose proof (serve_cycle pos log board) as H.
        destruct (serve (Worker pos [] log) board) as [w'|].
        -- destruct H as (Hle & Hp & Hs & status & batch & Hc & Hr).
           apply Nat.leb_le in Hle. rewrite Hle, Hc.
           destruct (IH (S t) w' Hs) as [I1 I2].
           split; [exact I1|]. rewrite I2, Hr, Hp, <- app_assoc. reflexivity.
        -- cbn [snd w_solutions w_log]. split; [reflexivity|].
           rewrite reports_app. simpl reports at 2.
           destruct H as [H|H]; rewrite H; [reflexivity|].
           destruct (length board <=? length pos)%nat; reflexivity.
      * destruct (IH (S t) (Worker pos [] (log ++ [WTest false])) eq_refl) as [I1 I2].
        split; [exact I1|]. rewrite I2. cbn [w_pos w_log].
        rewrite reports_app. simpl reports at 2. now rewrite app_nil_r.
    + cbn [snd w_solutions w_log]. split; [reflexivity|].
      rewrite reports_app. reflexivity.
Qed.

(** *** The order of the calls *)

Local Abbreviation polling log :=
  (wchained log = true
   /\ (last log = Some WIrecvWork \/ last log = Some (WTest false))
   /\ posted log = S (completed log)).

Lemma wchained_app (l : list wcall) a rest :
  wchained (l ++ a :: rest) = wchained (l ++ [a]) && wchained (a :: rest).
Proof.
  induction l as [|a0 l IH]; [reflexivity|].
  destruct l as [|b l].
  - change (wchained ([a0] ++ a :: rest))
      with (wmay_follow a0 a && wchained (a :: rest)).
    change (wchained ([a0] ++ [a])) with (wmay_follow a0 a && (true && true)).
    now rewrite !andb_true_r.
  - change (wchained ((a0 :: b :: l) ++ a :: rest))
      with (wmay_follow a0 b && wchained ((b :: l) ++ a :: rest)).
    rewrite IH.
    change (wchained ((a0 :: b :: l) ++ [a]))
      with (wmay_follow a0 b && wchained ((b :: l) ++ [a])).
    now rewrite andb_assoc.
Qed.

Lemma wchained_snoc (l : list wcall) c :
  wchained (l ++ [c])
  = wchained l && match last l with Some p => wmay_follow p c | None => true end.
Proof.
  induction l as [|a l IH]; [reflexivity|].
  destruct l as [|b l].
  - simpl. now rewrite !andb_true_r.
  - change (wchained ((a :: b :: l) ++ [c]))
      with (wmay_follow a b && wchained ((b :: l) ++ [c])).
    rewrite IH.
    change (wchained (a :: b :: l)) with (wmay_follow a b && wchained (b :: l)).
    change (last (a :: b :: l)) with (last (b :: l)).
    now rewrite andb_assoc.
Qed.

Lemma posted_app (l l' : list wcall) : posted (l ++ l') = (posted l + posted l')%nat.
Proof. unfold posted. now rewrite List.filter_app, length_app. Qed.

Lemma completed_app (l l' : list wcall) :
  completed (l ++ l') = (completed l + completed l')%nat.
Proof. unfold completed. now rewrite List.filter_app, length_app. Qed.

Lemma polling_test (log : list wcall) (b : bool) :
  polling log -> wchained (log ++ [WTest b]) = true.
Proof.
  intros (H1 & H2 & _). rewrite wchained_snoc, H1.
  destruct H2 as [-> | ->]; reflexivity.
Qed.

Lemma serve_polling w board w' :
  polling (w_log w) -> serve w board = Some w' -> polling (w_log w').
Proof.
  intros Hp. pose proof (polling_test (w_log w) true Hp) as Ht.
  destruct Hp as (H1 & H2 & H3).
  unfold worker_serve.
  destruct (length board <=? length (w_pos w))%nat; [|discriminate].
  destruct (nqueens_by_level _ _ _ _ _ _ _) as [s|sols|c|h]; try discriminate.
  intros H. inversion H. clear H. cbn [w_log].
  destruct sols as [|x sols]; cbn [app].
  - split; [|split].
    + rewrite wchained_app, Ht. reflexivity.
    + left. change (w_log w ++ [WTest true; WSendReady no_solution_ready; WIrecvWork])
        with (w_log w ++ ([WTest true; WSendReady no_solution_ready] ++ [WIrecvWork])).
      rewrite app_assoc. apply last_snoc.
    + rewrite posted_app, completed_app, H3. unfold posted, completed. simpl. lia.
  - split; [|split].
    + rewrite wchained_app, Ht. reflexivity.
    + left.
      change (w_log w ++ [WTest true; WSendReady solution_ready;
                          WSendBatch (x :: sols); WIrecvWork])
        with (w_log w ++ ([WTest true; WSendReady solution_ready;
                           WSendBatch (x :: sols)] ++ [WIrecvWork])).
      rewrite app_assoc. apply last_snoc.
    + rewrite posted_app, completed_app, H3. unfold posted, completed. simpl. lia.
Qed.

Lemma loop_polling turns : forall t w,
  polling (w_log w) ->
  let r := loop turns t w in
  wchained (w_log (snd r)) = true
  /\ (fst r <> WStuck -> posted (w_log (snd r)) = S (completed (w_log (snd r))))
  /\ (fst r = WDone -> last (w_log (snd r)) = Some WRequestFree)
  /\ (fst r = WBusy ->
      last (w_log (snd r)) = Some WIrecvWork
      \/ last (w_log (snd r)) = Some (WTest false)).
Proof.
  induction turns as [|turns IH]; intros t w Hp.
  - simpl. destruct Hp as (H1 & H2 & H3).
    split; [exact H1|]. split; [intros _; exact H3|].
    split; [intros H; discriminate|intros _; exact H2].
  - rewrite worker_loop_S.
    destruct (keep t =? working).
    + destruct (arrive t) as [board|].
      * destruct (serve w board) as [w'|] eqn:Hs.
        -- apply IH. exact (serve_polling w board w' Hp Hs).
        -- cbn [fst snd w_log]. split; [exact (polling_test _ true Hp)|].
           split; [intros H; now elim H|]. split; intros H; discriminate.
      * apply IH. cbn [w_log]. split; [exact (polling_test _ false Hp)|].
        split; [right; apply last_snoc|].
        destruct Hp as (_ & _ & H3).
        rewrite posted_app, completed_app, H3. unfold posted, completed. simpl. lia.
    + cbn [fst snd w_log]. destruct Hp as (H1 & H2 & H3).
      split; [|split; [|split]].
      * rewrite wchained_snoc, H1. destruct H2 as [-> | ->]; reflexivity.
      * intros _. rewrite posted_app, completed_app, H3. unfold posted, completed. simpl. lia.
      * intros _. apply last_snoc.
      * intros H. discriminate.
Qed.

End WorkerFacts.

(** X15. [worker_main] answers each board it receives exactly as
    [worker_cycle] says, the function that stands for a worker in the
    model of the master: its readiness messages and batches, read as
    the master receives them, are the first readiness message followed
    by the answers of [worker_cycle] to the boards that arrive, in
    order, up to the first search that does not return (or the first
    board that does not fit into [pos]).  The store of
    the worker is empty whenever it starts a search and when it stops,
    so a batch never holds boards found for an earlier work unit. *)
Theorem worker_main_answers (n k : Z) (amb : Z -> Z) (wfuel : nat)
    (keep : nat -> Z) (arrive : nat -> option (list Z)) (turns : nat) :
  let r := worker_main n k amb wfuel keep arrive turns in
  w_solutions (snd r) = []
  /\ reports (w_log (snd r))
     = Ready initial_ready []
       :: served n k amb wfuel keep arrive turns 0 (replicate (Z.to_nat n) 0).
Proof.
  unfold worker_main.
  destruct (loop_reports n k amb wfuel keep arrive turns 0 (worker_boot n k) eq_refl)
    as [H1 H2].
  split; [exact H1|]. rewrite H2. reflexivity.
Qed.

(** X16. The MPI calls of a worker come in a fixed order, whatever
    arrives and whenever: the first readiness message and the two
    receives posted before the loop; then tests of the receive for
    work; after a test that found a board, a readiness message with
    status [solution_ready] followed by a batch that is not empty, or
    one with status [no_solution_ready] and no batch, and then a new
    receive for work.  Unless a search has failed to return, the
    receives for work posted are one more than those completed: one
    receive, and one only, is pending on [pos] each time the loop
    tests its condition, and it is that pending receive which line 263
    frees, as the last call, when [worker_main] returns. *)
Theorem worker_calls_in_order (n k : Z) (amb : Z -> Z) (wfuel : nat)
    (keep : nat -> Z) (arrive : nat -> option (list Z)) (turns : nat) :
  let r := worker_main n k amb wfuel keep arrive turns in
  wchained (w_log (snd r)) = true
  /\ (fst r <> WStuck -> posted (w_log (snd r)) = S (completed (w_log (snd r))))
  /\ (fst r = WDone -> last (w_log (snd r)) = Some WRequestFree)
  /\ (fst r = WBusy ->
      last (w_log (snd r)) = Some WIrecvWork
      \/ last (w_log (snd r)) = Some (WTest false)).
Proof.
  unfold worker_main.
  apply (loop_polling n k amb wfuel keep arrive turns 0 (worker_boot n k)).
  split; [reflexivity|]. split; [now left|reflexivity].
Qed.

(** ** The loop of line 173 *)

Section Draining.

Variables n k : Z.
Variable workers : nat.
Variable choose : nat -> nat.
Variable wamb : nat -> Z -> Z.
Variable wfuel : nat.

Lemma in_flight_insert (mb : list mail) : forall r status batch,
  mb !! r = Some (Ready status batch) ->
  in_flight mb = S (in_flight (<[r := Idle]> mb)).
Proof.
  unfold in_flight.
  induction mb as [|x mb IH]; intros [|r] status batch H; simpl in *;
    try discriminate.
  - inversion H; subst x. reflexivity.
  - specialize (IH r status batch H). destruct x; simpl; lia.
Qed.

Lemma in_flight_bound (mb : list mail) : (in_flight mb <= length mb)%nat.
Proof.
  unfold in_flight. induction mb as [|x mb IH]; simpl; [lia|].
  destruct x; simpl; lia.
Qed.

Lemma recieve_in_flight m r m' :
  recieve_solution choose m = Some (r, m') ->
  in_flight (m_mailbox m) = S (in_flight (m_mailbox m'))
  /\ length (m_mailbox m') = length (m_mailbox m).
Proof.
  destruct m as [sols active mb bufs clk log]. intros Hr.
  apply recieve_solution_inv in Hr. destruct Hr as (status & batch & Hmb & ->).
  simpl. split; [exact (in_flight_insert mb r status batch Hmb)|].
  apply length_insert.
Qed.

Lemma drain_bounded dfuel : forall m,
  (in_flight (m_mailbox m) < dfuel)%nat -> fst (drain choose dfuel m) <> Busy.
Proof.
  induction dfuel as [|dfuel IH]; intros m Hlt; [lia|].
  simpl. destruct (0 <? m_active_workers m); [|discriminate].
  destruct (recieve_solution choose m) as [[r m']|] eqn:Hr; [|discriminate].
  apply IH. pose proof (proj1 (recieve_in_flight _ _ _ Hr)). lia.
Qed.

(** The receives of the loop, from the state [m] on: each takes the
    message of a worker that had one in flight in [m], and no worker
    is heard twice. *)
Lemma drain_calls dfuel : forall m,
  exists calls,
    m_log (snd (drain choose dfuel m)) = m_log m ++ calls
    /\ List.NoDup (omap recv_rank calls)
    /\ (forall x, In x (omap recv_rank calls) ->
          exists r status batch,
            x = S r /\ m_mailbox m !! r = Some (Ready status batch))
    /\ (length (omap recv_rank calls) <= in_flight (m_mailbox m))%nat
    /\ m_clock (snd (drain choose dfuel m))
       = (m_clock m + length (omap recv_rank calls))%nat.
Proof.
  induction dfuel as [|dfuel IH]; intros m.
  - exists []. simpl. rewrite app_nil_r.
    split; [reflexivity|]. split; [constructor|].
    split; [intros x []|]. split; lia.
  - simpl. destruct (0 <? m_active_workers m).
    2:{ exists []. simpl. rewrite app_nil_r.
        split; [reflexivity|]. split; [constructor|].
        split; [intros x []|]. split; lia. }
    destruct (recieve_solution choose m) as [[r m']|] eqn:Hr.
    2:{ exists []. simpl. rewrite app_nil_r.
        split; [reflexivity|]. split; [constructor|].
        split; [intros x []|]. split; lia. }
    destruct (IH m') as (calls & H1 & H2 & H3 & H4 & H5).
    pose proof (proj1 (recieve_in_flight _ _ _ Hr)) as Hfl.
    destruct m as [sols active mb bufs clk log].
    apply recieve_solution_inv in Hr. destruct Hr as (status & batch & Hmb & ->).
    simpl in *.
    exists ((RecvReady (S r) status
             :: (if status =? solution_ready then [RecvBatch (S r) batch] else []))
            ++ calls).
    assert (Hranks : omap recv_rank
                       ((RecvReady (S r) status
                         :: (if status =? solution_ready
                             then [RecvBatch (S r) batch] else [])) ++ calls)
                     = S r :: omap recv_rank calls).
    { rewrite omap_app. destruct (status =? solution_ready); reflexivity. }
    rewrite Hranks.
    split; [rewrite H1, <- app_assoc; reflexivity|].
    split; [|split; [|split]].
    + constructor; [|exact H2]. intros Hin.
      destruct (H3 _ Hin) as (r' & st' & b' & Hx & Hl).
      inversion Hx; subst r'.
      rewrite list_lookup_insert_eq in Hl by (apply lookup_lt_Some in Hmb; exact Hmb).
      discriminate.
    + intros x [<-|Hin]; [now exists r, status, batch|].
      destruct (H3 _ Hin) as (r' & st' & b' & -> & Hl).
      exists r', st', b'. split; [reflexivity|].
      destruct (Nat.eq_dec r r') as [->|Hne].
      * rewrite list_lookup_insert_eq in Hl
          by (apply lookup_lt_Some in Hmb; exact Hmb).
        discriminate.
      * rewrite list_lookup_insert_ne in Hl by exact Hne. exact Hl.
    + simpl. lia.
    + rewrite H5. simpl. lia.
Qed.

End Draining.

(** X17. The loop of line 173 ([while(active_workers > 0)
    recieve_solution()]) hears each worker at most once.  From any
    state of the master: the readiness messages it receives come from
    ranks that are all different, each of a worker that had a message
    in flight when the loop began, so they are at most as many as
    there are workers; the count of receives made grows by their
    number.  With more turns than workers the loop is not still
    turning: it has been left, or it is blocked for ever in a receive
    (a worker whose search did not return). *)
Theorem drain_receives_once_per_worker (choose : nat -> nat) (dfuel : nat)
    (m : master) :
  (length (m_mailbox m) < dfuel)%nat ->
  let r := drain choose dfuel m in
  fst r <> Busy
  /\ exists calls,
       m_log (snd r) = m_log m ++ calls
       /\ List.NoDup (omap recv_rank calls)
       /\ (forall x, In x (omap recv_rank calls) ->
             exists rank status batch,
               x = S rank /\ m_mailbox m !! rank = Some (Ready status batch))
       /\ (length (omap recv_rank calls) <= length (m_mailbox m))%nat
       /\ m_clock (snd r) = (m_clock m + length (omap recv_rank calls))%nat.
Proof.
  intros Hd r. split.
  - apply drain_bounded. pose proof (in_flight_bound (m_mailbox m)). lia.
  - destruct (drain_calls choose dfuel m) as (calls & H1 & H2 & H3 & H4 & H5).
    exists calls. split; [exact H1|]. split; [exact H2|]. split; [exact H3|].
    split; [|exact H5].
    pose proof (in_flight_bound (m_mailbox m)). lia.
Qed.

(** The loop entered after the search of [master_main 4 1] with three
    workers, each of which holds a work unit. *)
Lemma drain_receives_once_per_worker_witness :
  let m :=
    world_of (nqueens_by_level
                (master_solution_func 4 1
                   (fun t => match t with 0 => 0 | 1 => 1 | _ => 2 end)%nat
                   (fun _ => calm) 1000)
                calm 0 1 1000 (replicate (Z.to_nat 4) 0) (boot 4 1 3)) in
  let r := drain (fun t => t) 5 m in
  omap recv_rank (drop (length (m_log m)) (m_log (snd r))) = [2; 3; 1]%nat
  /\ fst r <> Busy
  /\ exists calls,
       m_log (snd r) = m_log m ++ calls
       /\ List.NoDup (omap recv_rank calls)
       /\ (forall x, In x (omap recv_rank calls) ->
             exists rank status batch,
               x = S rank /\ m_mailbox m !! rank = Some (Ready status batch))
       /\ (length (omap recv_rank calls) <= length (m_mailbox m))%nat
       /\ m_clock (snd r) = (m_clock m + length (omap recv_rank calls))%nat.
Proof.
  split; [vm_compute; reflexivity|].
  apply (drain_receives_once_per_worker (fun t => t) 5).
  vm_compute. lia.
Defined.

(** ** What a search depends on *)

(** X18. The result of a search depends on rows [[0,start_level)] of
    [pos] only.  Two calls with the same callback and the same state
    of the caller, on boards of the same size that agree below
    [start_level], leave the caller in the same state when they return,
    whatever the other rows of the two boards hold (a worker's buffer
    may keep anything there), whatever the memory around [index] holds
    and however many steps each call takes. *)
Theorem later_rows_are_ignored {W : Type} (success_func : list Z -> W -> option W)
    (amb amb' : Z -> Z) (start_level max_level n : Z) (pos pos' : list Z) (w : W)
    (fuel fuel' : nat) (r r' : W) :
  1 <= n < half -> 0 <= start_level < max_level /\ max_level <= n ->
  Z.of_nat (length pos) = n -> Z.of_nat (length pos') = n ->
  take (Z.to_nat start_level) pos' = take (Z.to_nat start_level) pos ->
  nqueens_by_level success_func amb start_level max_level fuel pos w = Returned r ->
  nqueens_by_level success_func amb' start_level max_level fuel' pos' w = Returned r' ->
  r = r'.
Proof.
  intros Hn Hlevels Hp Hp' Hrows Hr Hr'.
  apply (returned_fold success_func amb start_level max_level n Hn Hlevels
           pos w fuel r Hp) in Hr.
  apply (returned_fold success_func amb' start_level max_level n Hn Hlevels
           pos' w fuel' r' Hp') in Hr'.
  rewrite (ext_agree n max_level (Z.to_nat (max_level - start_level)) pos pos'
             start_level) in Hr' by lia || exact Hrows.
  rewrite Hr in Hr'. now inversion Hr'.
Qed.

Lemma later_rows_are_ignored_witness :
  nqueens_by_level record_solution calm 1 3 40 [2; 0; 0; 0] [] = Returned [[2; 0; 3]]
  /\ nqueens_by_level record_solution (fun a => if a =? 0 then 9 else 1) 1 3 60
       [2; 3; 1; 2] [] = Returned [[2; 0; 3]]
  /\ [[2; 0; 3]] = [[2; 0; 3]].
Proof.
  split; [vm_compute; reflexivity|]. split; [vm_compute; reflexivity|].
  apply (later_rows_are_ignored record_solution calm (fun a => if a =? 0 then 9 else 1)
           1 3 4 [2; 0; 0; 0] [2; 3; 1; 2] [] 40 60 [[2; 0; 3]] [[2; 0; 3]]).
  - unfold half. lia.
  - lia.
  - reflexivity.
  - reflexivity.
  - reflexivity.
  - vm_compute. reflexivity.
  - vm_compute. reflexivity.
Defined.

(** ** The batches of a worker *)

Section WorkerBatches.

Variables n k : Z.
Variable amb : Z -> Z.
Variable wfuel : nat.
Variable keep : nat -> Z.
Variable arrive : nat -> option (list Z).

Hypothesis Hn : 1 <= n < half.
Hypothesis Hk : 0 <= k < n.

(** A batch made of the boards found from some board of [n] cells. *)
Local Abbreviation well_formed batch :=
  (exists pos,
      Z.of_nat (length pos) = n
      /\ batch = concat (ext n n (Z.to_nat (n - k)) pos k)).

Local Abbreviation sound log :=
  (forall batch, In (WSendBatch batch) log -> batch <> [] /\ well_formed batch).

Lemma serve_batches w board w' :
  w_solutions w = [] -> Z.of_nat (length (w_pos w)) = n -> sound (w_log w) ->
  worker_serve n k amb wfuel w board = Some w' ->
  w_solutions w' = [] /\ Z.of_nat (length (w_pos w')) = n /\ sound (w_log w').
Proof.
  destruct w as [pos sols log]. simpl. intros -> Hp Hlog. unfold worker_serve.
  cbn [w_pos w_solutions w_log].
  destruct (Nat.leb_spec (length board) (length pos)) as [Hle|Hgt];
    [|discriminate].
  assert (Hp' : Z.of_nat (length (board ++ drop (length board) pos)) = n).
  { rewrite length_app, length_drop. lia. }
  destruct (nqueens_by_level worker_solution_func amb k n wfuel
              (board ++ drop (length board) pos) []) as [s|sols|c|h] eqn:Hrun;
    try discriminate.
  apply (returned_fold worker_solution_func amb k n n Hn ltac:(lia)) in Hrun;
    [|exact Hp'].
  change worker_solution_func with add_solution_callback in Hrun.
  rewrite fold_add_solution in Hrun. injection Hrun as Hsols. simpl in Hsols.
  intros H. injection H as <-. cbn [w_pos w_solutions w_log].
  split; [reflexivity|]. split; [exact Hp'|].
  intros batch Hin. apply in_app_or in Hin. destruct Hin as [Hin|Hin];
    [exact (Hlog batch Hin)|].
  destruct sols as [|x sols]; simpl in Hin.
  - destruct Hin as [Hin|[Hin|[Hin|[]]]]; discriminate.
  - destruct Hin as [Hin|[Hin|[Hin|[Hin|[]]]]]; try discriminate.
    inversion Hin; subst batch. split; [discriminate|].
    exists (board ++ drop (length board) pos). split; [exact Hp'|].
    symmetry. exact Hsols.
Qed.

Lemma loop_batches turns : forall t w,
  w_solutions w = [] -> Z.of_nat (length (w_pos w)) = n -> sound (w_log w) ->
  sound (w_log (snd (worker_loop n k amb wfuel keep arrive turns t w))).
Proof.
  induction turns as [|turns IH]; intros t w Hs Hp Hlog; [exact Hlog|].
  rewrite worker_loop_S.
  destruct (keep t =? working).
  - destruct (arrive t) as [board|].
    + destruct (worker_serve n k amb wfuel w board) as [w'|] eqn:Hserve.
      * destruct (serve_batches w board w' Hs Hp Hlog Hserve) as (H1 & H2 & H3).
        exact (IH (S t) w' H1 H2 H3).
      * cbn [snd w_log]. intros batch Hin. apply in_app_or in Hin.
        destruct Hin as [Hin|[Hin|[]]]; [exact (Hlog batch Hin)|discriminate].
    + apply IH; [exact Hs|exact Hp|]. cbn [w_log]. intros batch Hin.
      apply in_app_or in Hin.
      destruct Hin as [Hin|[Hin|[]]]; [exact (Hlog batch Hin)|discriminate].
  - cbn [snd w_log]. intros batch Hin. apply in_app_or in Hin.
    destruct Hin as [Hin|[Hin|[]]]; [exact (Hlog batch Hin)|discriminate].
Qed.

End WorkerBatches.

(** X19. Every batch that [worker_main] sends is well formed
    ([0 <= k < n]): it is not empty and it is made of whole boards of
    [n] entries, each of them a board whose rows from [k] on hold a
    column in [[0,n)] that shares no column and no diagonal with any
    row below it.  This holds for any boards received (the worker does
    not look at the rows below [k] it is sent, it extends them),
    whenever they arrive. *)
Theorem worker_batches_are_whole_boards (n k : Z) (amb : Z -> Z) (wfuel : nat)
    (keep : nat -> Z) (arrive : nat -> option (list Z)) (turns : nat)
    (batch : list Z) :
  1 <= n < half -> 0 <= k < n ->
  In (WSendBatch batch) (w_log (snd (worker_main n k amb wfuel keep arrive turns))) ->
  batch <> []
  /\ exists boards,
       batch = concat boards
       /\ Z.of_nat (length batch) = n * Z.of_nat (length boards)
       /\ (forall s, In s boards ->
             Z.of_nat (length s) = n
             /\ (forall r, k <= r < n ->
                   0 <= peek s r < n
                   /\ (forall i, 0 <= i < r ->
                         to_int (peek s i) <> peek s r
                         /\ Z.abs (i - r) <> Z.abs (to_int (peek s i) - peek s r)))).
Proof.
  intros Hn Hk Hin. unfold worker_main in Hin.
  destruct (loop_batches n k amb wfuel keep arrive Hn Hk turns 0 (worker_boot n k)
              eq_refl) with (batch := batch) as [Hne (pos & Hp & Hb)].
  - simpl. rewrite length_replicate. lia.
  - intros b Hb. simpl in Hb.
    destruct Hb as [Hb|[Hb|[Hb|[Hb|[Hb|[]]]]]]; discriminate.
  - exact Hin.
  - split; [exact Hne|].
    exists (ext n n (Z.to_nat (n - k)) pos k).
    assert (Hall : forall s, In s (ext n n (Z.to_nat (n - k)) pos k) ->
              Z.of_nat (length s) = n
              /\ (forall r, k <= r < n ->
                    0 <= peek s r < n
                    /\ (forall i, 0 <= i < r ->
                          to_int (peek s i) <> peek s r
                          /\ Z.abs (i - r)
                             <> Z.abs (to_int (peek s i) - peek s r)))).
    { intros s Hs. apply in_ext in Hs; [|lia|lia|lia].
      destruct Hs as (H1 & _ & H3). split; [exact H1|].
      intros r Hr. destruct (H3 r Hr) as [H4 H5].
      split; [exact H4|]. apply safe_spec. exact H5. }
    split; [exact Hb|]. split; [|exact Hall].
    rewrite Hb. apply length_concat_boards. intros s Hs. apply Hall, Hs.
Qed.

Lemma worker_batches_are_whole_boards_witness :
  [1; 3; 0; 2] <> []
  /\ exists boards,
       [1; 3; 0; 2] = concat boards
       /\ Z.of_nat (length [1; 3; 0; 2]) = 4 * Z.of_nat (length boards)
       /\ (forall s, In s boards ->
             Z.of_nat (length s) = 4
             /\ (forall r, 1 <= r < 4 ->
                   0 <= peek s r < 4
                   /\ (forall i, 0 <= i < r ->
                         to_int (peek s i) <> peek s r
                         /\ Z.abs (i - r) <> Z.abs (to_int (peek s i) - peek s r)))).
Proof.
  apply (worker_batches_are_whole_boards 4 1 calm 1000
           (fun t => if (t <? 4)%nat then working else terminate)
           (fun t => match t with 1%nat => Some [0] | 2%nat => Some [1] | _ => None end)
           10 [1; 3; 0; 2]).
  - unfold half. lia.
  - lia.
  - vm_compute. do 11 right. left. reflexivity.
Defined.

(** ** The end of a worker *)

Lemma worker_loop_add (n k : Z) (amb : Z -> Z) (wfuel : nat) (keep : nat -> Z)
    (arrive : nat -> option (list Z)) (a : nat) : forall b t w,
  worker_loop n k amb wfuel keep arrive (a + b) t w
  = match worker_loop n k amb wfuel keep arrive a t w with
    | (WBusy, w') => worker_loop n k amb wfuel keep arrive b (t + a) w'
    | stopped => stopped
    end.
Proof.
  induction a as [|a IH]; intros b t w.
  - simpl. now rewrite Nat.add_0_r.
  - change (S a + b)%nat with (S (a + b)). rewrite !worker_loop_S.
    replace (t + S a)%nat with (S t + a)%nat by lia.
    destruct (keep t =? working); [|reflexivity].
    destruct (arrive t) as [board|]; [|apply IH].
    destruct (worker_serve n k amb wfuel w board) as [w'|]; [apply IH|reflexivity].
Qed.

(** C9. The termination signal is observable to a worker when the
    test of its loop (line 235) reads a value of [keep_working] other
    than [working].  At the first turn [t0] whose test reads such a
    value, after [t0] turns of polling, the worker leaves the loop: it
    does not call [MPI_Test] again, accepts no board (also one that
    has arrived by then), runs no search and sends nothing; its one
    further call is [MPI_Request_free] on the receive for work that is
    still posted, and [worker_main] returns.  What arrives from turn
    [t0] on, and what [keep_working] holds later, makes no
    difference. *)
Theorem worker_stops_when_signal_observed (n k : Z) (amb : Z -> Z) (wfuel : nat)
    (keep : nat -> Z) (arrive : nat -> option (list Z)) (t0 turns : nat) :
  keep t0 <> working ->
  fst (worker_main n k amb wfuel keep arrive t0) = WBusy ->
  (t0 < turns)%nat ->
  let before := snd (worker_main n k amb wfuel keep arrive t0) in
  let after := worker_main n k amb wfuel keep arrive turns in
  after = (WDone, Worker (w_pos before) (w_solutions before)
                         (w_log before ++ [WRequestFree]))
  /\ completed (w_log (snd after)) = completed (w_log before)
  /\ posted (w_log (snd after)) = posted (w_log before)
  /\ reports (w_log (snd after)) = reports (w_log before)
  /\ w_solutions (snd after) = [].
Proof.
  intros Hkeep Hbusy Hlt before after.
  assert (Hafter : after = (WDone, Worker (w_pos before) (w_solutions before)
                                          (w_log before ++ [WRequestFree]))).
  { unfold after, before, worker_main in *.
    replace turns with (t0 + S (turns - t0 - 1))%nat by lia.
    rewrite worker_loop_add.
    destruct (worker_loop n k amb wfuel keep arrive t0 0 (worker_boot n k))
      as [e w'] eqn:Hloop.
    simpl in Hbusy. subst e. cbn [snd].
    rewrite worker_loop_S.
    replace (keep (0 + t0)%nat =? working) with false; [reflexivity|].
    symmetry. apply Z.eqb_neq. exact Hkeep. }
  split; [exact Hafter|]. rewrite Hafter. cbn [snd w_log w_solutions].
  split; [rewrite completed_app; unfold completed at 2; simpl; lia|].
  split; [rewrite posted_app; unfold posted at 2; simpl; lia|].
  split; [rewrite reports_app; simpl; apply app_nil_r|].
  exact (proj1 (loop_reports n k amb wfuel keep arrive t0 0 (worker_boot n k)
                  eq_refl)).
Qed.

(** A worker that has answered one board when the signal is seen at
    turn 3; the boards that arrive at turns 3 and 4 are left alone. *)
Lemma worker_stops_when_signal_observed_witness :
  let keep := fun t => if (t <? 3)%nat then working else terminate in
  let arrive :=
    fun t => match t with
             | 1%nat => Some [1]
             | 3%nat => Some [2]
             | 4%nat => Some [0]
             | _ => None
             end in
  let before := snd (worker_main 4 1 calm 1000 keep arrive 3) in
  let after := worker_main 4 1 calm 1000 keep arrive 8 in
  reports (w_log before) = [Ready initial_ready []; Ready solution_ready [1; 3; 0; 2]]
  /\ after = (WDone, Worker (w_pos before) (w_solutions before)
                            (w_log before ++ [WRequestFree]))
  /\ completed (w_log (snd after)) = completed (w_log before)
  /\ posted (w_log (snd after)) = posted (w_log before)
  /\ reports (w_log (snd after)) = reports (w_log before)
  /\ w_solutions (snd after) = [].
Proof.
  split; [vm_compute; reflexivity|].
  apply (worker_stops_when_signal_observed 4 1 calm 1000
           (fun t => if (t <? 3)%nat then working else terminate)
           (fun t => match t with
                     | 1%nat => Some [1]
                     | 3%nat => Some [2]
                     | 4%nat => Some [0]
                     | _ => None
                     end) 3 8).
  - vm_compute. discriminate.
  - vm_compute. reflexivity.
  - lia.
Defined.
